(** * The PDF text editor core of cv-ai-review ([src/lib/pdf-text-editor.ts])

    A shallow embedding of the block builder, the similarity matcher, the
    block locator, the text map update and the re-flow renderer, followed by
    the properties established about them.

    Conventions of the embedding.
    - A JavaScript [number] is an exact rational ([Q]); the optional numeric
      fields of the extractor's items are [option Q], and the [||] default
      idiom is [js_or] (an absent or zero operand selects the default).
      Page indices are integers ([Z]), the grouping loop starts at [-1].
    - A JavaScript string is a [string] of 8-bit code units read as
      U+0000..U+00FF; white space and case mapping are those of ECMAScript
      restricted to that range.
    - A [Set] of strings of which only [has] and [size] are observed is a
      [gset string].
    - Mutable arrays and buffers live in explicit stores ([gmap] from
      addresses), so that sharing and copying are visible.
    - A function that may throw returns a [result]. The loops of the
      renderer draw on a page before a later call may throw: their state
      keeps the page and the exception that has left the loop. *)

From Stdlib Require Import QArith Qminmax Qabs Lqa ZArith List Sorted String Ascii Lia.
From stdpp Require Import gmap strings list.

Local Open Scope string_scope.
Local Open Scope list_scope.

(** ** JavaScript primitives *)

Module Js.

(** [a || b] on an optional number: [undefined] and [0] are falsy. *)
Definition js_or (a : option Q) (b : Q) : Q :=
  match a with
  | Some v => if Qeq_bool v 0 then b else v
  | None => b
  end.

Definition Qlt_bool (a b : Q) : bool := negb (Qle_bool b a).

(** ECMAScript [WhiteSpace] and [LineTerminator] inside U+0000..U+00FF:
    TAB, LF, VT, FF, CR, SP and NBSP. This is the class of [\s] and of
    [String.prototype.trim]. *)
Definition is_space (c : ascii) : bool :=
  let n := N_of_ascii c in
  (((9 <=? n) && (n <=? 13)) || (n =? 32) || (n =? 160))%N.

(** [toLowerCase] on one code unit: A..Z and the Latin-1 capitals
    U+00C0..U+00DE (the multiplication sign U+00D7 apart). *)
Definition lower (c : ascii) : ascii :=
  let n := N_of_ascii c in
  if (((65 <=? n) && (n <=? 90)) ||
      ((192 <=? n) && (n <=? 222) && negb (n =? 215)))%N
  then ascii_of_N (n + 32) else c.

Fixpoint toLowerCase (s : string) : string :=
  match s with
  | EmptyString => EmptyString
  | String c t => String (lower c) (toLowerCase t)
  end.

Fixpoint trimStart (s : string) : string :=
  match s with
  | EmptyString => EmptyString
  | String c t => if is_space c then trimStart t else s
  end.

Fixpoint trimEnd (s : string) : string :=
  match s with
  | EmptyString => EmptyString
  | String c t =>
      let t' := trimEnd t in
      if is_space c && String.eqb t' "" then "" else String c t'
  end.

Definition trim (s : string) : string := trimEnd (trimStart s).

(** [s.replace(/\s+/g, " ")]: every maximal run of white space becomes one
    space. [in_ws] tells that the previous code unit was white space. *)
Fixpoint collapse_from (in_ws : bool) (s : string) : string :=
  match s with
  | EmptyString => EmptyString
  | String c t =>
      if is_space c
      then (if in_ws then collapse_from true t
            else String " " (collapse_from true t))
      else String c (collapse_from false t)
  end.

Definition collapse_ws (s : string) : string := collapse_from false s.

(** [s.includes(sub)] *)
Fixpoint includes (s sub : string) : bool :=
  String.prefix sub s ||
  match s with
  | EmptyString => false
  | String _ t => includes t sub
  end.

(** [s.split(/\s+/)]: the pieces between maximal runs of white space; a
    leading or trailing run yields an empty first or last piece, and the
    empty string yields one empty piece. *)
Fixpoint split_ws_from (in_ws : bool) (cur : string) (s : string) : list string :=
  match s with
  | EmptyString => [cur]
  | String c t =>
      if is_space c
      then (if in_ws then split_ws_from true cur t
            else cur :: split_ws_from true "" t)
      else split_ws_from false (cur +:+ String c "") t
  end.

Definition split_ws (s : string) : list string := split_ws_from false "" s.

(** [s.split(sep)] for a one-character separator. *)
Fixpoint split_on_from (sep : ascii) (cur : string) (s : string) : list string :=
  match s with
  | EmptyString => [cur]
  | String c t =>
      if Ascii.eqb c sep then cur :: split_on_from sep "" t
      else split_on_from sep (cur +:+ String c "") t
  end.

Definition split_on (sep : ascii) (s : string) : list string :=
  split_on_from sep "" s.

(** Truthiness of a string: non-empty. *)
Definition truthy (s : string) : bool := negb (String.eqb s "").

(** [items.join(sep)] *)
Fixpoint join (sep : string) (l : list string) : string :=
  match l with
  | [] => ""
  | [s] => s
  | s :: t => s +:+ sep +:+ join sep t
  end.

End Js.

Import Js.

(** ** Similarity matcher *)

Definition normalize (text : string) : string :=
  toLowerCase (collapse_ws (trim text)).

(** The quotient of the two sizes is exact here; on doubles the comparison
    with [0.7] gives the same answer, the quotient of two small integers
    being either [7/10] itself or far from it. *)
Definition calculateSimilarity (s1 s2 : string) : Q :=
  if String.eqb s1 s2 then 1
  else if (String.length s1 =? 0)%nat || (String.length s2 =? 0)%nat then 0
  else
    let words1 : gset string := list_to_set (split_ws s1) in
    let words2 : gset string := list_to_set (split_ws s2) in
    let intersection : gset string := filter (λ x, x ∈ words2) words1 in
    let union : gset string := list_to_set (elements words1 ++ elements words2) in
    inject_Z (Z.of_nat (size intersection)) / inject_Z (Z.of_nat (size union)).

Definition fuzzyTextMatch (text1 text2 : string) : bool :=
  let normalizedText1 := normalize text1 in
  let normalizedText2 := normalize text2 in
  includes normalizedText1 normalizedText2 ||
  includes normalizedText2 normalizedText1 ||
  Qlt_bool (7 # 10) (calculateSimilarity normalizedText1 normalizedText2).

(** *** The matcher as the specification words it *)

(** [sub] occurs in [s] as a contiguous substring. *)
Definition is_substring (sub s : string) : Prop :=
  ∃ pre post, s = pre +:+ sub +:+ post.

Definition word_set (s : string) : gset string := list_to_set (split_ws s).

(** Jaccard similarity of the word sets, with the identity and the empty
    cases fixed first. *)
Definition jaccard_similarity (s1 s2 : string) : Q :=
  if decide (s1 = s2) then 1
  else if decide (s1 = "" ∨ s2 = "") then 0
  else inject_Z (Z.of_nat (size (word_set s1 ∩ word_set s2)))
       / inject_Z (Z.of_nat (size (word_set s1 ∪ word_set s2))).

Definition fuzzyMatch_spec (a b : string) : Prop :=
  is_substring (normalize b) (normalize a) ∨
  is_substring (normalize a) (normalize b) ∨
  (7 # 10 < jaccard_similarity (normalize a) (normalize b))%Q.

(** The words of a string: its maximal runs of characters that are not
    white space. [cur] is the word being read. *)
Fixpoint words_from (cur : string) (s : string) : list string :=
  match s with
  | EmptyString => if truthy cur then [cur] else []
  | String c t =>
      if is_space c
      then (if truthy cur then cur :: words_from "" t else words_from "" t)
      else words_from (cur +:+ String c "") t
  end.

Definition text_words (s : string) : list string := words_from "" s.

(** The operand as the specification normalises it. Trimming a string and
    collapsing each of its runs of white space to one space leaves its
    words joined by single spaces; the letters are then put in lower
    case. *)
Definition normal_form (s : string) : string :=
  toLowerCase (join " " (text_words s)).

(** ** Exceptions *)

Inductive result (A : Type) : Type :=
| Ok (a : A)
| Throw (msg : string).

Arguments Ok {A} a.
Arguments Throw {A} msg.

#[global] Instance result_bind : MBind result :=
  λ A B f m, match m with Ok a => f a | Throw e => Throw e end.

#[global] Instance result_ret : MRet result := λ A a, Ok a.

(** ** Data model *)

(** [TextItem.position] *)
Record ItemPosition := {
  ip_x : Q;
  ip_y : Q;
  ip_width : Q;
  ip_height : Q;
  ip_fontSize : option Q;
  ip_fontName : option string
}.

Record TextItem := {
  item_text : string;
  item_position : ItemPosition;
  item_pageIndex : Z
}.

(** [TextBlock.position], and the region handed to the locator. *)
Record Box := {
  box_x : Q;
  box_y : Q;
  box_width : Q;
  box_height : Q
}.

Record TextBlock := {
  items : list TextItem;
  text : string;
  position : Box;
  pageIndex : Z;
  isModified : bool;
  originalText : option string
}.

Record PageSize := {
  page_width : Q;
  page_height : Q
}.

Record PdfTextMap := {
  blocks : list TextBlock;
  pages : list PageSize
}.

(** ** Extraction pipeline *)

(** The six values [a, b, c, d, e, f] of an item's [transform];
    [transform[3]] is [tr_d], [transform[4]] is [tr_e] and [transform[5]]
    is [tr_f]. *)
Record Transform := {
  tr_a : Q; tr_b : Q; tr_c : Q; tr_d : Q; tr_e : Q; tr_f : Q
}.

(** One item of [textContent.items] as the page text extractor yields it. *)
Record RawItem := {
  str : string;
  transform : Transform;
  raw_width : option Q;
  raw_height : option Q;
  raw_fontSize : option Q;
  raw_fontName : option string
}.

(** One page of the loaded document: its viewport at scale 1 and its text
    content. *)
Record RawPage := {
  viewport : PageSize;
  textContent : list RawItem
}.

(** The callback of [textContent.items.map] in [extractTextWithPositions]. *)
Definition toTextItem (pageIndex : Z) (item : RawItem) : TextItem :=
  let transform := transform item in
  let fontSize :=
    js_or (raw_height item) (tr_d transform * js_or (raw_fontSize item) 10)%Q in
  let height := (fontSize * 1.2)%Q in
  {| item_text := str item;
     item_position :=
       {| ip_x := tr_e transform;
          ip_y := tr_f transform;
          ip_width :=
            js_or (raw_width item)
                  (inject_Z (Z.of_nat (String.length (str item))) * fontSize * 0.6)%Q;
          ip_height := height;
          ip_fontSize := Some fontSize;
          ip_fontName := raw_fontName item |};
     item_pageIndex := pageIndex |}.

(** State of the page loop of [extractTextWithPositions]. *)
Record ExtractState := {
  ex_pageIndex : Z;
  allTextItems : list TextItem;
  pageInfo : list PageSize
}.

Definition extract_page (st : ExtractState) (page : RawPage) : ExtractState :=
  let pageTextItems := List.map (toTextItem (ex_pageIndex st)) (textContent page) in
  {| ex_pageIndex := ex_pageIndex st + 1;
     allTextItems := allTextItems st ++ pageTextItems;
     pageInfo := pageInfo st ++ [viewport page] |}.

Definition extract_pages (pdfDoc : list RawPage) : ExtractState :=
  fold_left extract_page pdfDoc
            {| ex_pageIndex := 0; allTextItems := []; pageInfo := [] |}.

(** ** Block builder *)

(** [Math.min] / [Math.max] over the items, started at the first item: the
    source starts at [Infinity] / [-Infinity], which the first item
    replaces. An empty array throws. *)
Definition createBlockFromItems (items : list TextItem) : result TextBlock :=
  match items with
  | [] => Throw "Cannot create block from empty items array"
  | first :: rest =>
      let p0 := item_position first in
      let minX := fold_left (λ m it, Qmin m (ip_x (item_position it))) rest (ip_x p0) in
      let minY := fold_left (λ m it, Qmin m (ip_y (item_position it))) rest (ip_y p0) in
      let maxX :=
        fold_left (λ m it, Qmax m (ip_x (item_position it) + ip_width (item_position it))%Q)
                  rest (ip_x p0 + ip_width p0)%Q in
      let maxY :=
        fold_left (λ m it, Qmax m (ip_y (item_position it) + ip_height (item_position it))%Q)
                  rest (ip_y p0 + ip_height p0)%Q in
      Ok {| items := items;
            text := join " " (List.map item_text items);
            position := {| box_x := minX; box_y := minY;
                           box_width := (maxX - minX)%Q;
                           box_height := (maxY - minY)%Q |};
            pageIndex := item_pageIndex first;
            isModified := false;
            originalText := None |}
  end.

(** The comparator handed to [sort]. *)
Definition compareItems (a b : TextItem) : Q :=
  if negb (item_pageIndex a =? item_pageIndex b)%Z
  then inject_Z (item_pageIndex a - item_pageIndex b)
  else
    let yThreshold :=
      (Qmax (ip_height (item_position a)) (ip_height (item_position b)) * 0.5)%Q in
    if Qlt_bool yThreshold (Qabs (ip_y (item_position a) - ip_y (item_position b)))
    then (ip_y (item_position b) - ip_y (item_position a))%Q
    else (ip_x (item_position a) - ip_x (item_position b))%Q.

(** [Array.prototype.sort] rearranges the array, and where the comparator
    orders the elements consistently the arrangement is the stable sorted
    one. It is modelled by stable insertion: an element goes before the
    first one it does not compare greater than. [compareItems] is not
    transitive (its tolerance band depends on the pair compared), and on
    runs it does not order consistently the engine is free in the order it
    leaves them in; of the order the statements below use only what does
    not depend on that freedom: that it is a rearrangement, that pages,
    which are compared consistently, ascend, and the sorted order of runs
    the comparator does order consistently. *)
Fixpoint insert_sorted (cmp : TextItem → TextItem → Q) (a : TextItem)
  (l : list TextItem) : list TextItem :=
  match l with
  | [] => [a]
  | b :: t => if Qle_bool (cmp a b) 0 then a :: b :: t
              else b :: insert_sorted cmp a t
  end.

Fixpoint sort_by (cmp : TextItem → TextItem → Q) (l : list TextItem) : list TextItem :=
  match l with
  | [] => []
  | a :: t => insert_sorted cmp a (sort_by cmp t)
  end.

(** The variables of the grouping loop. *)
Record GroupState := {
  gs_blocks : list TextBlock;
  currentBlock : list TextItem;
  currentPageIndex : Z;
  lastY : Q;
  lastRight : Q
}.

(** One iteration of the loop over the sorted items. *)
Definition group_step (st : GroupState) (item : TextItem) : result GroupState :=
  let p := item_position item in
  let right := (ip_x p + ip_width p)%Q in
  let isNewPage := negb (item_pageIndex item =? currentPageIndex st)%Z in
  let isNewLine := Qlt_bool (ip_height p * 0.5) (Qabs (ip_y p - lastY st)) in
  let isGap := Qlt_bool (lastRight st + ip_width p * 0.5) (ip_x p) in
  '(blocks, current) ←
    (if (0 <? length (currentBlock st))%nat && (isNewPage || isNewLine || isGap)
     then b ← createBlockFromItems (currentBlock st);
          mret (gs_blocks st ++ [b], [])
     else mret (gs_blocks st, currentBlock st));
  mret {| gs_blocks := blocks;
          currentBlock := current ++ [item];
          currentPageIndex := item_pageIndex item;
          lastY := ip_y p;
          lastRight := right |}.

Fixpoint group_loop (st : GroupState) (l : list TextItem) : result GroupState :=
  match l with
  | [] => Ok st
  | item :: t => st' ← group_step st item; group_loop st' t
  end.

(** The part of [groupTextIntoBlocks] after the sort: the loop over the
    sorted items and the block left open at its end. *)
Definition group_sorted (sortedItems : list TextItem) : result (list TextBlock) :=
  st ← group_loop {| gs_blocks := []; currentBlock := [];
                     currentPageIndex := -1; lastY := -1; lastRight := -1 |}
                  sortedItems;
  if (0 <? length (currentBlock st))%nat
  then b ← createBlockFromItems (currentBlock st); mret (gs_blocks st ++ [b])
  else mret (gs_blocks st).

Definition groupTextIntoBlocks (textItems : list TextItem) : result (list TextBlock) :=
  let sortedItems := sort_by compareItems textItems in
  group_sorted sortedItems.

(** The extractor itself is external: [pdfDoc] is the document it loaded. *)
Definition extractTextWithPositions (pdfDoc : list RawPage) : result PdfTextMap :=
  let st := extract_pages pdfDoc in
  blocks ← groupTextIntoBlocks (allTextItems st);
  mret {| blocks := blocks; pages := pageInfo st |}.

(** ** Block locator *)

Definition overlapX (b : Box) (region : Box) : Q :=
  Qmax 0 (Qmin (box_x b + box_width b) (box_x region + box_width region)
          - Qmax (box_x b) (box_x region))%Q.

Definition overlapY (b : Box) (region : Box) : Q :=
  Qmax 0 (Qmin (box_y b + box_height b) (box_y region + box_height region)
          - Qmax (box_y b) (box_y region))%Q.

Definition overlaps (region : Box) (block : TextBlock) : bool :=
  Qlt_bool 0 (overlapX (position block) region) &&
  Qlt_bool 0 (overlapY (position block) region).

(** The parameters [position] and [pageIndex] of the source are [region]
    and [page] here, the record fields having taken these names. *)
Definition findTextBlockToReplace (textMap : PdfTextMap) (originalText : string)
  (region : Box) (page : Z) : option TextBlock :=
  let pageBlocks :=
    List.filter (λ block, (pageIndex block =? page)%Z) (blocks textMap) in
  let overlappingBlocks := List.filter (overlaps region) pageBlocks in
  if (length overlappingBlocks =? 0)%nat then None
  else
    match List.find (λ block, fuzzyTextMatch (text block) originalText)
                    overlappingBlocks with
    | Some block => Some block
    | None => head overlappingBlocks
    end.

(** ** Text map update *)

(** The arrays of a text map are mutable objects: a map object holds the
    addresses of its [blocks] and [pages] arrays, and the heap holds the
    arrays. [console] collects what [console.error] reports. *)
Record Heap := {
  block_arrays : gmap nat (list TextBlock);
  page_arrays : gmap nat (list PageSize);
  console : list string
}.

Record MapObject := {
  blocks_at : nat;
  pages_at : nat
}.

(** The value a map object denotes in a heap. *)
Definition read_map (h : Heap) (m : MapObject) : option PdfTextMap :=
  match block_arrays h !! blocks_at m, page_arrays h !! pages_at m with
  | Some bs, Some ps => Some {| blocks := bs; pages := ps |}
  | _, _ => None
  end.

(** [[...a]] for an array of blocks: a new array with the same elements. *)
Definition copy_blocks (h : Heap) (bs : list TextBlock) : Heap * nat :=
  let a := fresh (dom (block_arrays h)) in
  ({| block_arrays := <[a := bs]> (block_arrays h);
      page_arrays := page_arrays h;
      console := console h |}, a).

Definition copy_pages (h : Heap) (ps : list PageSize) : Heap * nat :=
  let a := fresh (dom (page_arrays h)) in
  ({| block_arrays := block_arrays h;
      page_arrays := <[a := ps]> (page_arrays h);
      console := console h |}, a).

Definition console_error (h : Heap) (msg : string) : Heap :=
  {| block_arrays := block_arrays h;
     page_arrays := page_arrays h;
     console := console h ++ [msg] |}.

(** [arr[i] = v] on the array at address [a]. *)
Definition write_block (h : Heap) (a : nat) (i : nat) (v : TextBlock) : Heap :=
  {| block_arrays := alter (λ bs, <[i := v]> bs) a (block_arrays h);
     page_arrays := page_arrays h;
     console := console h |}.

(** [Array.prototype.findIndex]: the first index whose element satisfies
    the predicate, [-1] when there is none. *)
Fixpoint findIndex_from {A : Type} (p : A → bool) (i : Z) (l : list A) : Z :=
  match l with
  | [] => -1
  | a :: t => if p a then i else findIndex_from p (i + 1) t
  end.

Definition findIndex {A : Type} (p : A → bool) (l : list A) : Z :=
  findIndex_from p 0 l.

(** The predicate of the [findIndex] call in [replaceTextInBlock]. *)
Definition same_key (blockToReplace block : TextBlock) : bool :=
  (pageIndex block =? pageIndex blockToReplace)%Z &&
  Qeq_bool (box_x (position block)) (box_x (position blockToReplace)) &&
  Qeq_bool (box_y (position block)) (box_y (position blockToReplace)).

(** [{...blockToReplace, text: newText, originalText: blockToReplace.text,
    isModified: true}] *)
Definition updatedBlock (blockToReplace : TextBlock) (newText : string) : TextBlock :=
  {| items := items blockToReplace;
     text := newText;
     position := position blockToReplace;
     pageIndex := pageIndex blockToReplace;
     isModified := true;
     originalText := Some (text blockToReplace) |}.

(** Spreading an array that is not there is a [TypeError]. *)
Definition replaceTextInBlock (h : Heap) (textMap : MapObject)
  (blockToReplace : TextBlock) (newText : string) : result (Heap * MapObject) :=
  match read_map h textMap with
  | None => Throw "TypeError"
  | Some m =>
      let '(h1, a_blocks) := copy_blocks h (blocks m) in
      let '(h2, a_pages) := copy_pages h1 (pages m) in
      let updatedMap := {| blocks_at := a_blocks; pages_at := a_pages |} in
      let blockIndex :=
        findIndex (same_key blockToReplace)
                  (default [] (block_arrays h2 !! blocks_at updatedMap)) in
      if (blockIndex =? -1)%Z
      then Ok (console_error h2 "Block not found in text map", textMap)
      else
        Ok (write_block h2 (blocks_at updatedMap) (Z.to_nat blockIndex)
                        (updatedBlock blockToReplace newText),
            updatedMap)
  end.

(** ** Re-flow renderer *)

(** An [ArrayBuffer] is either a run of bytes or detached. *)
Inductive ArrayBuffer :=
| Bytes (data : list Byte.byte)
| Detached.

(** A typed-array view: the address of the buffer it looks into. *)
Record Uint8Array := {
  buffer : nat
}.

(** [new Uint8Array(arrayBuffer)]: a view over the buffer handed in; no
    bytes are copied. A detached buffer is a [TypeError]. *)
Definition new_Uint8Array (st : gmap nat ArrayBuffer) (arrayBuffer : nat) : result Uint8Array :=
  match st !! arrayBuffer with
  | Some (Bytes _) => Ok {| buffer := arrayBuffer |}
  | _ => Throw "TypeError"
  end.

(** [view.slice()]: a view over a new buffer holding a copy of the bytes. *)
Definition Uint8Array_slice (st : gmap nat ArrayBuffer) (view : Uint8Array)
  : gmap nat ArrayBuffer * Uint8Array :=
  let a := fresh (dom st) in
  (<[a := default Detached (st !! buffer view)]> st, {| buffer := a |}).

(** What is drawn on a page. *)
Inductive DrawOp :=
| DrawRectangle (x y width height : Q) (color : Q * Q * Q) (opacity : Q)
| DrawText (line : string) (x y size : Q).

(** A page of the loaded document: its size and what has been drawn on it
    since it was loaded. *)
Record PDFPage := {
  getSize : PageSize;
  drawn : list DrawOp
}.

(** [page.drawRectangle] and, once the font has encoded the line,
    [page.drawText] add one operation to the page. *)
Definition drawRectangle (page : PDFPage) (x y width height : Q)
  (color : Q * Q * Q) (opacity : Q) : PDFPage :=
  {| getSize := getSize page;
     drawn := drawn page ++ [DrawRectangle x y width height color opacity] |}.

Definition drawText (page : PDFPage) (line : string) (x y size : Q) : PDFPage :=
  {| getSize := getSize page;
     drawn := drawn page ++ [DrawText line x y size] |}.

Definition rgb (r g b : Q) : Q * Q * Q := (r, g, b).

(** The variables of [drawTextWithWrapping], and the exception that has
    left it, if one has: the page keeps what was drawn before. *)
Record WrapState := {
  ws_page : PDFPage;
  yOffset : Q;
  line : string;
  thrown : option string
}.

Section Renderer.

(** [PDFDocument.load] is external: handed a buffer, it leaves the buffer in
    some state and yields the sizes of the document's pages or throws. *)
Variable load : ArrayBuffer → ArrayBuffer * result (list PageSize).

(** [font.widthOfTextAtSize] of the embedded Helvetica: the width of the
    text, or the exception the font raises for a text it cannot encode. *)
Variable widthOfTextAtSize : string → Q → result Q.

(** [page.drawText] has the font encode the line before anything is drawn:
    [encodeText] is that step, which succeeds or throws. [drawText] is the
    rest of the call. *)
Variable encodeText : string → result unit.

(** The body of the loop over the words of a paragraph. An exception leaves
    the loop: once one is thrown the remaining steps do nothing. *)
Definition wrap_word (x y maxWidth fontSize : Q) (st : WrapState) (word : string)
  : WrapState :=
  match thrown st with
  | Some _ => st
  | None =>
      let lineHeight := (fontSize * 1.2)%Q in
      let testLine := line st +:+ (if truthy (line st) then " " else "") +:+ word in
      match widthOfTextAtSize testLine fontSize with
      | Throw e =>
          {| ws_page := ws_page st; yOffset := yOffset st; line := line st;
             thrown := Some e |}
      | Ok testWidth =>
          if Qlt_bool maxWidth testWidth && negb (String.eqb (line st) "")
          then match encodeText (line st) with
               | Throw e =>
                   {| ws_page := ws_page st; yOffset := yOffset st; line := line st;
                      thrown := Some e |}
               | Ok _ =>
                   {| ws_page := drawText (ws_page st) (line st) x (y + yOffset st)%Q
                                          fontSize;
                      yOffset := (yOffset st + lineHeight)%Q;
                      line := word;
                      thrown := None |}
               end
          else {| ws_page := ws_page st; yOffset := yOffset st; line := testLine;
                  thrown := None |}
      end
  end.

(** The body of the loop over the paragraphs; [line] is reset for each. *)
Definition wrap_paragraph (x y maxWidth fontSize : Q) (st : WrapState)
  (paragraph : string) : WrapState :=
  match thrown st with
  | Some _ => st
  | None =>
      let lineHeight := (fontSize * 1.2)%Q in
      if negb (truthy (trim paragraph))
      then {| ws_page := ws_page st; yOffset := (yOffset st + lineHeight)%Q;
              line := ""; thrown := None |}
      else
        let words := split_on " " paragraph in
        let st' :=
          fold_left (wrap_word x y maxWidth fontSize) words
                    {| ws_page := ws_page st; yOffset := yOffset st; line := "";
                       thrown := None |} in
        match thrown st' with
        | Some _ => st'
        | None =>
            if truthy (line st')
            then match encodeText (line st') with
                 | Throw e =>
                     {| ws_page := ws_page st'; yOffset := yOffset st';
                        line := line st'; thrown := Some e |}
                 | Ok _ =>
                     {| ws_page := drawText (ws_page st') (line st') x
                                            (y + yOffset st')%Q fontSize;
                        yOffset := (yOffset st' + lineHeight * 1.5)%Q;
                        line := line st';
                        thrown := None |}
                 end
            else st'
        end
  end.

(** The page as the call leaves it, and whether the call returned or
    threw. *)
Definition drawTextWithWrapping (page : PDFPage) (text : string)
  (x y maxWidth fontSize : Q) : PDFPage * result unit :=
  let paragraphs := split_on "010" text in
  let st := fold_left (wrap_paragraph x y maxWidth fontSize) paragraphs
                      {| ws_page := page; yOffset := 0; line := ""; thrown := None |} in
  (ws_page st, match thrown st with Some e => Throw e | None => Ok tt end).

(** The body of the loop over the modified blocks of a page. *)
Definition apply_block (height : Q) (page : PDFPage) (block : TextBlock)
  : PDFPage * result unit :=
  let page1 :=
    drawRectangle page
      (box_x (position block))
      (height - box_y (position block) - box_height (position block))%Q
      (box_width (position block))
      (box_height (position block))
      (rgb 1 1 1) 1.0%Q in
  drawTextWithWrapping page1 (text block)
    (box_x (position block))
    (height - box_y (position block) - box_height (position block))%Q
    (box_width (position block))
    10.

(** The loop over the modified blocks of a page; an exception leaves it. *)
Fixpoint apply_blocks (height : Q) (modifiedBlocks : list TextBlock) (page : PDFPage)
  : PDFPage * result unit :=
  match modifiedBlocks with
  | [] => (page, Ok tt)
  | block :: rest =>
      let '(page', r) := apply_block height page block in
      match r with
      | Throw e => (page', Throw e)
      | Ok _ => apply_blocks height rest page'
      end
  end.

(** The body of the loop over the pages; the page objects are updated in
    place in the array [pages]. *)
Definition render_page (textMap : PdfTextMap) (pages : list PDFPage) (i : nat)
  : list PDFPage * result unit :=
  match pages !! i with
  | None => (pages, Ok tt)
  | Some page =>
      let height := page_height (getSize page) in
      let modifiedBlocks :=
        List.filter (λ block, (pageIndex block =? Z.of_nat i)%Z && isModified block)
                    (blocks textMap) in
      let '(page', r) := apply_blocks height modifiedBlocks page in
      (<[i := page']> pages, r)
  end.

(** The loop over the page indices; an exception leaves it. *)
Fixpoint render_from (textMap : PdfTextMap) (indices : list nat) (pages : list PDFPage)
  : list PDFPage * result unit :=
  match indices with
  | [] => (pages, Ok tt)
  | i :: rest =>
      let '(pages', r) := render_page textMap pages i in
      match r with
      | Throw e => (pages', Throw e)
      | Ok _ => render_from textMap rest pages'
      end
  end.

Definition render_pages (textMap : PdfTextMap) (pages : list PDFPage)
  : list PDFPage * result unit :=
  render_from textMap (seq 0 (length pages)) pages.

(** The serialisation of [pdfDoc.save()] is external: the result is the
    pages with what was drawn on them, or the exception that left the
    loops, which the [catch] clause logs and throws again. The buffer store
    is returned with whatever the loader did to the buffer it was handed. *)
Definition regeneratePdfWithModifiedText (st : gmap nat ArrayBuffer)
  (originalPdfArrayBuffer : nat) (textMap : PdfTextMap)
  : gmap nat ArrayBuffer * result (list PDFPage) :=
  match new_Uint8Array st originalPdfArrayBuffer with
  | Throw e => (st, Throw e)
  | Ok view =>
      let bufferCopy := buffer view in
      match st !! bufferCopy with
      | None => (st, Throw "TypeError")
      | Some b =>
          let '(b', loaded) := load b in
          (<[bufferCopy := b']> st,
           sizes ← loaded;
           let '(pages', r) :=
             render_pages textMap
               (List.map (λ s, {| getSize := s; drawn := [] |}) sizes) in
           _ ← r;
           mret pages')
      end
  end.

End Renderer.

(** ** Vocabulary of the statements *)

(** [b] is the first element of [l] that satisfies [P]. *)
Definition first_such {A : Type} (P : A → Prop) (l : list A) (b : A) : Prop :=
  ∃ l1 l2, l = l1 ++ b :: l2 ∧ P b ∧ ∀ a, In a l1 → ¬ P a.

(** Width and height of the intersection of two boxes (not positive when
    they are apart). *)
Definition overlap_width (b region : Box) : Q :=
  (Qmin (box_x b + box_width b) (box_x region + box_width region)
   - Qmax (box_x b) (box_x region))%Q.

Definition overlap_height (b region : Box) : Q :=
  (Qmin (box_y b + box_height b) (box_y region + box_height region)
   - Qmax (box_y b) (box_y region))%Q.

(** A block of the given page whose box meets the region in positive
    area. *)
Definition overlapping (region : Box) (page : Z) (block : TextBlock) : Prop :=
  pageIndex block = page ∧
  (0 < overlap_width (position block) region)%Q ∧
  (0 < overlap_height (position block) region)%Q.

Definition candidate (region : Box) (page : Z) (block : TextBlock) : bool :=
  (pageIndex block =? page)%Z && overlaps region block.


(** The lookup key of [replaceTextInBlock]: same page and numerically equal
    origin. *)
Definition key_eq (blockToReplace block : TextBlock) : Prop :=
  pageIndex block = pageIndex blockToReplace ∧
  (box_x (position block) == box_x (position blockToReplace))%Q ∧
  (box_y (position block) == box_y (position blockToReplace))%Q.

(** Every array of [h] is still there in [h'] with the same elements. *)
Definition arrays_preserved (h h' : Heap) : Prop :=
  (∀ a bs, block_arrays h !! a = Some bs → block_arrays h' !! a = Some bs) ∧
  (∀ a ps, page_arrays h !! a = Some ps → page_arrays h' !! a = Some ps).

(** ** Sample data *)

Definition sample_block (page : Z) (x y w h : Q) (t : string) : TextBlock :=
  {| items := []; text := t;
     position := {| box_x := x; box_y := y; box_width := w; box_height := h |};
     pageIndex := page; isModified := false; originalText := None |}.

Definition sample_b1 : TextBlock := sample_block 0 10 10 100 12 "Hello world".
Definition sample_b2 : TextBlock := sample_block 0 10 30 100 12 "Senior Engineer".
Definition sample_b3 : TextBlock := sample_block 1 10 10 100 12 "Second page".

Definition sample_map : PdfTextMap :=
  {| blocks := [sample_b1; sample_b2; sample_b3];
     pages := [{| page_width := 612; page_height := 792 |};
               {| page_width := 612; page_height := 792 |}] |}.

Definition sample_region : Box :=
  {| box_x := 0; box_y := 0; box_width := 200; box_height := 50 |}.

Definition sample_heap : Heap :=
  {| block_arrays := {[ 0%nat := blocks sample_map ]};
     page_arrays := {[ 0%nat := pages sample_map ]};
     console := [] |}.

Definition sample_object : MapObject := {| blocks_at := 0; pages_at := 0 |}.

(** A block with the key of [sample_b2] and otherwise different fields. *)
Definition stale_b2 : TextBlock := sample_block 0 10 30 55 77 "Stale text".

(** A block whose key no block of the sample map has. *)
Definition absent_block : TextBlock := sample_block 0 11 30 100 12 "Senior Engineer".

(** The replacement as the specification states it: the new block keeps
    the position, page index and items of the block it replaces and records
    that block's text as [originalText]. *)
Definition replaced_from_stored (old : TextBlock) (newText : string) : TextBlock :=
  {| items := items old;
     text := newText;
     position := position old;
     pageIndex := pageIndex old;
     isModified := true;
     originalText := Some (text old) |}.

Definition replace_found_as_stated (h : Heap) (textMap : MapObject)
  (blockToReplace : TextBlock) (newText : string) : Prop :=
  ∀ m, read_map h textMap = Some m →
       (∃ b, In b (blocks m) ∧ key_eq blockToReplace b) →
       ∃ (h' : Heap) (updatedMap : MapObject) (i : nat) (old : TextBlock),
         replaceTextInBlock h textMap blockToReplace newText = Ok (h', updatedMap) ∧
         blocks m !! i = Some old ∧ key_eq blockToReplace old ∧
         read_map h' updatedMap =
           Some {| blocks := <[i := replaced_from_stored old newText]> (blocks m);
                   pages := pages m |} ∧
         read_map h' textMap = Some m.

(** A glyph run with the given page, origin, extent and text. *)
Definition sample_run (page : Z) (x y w h : Q) (t : string) : TextItem :=
  {| item_text := t;
     item_position := {| ip_x := x; ip_y := y; ip_width := w; ip_height := h;
                         ip_fontSize := Some 10%Q; ip_fontName := None |};
     item_pageIndex := page |}.

(** The font size [extractTextWithPositions] works with for an item: the
    extractor's height when it gives a non-zero one, else the vertical
    scale of the transform times the item's font size (10 by default). *)
Definition item_fontSize (item : RawItem) : Q :=
  js_or (raw_height item) (tr_d (transform item) * js_or (raw_fontSize item) 10)%Q.

(** The stored height as the specification states it: the extractor's
    height whenever the extractor supplies one. *)
Definition height_as_stated : Prop :=
  ∀ (pageIndex : Z) (item : RawItem) (h : Q),
    raw_height item = Some h →
    (ip_height (item_position (toTextItem pageIndex item)) == h)%Q.

Definition sample_transform : Transform :=
  {| tr_a := 1; tr_b := 0; tr_c := 0; tr_d := 1; tr_e := 72; tr_f := 700 |}.

(** An item for which the extractor supplies width and height. *)
Definition sample_item : RawItem :=
  {| str := "Senior"; transform := sample_transform;
     raw_width := Some 33%Q; raw_height := Some 10%Q;
     raw_fontSize := None; raw_fontName := Some "g_d0_f1" |}.

(** An item for which it supplies neither. *)
Definition bare_item : RawItem :=
  {| str := "Senior"; transform := sample_transform;
     raw_width := None; raw_height := None;
     raw_fontSize := None; raw_fontName := None |}.

(** ** Vocabulary of the renderer statements *)

(** A loaded page on which nothing has been drawn yet. *)
Definition blank_page (size : PageSize) : PDFPage :=
  {| getSize := size; drawn := [] |}.

(** What [drawTextWithWrapping] draws, read off a blank page: everything it
    draws until it returns or throws. *)
Definition text_ops (widthOfTextAtSize : string → Q → result Q)
  (encodeText : string → result unit) (text : string)
  (x y maxWidth fontSize : Q) : list DrawOp :=
  drawn (fst (drawTextWithWrapping widthOfTextAtSize encodeText
                (blank_page {| page_width := 0; page_height := 0 |})
                text x y maxWidth fontSize)).

(** Whether [drawTextWithWrapping] returns or throws. *)
Definition text_status (widthOfTextAtSize : string → Q → result Q)
  (encodeText : string → result unit) (text : string)
  (x y maxWidth fontSize : Q) : result unit :=
  snd (drawTextWithWrapping widthOfTextAtSize encodeText
         (blank_page {| page_width := 0; page_height := 0 |})
         text x y maxWidth fontSize).

(** The white rectangle over the box of a block, on a page of the given
    height, followed by the redraw of its text. *)
Definition block_ops (widthOfTextAtSize : string → Q → result Q)
  (encodeText : string → result unit) (height : Q)
  (block : TextBlock) : list DrawOp :=
  DrawRectangle (box_x (position block))
                (height - box_y (position block) - box_height (position block))%Q
                (box_width (position block))
                (box_height (position block))
                (1%Q, 1%Q, 1%Q) 1.0%Q
  :: text_ops widthOfTextAtSize encodeText (text block)
       (box_x (position block))
       (height - box_y (position block) - box_height (position block))%Q
       (box_width (position block)) 10.

(** Whether the redraw of a block on a page of the given height returns or
    throws. *)
Definition block_status (widthOfTextAtSize : string → Q → result Q)
  (encodeText : string → result unit) (height : Q)
  (block : TextBlock) : result unit :=
  text_status widthOfTextAtSize encodeText (text block)
    (box_x (position block))
    (height - box_y (position block) - box_height (position block))%Q
    (box_width (position block)) 10.

(** The modified blocks of page [i], in the order of the map. *)
Definition modified_on_page (textMap : PdfTextMap) (i : nat) : list TextBlock :=
  List.filter (λ block, (pageIndex block =? Z.of_nat i)%Z && isModified block)
              (blocks textMap).

Definition is_text_op (op : DrawOp) : Prop :=
  match op with DrawText _ _ _ _ => True | DrawRectangle _ _ _ _ _ _ => False end.

(** Two states of the wrapping loop at the same cursor, the first on a page
    that already carries [pre]. *)
Definition extends (pre : list DrawOp) (st1 st2 : WrapState) : Prop :=
  yOffset st1 = yOffset st2 ∧ line st1 = line st2 ∧ thrown st1 = thrown st2 ∧
  drawn (ws_page st1) = pre ++ drawn (ws_page st2).

(** Drawing ordinates are measured upwards from the lower edge of the page:
    [apply_block] puts the lower edge of a box that lies [box_y] below the
    top of the page at [height - box_y - box_height]. The distance of a
    drawing ordinate from the top of the page is then: *)
Definition distance_from_top (pageHeight y : Q) : Q := (pageHeight - y)%Q.

(** The string contains the character. *)
Fixpoint mentions (c : ascii) (s : string) : bool :=
  match s with
  | EmptyString => false
  | String d t => Ascii.eqb d c || mentions c t
  end.

(** A font in which every character is half the font size wide and which
    encodes every character. *)
Definition sample_width (s : string) (size : Q) : result Q :=
  Ok (inject_Z (Z.of_nat (String.length s)) * size * 0.5)%Q.

Definition sample_encode (s : string) : result unit := Ok tt.

(** A font of the same widths that, like Helvetica in its WinAnsi encoding,
    has no glyph for a tabulator. *)
Definition strict_width (s : string) (size : Q) : result Q :=
  if mentions "009" s then Throw "WinAnsi cannot encode" else sample_width s size.

Definition strict_encode (s : string) : result unit :=
  if mentions "009" s then Throw "WinAnsi cannot encode" else Ok tt.

(** A loader that takes ownership of the buffer it is handed and detaches
    it, on a document of one Letter page. *)
Definition detaching_load (b : ArrayBuffer) : ArrayBuffer * result (list PageSize) :=
  (Detached, Ok [{| page_width := 612; page_height := 792 |}]).

(** A loader that leaves the buffer alone, on a document of two pages. *)
Definition plain_load (b : ArrayBuffer) : ArrayBuffer * result (list PageSize) :=
  (b, Ok [{| page_width := 612; page_height := 792 |};
          {| page_width := 612; page_height := 792 |}]).

Definition sample_buffers : gmap nat ArrayBuffer :=
  {[ 0%nat := Bytes [Byte.x25; Byte.x50; Byte.x44; Byte.x46] ]}.

(** A modified block 12 wide and 12 high whose top edge is 680 below the
    top of the page. *)
Definition wrapped_block : TextBlock :=
  {| items := []; text := "aa bb";
     position := {| box_x := 10; box_y := 680; box_width := 12; box_height := 12 |};
     pageIndex := 0; isModified := true; originalText := Some "aa" |}.

Definition edited_map : PdfTextMap :=
  {| blocks := [sample_b1; wrapped_block; sample_b3];
     pages := pages sample_map |}.

(** The same map with a tabulator in the new text. *)
Definition tabbed_block : TextBlock :=
  {| items := []; text := String "a" (String "009" "b");
     position := {| box_x := 10; box_y := 680; box_width := 12; box_height := 12 |};
     pageIndex := 0; isModified := true; originalText := Some "aa" |}.

Definition tabbed_map : PdfTextMap :=
  {| blocks := [sample_b1; tabbed_block; sample_b3];
     pages := pages sample_map |}.

(** One page after its turn of the page loop, and whether the turn ended
    or threw. *)
Definition rendered (widthOfTextAtSize : string → Q → result Q)
  (encodeText : string → result unit) (textMap : PdfTextMap)
  (i : nat) (page : PDFPage) : PDFPage * result unit :=
  apply_blocks widthOfTextAtSize encodeText (page_height (getSize page))
               (modified_on_page textMap i) page.

(** The ordinate at which an operation draws. *)
Definition ordinate (op : DrawOp) : Q :=
  match op with
  | DrawRectangle _ y _ _ _ _ => y
  | DrawText _ _ y _ => y
  end.

(** The state of the wrapping loop on a page whose operations have strictly
    growing ordinates, all of them below the cursor [y + yOffset]. *)
Definition rising_below_cursor (y : Q) (st : WrapState) : Prop :=
  StronglySorted Qlt (List.map ordinate (drawn (ws_page st))) ∧
  Forall (λ v, (v < y + yOffset st)%Q) (List.map ordinate (drawn (ws_page st))).

(** The cursor has not gone below the ordinate [y] the redraw starts at,
    and nothing is drawn below it. *)
Definition from_origin (y : Q) (st : WrapState) : Prop :=
  (0 <= yOffset st)%Q ∧
  Forall (λ v, (y <= v)%Q) (List.map ordinate (drawn (ws_page st))).

(** A line as word wrapping may draw it in a box [maxWidth] wide: at the
    left edge [x], in the given size, not empty, and either measured by the
    font as fitting the box or made of one word. *)
Definition wrapped_line (w : string → Q → result Q) (x maxWidth fontSize : Q)
  (op : DrawOp) : Prop :=
  match op with
  | DrawText l x' _ size =>
      l ≠ "" ∧ x' = x ∧ size = fontSize ∧
      ((∃ v, w l fontSize = Ok v ∧ (v <= maxWidth)%Q) ∨ mentions " " l = false)
  | DrawRectangle _ _ _ _ _ _ => False
  end.

(** The lines of the text operations, in drawing order. *)
Definition drawn_lines (ops : list DrawOp) : list string :=
  flat_map (λ op, match op with
                  | DrawText l _ _ _ => [l]
                  | DrawRectangle _ _ _ _ _ _ => []
                  end) ops.

(** The non-empty words of a string, split at spaces. *)
Definition nonempty_words (s : string) : list string :=
  List.filter truthy (split_on " " s).

Definition words_drawn (ops : list DrawOp) : list string :=
  flat_map nonempty_words (drawn_lines ops).

(** The words [drawTextWithWrapping] has to draw: those of the paragraphs
    that are not blank. *)
Definition words_of_text (text : string) : list string :=
  flat_map (λ p, if truthy (trim p) then nonempty_words p else [])
           (split_on "010" text).

(** The state of the wrapping loop when every line drawn so far is a
    wrapped line and the open line fits or is one word. *)
Definition line_ok (w : string → Q → result Q) (x maxWidth fontSize : Q)
  (st : WrapState) : Prop :=
  Forall (wrapped_line w x maxWidth fontSize) (drawn (ws_page st)) ∧
  (line st = "" ∨ (∃ v, w (line st) fontSize = Ok v ∧ (v <= maxWidth)%Q)
   ∨ mentions " " (line st) = false).

(** The words drawn and the words of the open line are the words taken so
    far. *)
Definition words_kept (base ws : list string) (st : WrapState) : Prop :=
  words_drawn (drawn (ws_page st)) ++ nonempty_words (line st)
  = base ++ List.filter truthy ws.

(** [s] is written with characters of [text] and spaces, and without a
    line feed. *)
Definition written_with (text s : string) : Prop :=
  ∀ c, mentions c s = true →
       c ≠ "010"%char ∧ (mentions c text = true ∨ c = " "%char).

(** The font measures, in the given size, and encodes every string written
    with the characters of the text. *)
Definition font_accepts (w : string → Q → result Q) (enc : string → result unit)
  (fontSize : Q) (text : string) : Prop :=
  ∀ s, written_with text s → (∃ v, w s fontSize = Ok v) ∧ enc s = Ok tt.

(** ** Vocabulary of the further properties *)

(** The box of an item lies inside a box. *)
Definition item_inside (box : Box) (it : TextItem) : Prop :=
  (box_x box <= ip_x (item_position it))%Q ∧
  (box_y box <= ip_y (item_position it))%Q ∧
  (ip_x (item_position it) + ip_width (item_position it)
   <= box_x box + box_width box)%Q ∧
  (ip_y (item_position it) + ip_height (item_position it)
   <= box_y box + box_height box)%Q.

(** Each side of the box is the side of the box of one of the items. *)
Definition box_touches (box : Box) (l : list TextItem) : Prop :=
  Exists (λ it, (box_x box == ip_x (item_position it))%Q) l ∧
  Exists (λ it, (box_y box == ip_y (item_position it))%Q) l ∧
  Exists (λ it, (box_x box + box_width box
                 == ip_x (item_position it) + ip_width (item_position it))%Q) l ∧
  Exists (λ it, (box_y box + box_height box
                 == ip_y (item_position it) + ip_height (item_position it))%Q) l.

(** A block as the builder closes it: made of at least one item, all of its
    own page, and equal to what [createBlockFromItems] makes of them. *)
Definition closed_block (b : TextBlock) : Prop :=
  items b ≠ [] ∧
  createBlockFromItems (items b) = Ok b ∧
  Forall (λ it, item_pageIndex it = pageIndex b) (items b).

(** The items the grouping loop has taken so far, in order. *)
Definition taken (st : GroupState) : list TextItem :=
  flat_map items (gs_blocks st) ++ currentBlock st.

(** What the grouping loop keeps true. *)
Definition group_invariant (st : GroupState) : Prop :=
  Forall closed_block (gs_blocks st) ∧
  Forall (λ it, item_pageIndex it = currentPageIndex st) (currentBlock st).

(** A region without width. *)
Definition flat_region : Box :=
  {| box_x := 10; box_y := 0; box_width := 0; box_height := 50 |}.

(** The value of the map [replaceTextInBlock] returns, for a map of value
    [m]. *)
Definition replace_value (m : PdfTextMap) (blockToReplace : TextBlock)
  (newText : string) : PdfTextMap :=
  let blockIndex := findIndex (same_key blockToReplace) (blocks m) in
  if (blockIndex =? -1)%Z then m
  else {| blocks := <[Z.to_nat blockIndex := updatedBlock blockToReplace newText]>
                      (blocks m);
          pages := pages m |}.

(** Two blocks at one origin on one page, and the map and heap that hold
    them. *)
Definition twin_first : TextBlock := sample_block 0 10 30 100 12 "Summary".
Definition twin_second : TextBlock := sample_block 0 10 30 100 12 "Senior Engineer".

Definition twin_map : PdfTextMap :=
  {| blocks := [twin_first; twin_second]; pages := pages sample_map |}.

Definition twin_heap : Heap :=
  {| block_arrays := {[ 0%nat := blocks twin_map ]};
     page_arrays := {[ 0%nat := pages twin_map ]};
     console := [] |}.

(** The blocks that can be drawn on a document of [n] pages: the modified
    blocks whose page index is a page of the document. *)
Definition drawable (n : nat) (block : TextBlock) : bool :=
  isModified block && (0 <=? pageIndex block)%Z && (pageIndex block <? Z.of_nat n)%Z.

(** A document of one page with two runs on one line. *)
Definition sample_document : list RawPage :=
  [ {| viewport := {| page_width := 612; page_height := 792 |};
       textContent := [sample_item; bare_item] |};
    {| viewport := {| page_width := 612; page_height := 792 |};
       textContent := [] |} ].

(** The runs of a document, page after page, each with the index of its
    page. *)
Definition page_runs (pdfDoc : list RawPage) : list TextItem :=
  concat (imap (λ i page, List.map (toTextItem (Z.of_nat i)) (textContent page))
               pdfDoc).

(** The three triggers of the grouping loop between a run and the run the
    loop took just before it: another page, another line, or a gap. *)
Definition breaks_after (prev item : TextItem) : bool :=
  negb (item_pageIndex item =? item_pageIndex prev)%Z
  || Qlt_bool (ip_height (item_position item) * 0.5)
              (Qabs (ip_y (item_position item) - ip_y (item_position prev)))
  || Qlt_bool (ip_x (item_position prev) + ip_width (item_position prev)
               + ip_width (item_position item) * 0.5)
              (ip_x (item_position item)).

(** No trigger fires between two consecutive runs of the list. *)
Fixpoint run_joined (l : list TextItem) : Prop :=
  match l with
  | a :: t => match t with
              | b :: _ => breaks_after a b = false ∧ run_joined t
              | [] => True
              end
  | [] => True
  end.

(** A trigger fires between the last run of [l1] and the first of [l2]. *)
Definition seam (l1 l2 : list TextItem) : Prop :=
  ∀ a b, last l1 = Some a → head l2 = Some b → breaks_after a b = true.

(** A trigger fires between every two consecutive lists. *)
Fixpoint runs_separated (ls : list (list TextItem)) : Prop :=
  match ls with
  | l1 :: t => match t with
               | l2 :: _ => seam l1 l2 ∧ runs_separated t
               | [] => True
               end
  | [] => True
  end.

(** The lists of runs of the loop so far: the closed blocks and the open
    one. *)
Definition chain (st : GroupState) : list (list TextItem) :=
  List.map items (gs_blocks st)
  ++ match currentBlock st with [] => [] | _ :: _ => [currentBlock st] end.

(** What the grouping loop keeps true of the runs it has cut. *)
Definition cut_invariant (st : GroupState) : Prop :=
  Forall run_joined (List.map items (gs_blocks st)) ∧
  run_joined (currentBlock st) ∧
  (∀ a, last (currentBlock st) = Some a →
        currentPageIndex st = item_pageIndex a ∧
        lastY st = ip_y (item_position a) ∧
        lastRight st = (ip_x (item_position a) + ip_width (item_position a))%Q) ∧
  (currentBlock st = [] → gs_blocks st = []) ∧
  runs_separated (chain st).

(** The runs are all of one page and pairwise within the tolerance band of
    the comparator: one line of text. *)
Definition one_line (l : list TextItem) : Prop :=
  ∀ a b, In a l → In b l →
    item_pageIndex a = item_pageIndex b ∧
    (Qabs (ip_y (item_position a) - ip_y (item_position b))
     <= Qmax (ip_height (item_position a)) (ip_height (item_position b)) * 0.5)%Q.

(** [a] does not start to the right of [b]. *)
Definition starts_before (a b : TextItem) : Prop :=
  (ip_x (item_position a) <= ip_x (item_position b))%Q.

(** Three runs of one page, each 4 above the one before: neighbours are
    within the tolerance band of the comparator, the first and the last
    are not. *)
Definition stair_one : TextItem := sample_run 0 100 500 40 12 "one".
Definition stair_two : TextItem := sample_run 0 200 504 40 12 "two".
Definition stair_three : TextItem := sample_run 0 300 508 40 12 "three".

(** Three runs of one line, handed over right to left. *)
Definition line_runs : list TextItem :=
  [sample_run 0 300 500 40 12 "Engineer";
   sample_run 0 180 498 40 12 "Software";
   sample_run 0 72 500 40 12 "Senior"].

(** ** Ordering of the suggestions in the components *)

(** [Array.prototype.sort] on any array, as [sort_by] on runs: stable
    insertion. *)
Fixpoint insert_by {A : Type} (cmp : A → A → Q) (a : A) (l : list A) : list A :=
  match l with
  | [] => [a]
  | b :: t => if Qle_bool (cmp a b) 0 then a :: b :: t
              else b :: insert_by cmp a t
  end.

Fixpoint js_sort {A : Type} (cmp : A → A → Q) (l : list A) : list A :=
  match l with
  | [] => []
  | a :: t => insert_by cmp a (js_sort cmp t)
  end.

(** A suggestion of the analysis result. *)
Record Suggestion := {
  sg_section : string;
  sg_content : string;
  sg_priority : option Q
}.

(** The comparator of [sortedSuggestions] in the analysis results view. *)
Definition byPriority (a b : Suggestion) : Q :=
  let priorityA := js_or (sg_priority a) 3 in
  let priorityB := js_or (sg_priority b) 3 in
  (priorityB - priorityA)%Q.

Definition sortedSuggestions (suggestions : list Suggestion) : list Suggestion :=
  js_sort byPriority suggestions.

(** The priority a suggestion is sorted by: its own, or 3 when it has none
    (or 0). *)
Definition effective_priority (p : option Q) : Q := js_or p 3.

(** [a] is to be shown no later than [b] in the analysis results view. *)
Definition shown_before (a b : Suggestion) : Prop :=
  (effective_priority (sg_priority b) <= effective_priority (sg_priority a))%Q.
(** * Properties *)

(** ** Numbers and strings *)

Lemma Qlt_bool_iff (a b : Q) : Qlt_bool a b = true ↔ (a < b)%Q.
Proof.
  unfold Qlt_bool. rewrite negb_true_iff.
  destruct (Qle_bool b a) eqn:E.
  - apply Qle_bool_iff in E. split; [discriminate | intros H; exfalso; lra].
  - split; [intros _ | reflexivity].
    destruct (Qlt_le_dec a b) as [Hlt | Hle]; [exact Hlt |].
    apply Qle_bool_iff in Hle. congruence.
Qed.

Lemma Qlt_bool_false_iff (a b : Q) : Qlt_bool a b = false ↔ (b <= a)%Q.
Proof.
  unfold Qlt_bool. rewrite negb_false_iff. apply Qle_bool_iff.
Qed.

Lemma append_cons (c : ascii) (s t : string) :
  String c s +:+ t = String c (s +:+ t).
Proof. reflexivity. Qed.

Lemma append_empty_r (s : string) : s +:+ "" = s.
Proof.
  induction s as [| c s IH]; [reflexivity |]. now rewrite append_cons, IH.
Qed.

Lemma append_assoc (a b c : string) : (a +:+ b) +:+ c = a +:+ (b +:+ c).
Proof.
  induction a as [| d a IH]; [reflexivity |]. now rewrite !append_cons, IH.
Qed.

Lemma prefix_append (sub s : string) :
  String.prefix sub s = true ↔ ∃ post, s = sub +:+ post.
Proof.
  revert s. induction sub as [| c sub IH]; intros s.
  - split; [intros _; exists s; reflexivity | destruct s; reflexivity].
  - destruct s as [| d s]; simpl.
    + split; [discriminate | intros [post H]; discriminate].
    + destruct (Ascii.ascii_dec c d) as [-> | Hne].
      * rewrite IH. split; intros [post H]; exists post.
        -- now rewrite H.
        -- now inversion H.
      * split; [discriminate |].
        intros [post H]. inversion H. congruence.
Qed.

Lemma includes_substring (s sub : string) :
  includes s sub = true ↔ is_substring sub s.
Proof.
  induction s as [| c s IH]; cbn [includes].
  - rewrite orb_false_r, prefix_append. split.
    + intros [post H]. exists "", post. exact H.
    + intros [pre [post H]]. destruct pre; simpl in H; [| discriminate].
      exists post. exact H.
  - rewrite orb_true_iff, prefix_append, IH. split.
    + intros [[post H] | [pre [post H]]].
      * exists "", post. exact H.
      * exists (String c pre), post. simpl. now rewrite H.
    + intros [pre [post H]]. destruct pre as [| d pre]; simpl in H.
      * left. exists post. exact H.
      * right. inversion H. exists pre, post. reflexivity.
Qed.

(** ** Similarity matcher *)

Lemma length_zero_empty (s : string) : (String.length s =? 0)%nat = true ↔ s = "".
Proof.
  destruct s; simpl; split; intros H; try reflexivity; discriminate.
Qed.

(** The computation of the source is the Jaccard similarity of the word
    sets. *)
Lemma calculateSimilarity_jaccard (s1 s2 : string) :
  calculateSimilarity s1 s2 = jaccard_similarity s1 s2.
Proof.
  unfold calculateSimilarity, jaccard_similarity, word_set.
  destruct (String.eqb_spec s1 s2) as [-> | Hne].
  - rewrite decide_True; reflexivity.
  - rewrite decide_False by exact Hne.
    destruct ((String.length s1 =? 0)%nat || (String.length s2 =? 0)%nat) eqn:E.
    + apply orb_true_iff in E. rewrite !length_zero_empty in E.
      rewrite decide_True; [reflexivity | exact E].
    + apply orb_false_iff in E. destruct E as [E1 E2].
      rewrite decide_False.
      2:{ intros [H | H]; apply length_zero_empty in H; congruence. }
      cbv zeta.
      rewrite list_to_set_app_L, !list_to_set_elements_L.
      replace (filter (λ x, x ∈ (list_to_set (split_ws s2) : gset string))
                      (list_to_set (split_ws s1) : gset string))
        with ((list_to_set (split_ws s1) : gset string) ∩ list_to_set (split_ws s2)).
      * reflexivity.
      * apply set_eq. intros w. rewrite elem_of_filter, elem_of_intersection.
        tauto.
Qed.

Lemma jaccard_similarity_sym (s1 s2 : string) :
  jaccard_similarity s1 s2 = jaccard_similarity s2 s1.
Proof.
  unfold jaccard_similarity.
  destruct (decide (s1 = s2)) as [-> | Hne].
  - rewrite decide_True; reflexivity.
  - rewrite (decide_False (P := s2 = s1)) by congruence.
    destruct (decide (s1 = "" ∨ s2 = "")) as [H | H].
    + rewrite decide_True; [reflexivity | tauto].
    + rewrite decide_False by tauto.
      rewrite (comm_L (∩) (word_set s1)), (comm_L (∪) (word_set s1)).
      reflexivity.
Qed.

Lemma calculateSimilarity_same (s : string) : calculateSimilarity s s = 1%Q.
Proof. unfold calculateSimilarity. now rewrite String.eqb_refl. Qed.

Lemma calculateSimilarity_empty (s1 s2 : string) :
  s1 ≠ s2 → s1 = "" ∨ s2 = "" → calculateSimilarity s1 s2 = 0%Q.
Proof.
  intros Hne He. rewrite calculateSimilarity_jaccard. unfold jaccard_similarity.
  rewrite decide_False by exact Hne. now rewrite decide_True.
Qed.

(** *** Normalisation *)

Lemma words_from_nonempty (t cur : string) : cur ≠ "" → words_from cur t ≠ [].
Proof.
  revert cur. induction t as [| c t IH]; intros cur Hcur; simpl.
  - destruct cur; [contradiction | discriminate].
  - destruct (is_space c).
    + destruct cur; [contradiction | discriminate].
    + apply IH. destruct cur; discriminate.
Qed.

Lemma trimEnd_blank (t : string) : trimEnd t = "" ↔ words_from "" t = [].
Proof.
  induction t as [| c t IH]; simpl; [tauto |].
  destruct (is_space c) eqn:Ec; simpl.
  - destruct (String.eqb_spec (trimEnd t) "") as [E | E].
    + split; [intros _; now apply IH | reflexivity].
    + split; [discriminate |]. intros H. apply IH in H. contradiction.
  - split; [discriminate |]. intros H. exfalso.
    revert H. apply words_from_nonempty. discriminate.
Qed.

Lemma join_cons (sep s : string) (l : list string) :
  l ≠ [] → join sep (s :: l) = s +:+ sep +:+ join sep l.
Proof. destruct l; [contradiction | reflexivity]. Qed.

(** Collapsing the end-trimmed rest of a string gives its words joined by
    single spaces: after white space, and in the middle of a word. *)
Lemma collapse_trimEnd_words (t : string) :
  collapse_from true (trimEnd t) = join " " (words_from "" t) ∧
  ∀ cur, cur ≠ "" →
         cur +:+ collapse_from false (trimEnd t) = join " " (words_from cur t).
Proof.
  induction t as [| c t [IH1 IH2]].
  - split; [reflexivity |]. intros cur Hcur. simpl.
    destruct cur; [contradiction |]. simpl. now rewrite append_empty_r.
  - cbn [trimEnd words_from]. cbv zeta. destruct (is_space c) eqn:Ec.
    + cbn [andb truthy String.eqb negb].
      destruct (String.eqb_spec (trimEnd t) "") as [E | E].
      * pose proof (proj1 (trimEnd_blank t) E) as Ew. split.
        -- rewrite <- IH1, E. reflexivity.
        -- intros cur Hcur. destruct cur as [| d cur]; [contradiction |].
           cbn [truthy String.eqb negb]. rewrite Ew. simpl.
           now rewrite append_empty_r.
      * assert (Ew : words_from "" t ≠ []).
        { intros H. apply trimEnd_blank in H. contradiction. }
        split.
        -- cbn [collapse_from]. rewrite Ec. exact IH1.
        -- intros cur Hcur. destruct cur as [| d cur]; [contradiction |].
           cbn [truthy String.eqb negb]. rewrite (join_cons _ _ _ Ew).
           cbn [collapse_from]. rewrite Ec, IH1. reflexivity.
    + cbn [andb collapse_from]. rewrite Ec. split.
      * change ("" +:+ String c "") with (String c "").
        rewrite <- (IH2 (String c "")) by discriminate. reflexivity.
      * intros cur Hcur. rewrite <- (IH2 (cur +:+ String c "")).
        -- rewrite append_assoc. reflexivity.
        -- destruct cur; discriminate.
Qed.

Lemma words_from_trimStart (s : string) :
  words_from "" (trimStart s) = words_from "" s.
Proof.
  induction s as [| c s IH]; [reflexivity |]. simpl.
  destruct (is_space c) eqn:Ec; [exact IH |]. simpl. now rewrite Ec.
Qed.

Lemma collapse_trimStart (s : string) :
  collapse_from false (trimEnd (trimStart s))
  = collapse_from true (trimEnd (trimStart s)).
Proof.
  induction s as [| c s IH]; [reflexivity |]. simpl.
  destruct (is_space c) eqn:Ec; [exact IH |].
  cbn [trimEnd]. cbv zeta. rewrite Ec. cbn [andb collapse_from]. now rewrite Ec.
Qed.

(** The operand the matcher works on is the normal form of the
    specification. *)
Lemma normalize_normal_form (s : string) : normalize s = normal_form s.
Proof.
  unfold normalize, normal_form, text_words, collapse_ws, trim.
  rewrite collapse_trimStart, (proj1 (collapse_trimEnd_words _)),
    words_from_trimStart.
  reflexivity.
Qed.

Lemma fuzzyTextMatch_spec (a b : string) :
  fuzzyTextMatch a b = true ↔ fuzzyMatch_spec a b.
Proof.
  unfold fuzzyTextMatch, fuzzyMatch_spec. cbv zeta.
  rewrite !orb_true_iff, !includes_substring, Qlt_bool_iff,
    calculateSimilarity_jaccard.
  tauto.
Qed.

(** C7. The operand [fuzzyTextMatch] works on is the normal form of the
    text: trimmed, every run of white space collapsed to one space, in
    lower case. [fuzzyTextMatch a b] holds exactly when one normal form
    contains the other as a substring or the Jaccard similarity of their
    word sets exceeds 0.70; the similarity is 1 on identical strings and 0
    when one of two different strings is empty; on "a b c" and "b c d" it is
    2/4 and the match fails. *)
Theorem C7_fuzzyTextMatch_characterisation :
  (∀ s : string, normalize s = normal_form s) ∧
  normalize ("  Senior  Software " +:+ String "009" " ENGINEER" +:+ String "010" " ")
  = "senior software engineer" ∧
  normalize "   " = "" ∧
  (∀ a b : string,
     fuzzyTextMatch a b = true ↔
     is_substring (normal_form b) (normal_form a) ∨
     is_substring (normal_form a) (normal_form b) ∨
     (0.7 < jaccard_similarity (normal_form a) (normal_form b))%Q) ∧
  (∀ s1 s2 : string, calculateSimilarity s1 s2 = jaccard_similarity s1 s2) ∧
  (∀ s : string, calculateSimilarity s s = 1%Q) ∧
  (∀ s1 s2 : string,
     s1 ≠ s2 → s1 = "" ∨ s2 = "" → calculateSimilarity s1 s2 = 0%Q) ∧
  (calculateSimilarity (normalize "a b c") (normalize "b c d") == 2 # 4)%Q ∧
  (calculateSimilarity (normalize "a b c") (normalize "b c d") == 0.5)%Q ∧
  fuzzyTextMatch "a b c" "b c d" = false ∧
  fuzzyTextMatch "Senior  Software   Engineer" "senior software engineer" = true ∧
  fuzzyTextMatch " Team  Lead" "led the TEAM LEAD role" = true ∧
  fuzzyTextMatch "Python" "Java" = false.
Proof.
  split; [exact normalize_normal_form |].
  split; [vm_compute; reflexivity |]. split; [vm_compute; reflexivity |].
  split; [| split; [| split; [| split; [| split; [| split]]]]].
  - intros a b. rewrite fuzzyTextMatch_spec, <- !normalize_normal_form.
    reflexivity.
  - exact calculateSimilarity_jaccard.
  - exact calculateSimilarity_same.
  - exact calculateSimilarity_empty.
  - vm_compute. reflexivity.
  - vm_compute. reflexivity.
  - repeat split; vm_compute; reflexivity.
Qed.

(** C10. [fuzzyTextMatch] is symmetric in its two arguments. *)
Theorem C10_fuzzyTextMatch_symmetric (a b : string) :
  fuzzyTextMatch a b = fuzzyTextMatch b a.
Proof.
  unfold fuzzyTextMatch. cbv zeta.
  rewrite (calculateSimilarity_jaccard (normalize a)),
    (calculateSimilarity_jaccard (normalize b)),
    (jaccard_similarity_sym (normalize a)).
  rewrite (orb_comm (includes (normalize a) (normalize b))).
  reflexivity.
Qed.

Example fuzzyTextMatch_spacing_case :
  fuzzyTextMatch "Senior  Software   Engineer" "senior software engineer" = true.
Proof. vm_compute. reflexivity. Qed.

Example fuzzyTextMatch_python_java : fuzzyTextMatch "Python" "Java" = false.
Proof. vm_compute. reflexivity. Qed.

Lemma C7_fuzzyTextMatch_characterisation_witness :
  "" ≠ "x" ∧ ("" = "" ∨ "x" = "") ∧ calculateSimilarity "" "x" = 0%Q.
Proof.
  split; [discriminate |]. split; [left; reflexivity |].
  apply (proj1 (proj2 (proj2 (proj2 (proj2 (proj2 (proj2
           C7_fuzzyTextMatch_characterisation))))))).
  - discriminate.
  - left. reflexivity.
Defined.

(** ** Lists: first element with a property *)

Lemma find_first_such {A : Type} (p : A → bool) (l : list A) (b : A) :
  List.find p l = Some b ↔ first_such (λ a, p a = true) l b.
Proof.
  induction l as [| a l IH]; simpl.
  - split; [discriminate |].
    intros (l1 & l2 & H & _). destruct l1; discriminate.
  - destruct (p a) eqn:E.
    + split.
      * intros [= <-]. exists [], l. repeat split; [exact E | intros a' []].
      * intros (l1 & l2 & H & Hb & Hl1). destruct l1 as [| a' l1].
        -- simpl in H. congruence.
        -- simpl in H. injection H as <- _. exfalso.
           apply (Hl1 a); [left; reflexivity | exact E].
    + rewrite IH. split.
      * intros (l1 & l2 & -> & Hb & Hl1). exists (a :: l1), l2.
        repeat split; [exact Hb |].
        intros a' [<- | Hin]; [congruence | now apply Hl1].
      * intros (l1 & l2 & H & Hb & Hl1). destruct l1 as [| a' l1].
        -- simpl in H. injection H as -> _. congruence.
        -- simpl in H. injection H as <- ->. exists l1, l2.
           repeat split; [exact Hb |]. intros a' Hin. apply Hl1. now right.
Qed.

Lemma find_none_iff {A : Type} (p : A → bool) (l : list A) :
  List.find p l = None ↔ ∀ a, In a l → p a = false.
Proof.
  induction l as [| a l IH]; simpl.
  - split; [intros _ a [] | reflexivity].
  - destruct (p a) eqn:E.
    + split; [discriminate |]. intros H. specialize (H a (or_introl eq_refl)).
      congruence.
    + rewrite IH. split.
      * intros H a' [<- | Hin]; [exact E | now apply H].
      * intros H a' Hin. apply H. now right.
Qed.

Lemma filter_filter_andb {A : Type} (p q : A → bool) (l : list A) :
  List.filter q (List.filter p l) = List.filter (λ a, p a && q a) l.
Proof.
  induction l as [| a l IH]; simpl; [reflexivity |].
  destruct (p a); simpl; [destruct (q a) |]; now rewrite IH.
Qed.

Lemma find_filter {A : Type} (p q : A → bool) (l : list A) :
  List.find q (List.filter p l) = List.find (λ a, p a && q a) l.
Proof.
  induction l as [| a l IH]; simpl; [reflexivity |].
  destruct (p a); simpl; [destruct (q a) |]; now rewrite ?IH.
Qed.

Lemma head_filter_find {A : Type} (p : A → bool) (l : list A) :
  head (List.filter p l) = List.find p l.
Proof.
  induction l as [| a l IH]; simpl; [reflexivity |].
  destruct (p a); simpl; [reflexivity | exact IH].
Qed.

(** ** Block locator *)

Lemma Qmax_zero_pos (d : Q) : Qlt_bool 0 (Qmax 0 d) = true ↔ (0 < d)%Q.
Proof.
  rewrite Qlt_bool_iff.
  destruct (Q.max_spec 0 d) as [[H1 H2] | [H1 H2]]; rewrite H2; split; intros; lra.
Qed.

Lemma candidate_overlapping (region : Box) (page : Z) (block : TextBlock) :
  candidate region page block = true ↔ overlapping region page block.
Proof.
  unfold candidate, overlaps, overlapping, overlapX, overlapY.
  rewrite !andb_true_iff, Z.eqb_eq, !Qmax_zero_pos. reflexivity.
Qed.

Lemma findTextBlockToReplace_unfold (textMap : PdfTextMap) (originalText : string)
  (region : Box) (page : Z) :
  findTextBlockToReplace textMap originalText region page =
  match List.find (candidate region page) (blocks textMap) with
  | None => None
  | Some first =>
      match List.find (λ b, candidate region page b
                            && fuzzyTextMatch (text b) originalText)
                      (blocks textMap) with
      | Some b => Some b
      | None => Some first
      end
  end.
Proof.
  unfold findTextBlockToReplace. cbv zeta.
  rewrite filter_filter_andb, find_filter, head_filter_find.
  fold (candidate region page).
  change (λ block, (pageIndex block =? page)%Z && overlaps region block)
    with (candidate region page).
  rewrite <- (head_filter_find (candidate region page)).
  destruct (List.filter (candidate region page) (blocks textMap)) as [| f fs] eqn:E;
    simpl; [reflexivity |].
  destruct (List.find _ (blocks textMap)); reflexivity.
Qed.

(** C3. The locator returns null exactly when no block of the page meets
    the region in positive area; otherwise it returns the first block, in
    the order of the map, that meets the region and fuzzy-matches the
    original text, and when no such block fuzzy-matches, the first block
    that meets the region. *)
Theorem C3_findTextBlockToReplace_result (textMap : PdfTextMap)
  (originalText : string) (region : Box) (page : Z) :
  (findTextBlockToReplace textMap originalText region page = None ↔
   ∀ b, In b (blocks textMap) → ¬ overlapping region page b) ∧
  (∀ b,
     first_such (λ b, overlapping region page b
                      ∧ fuzzyTextMatch (text b) originalText = true)
                (blocks textMap) b →
     findTextBlockToReplace textMap originalText region page = Some b) ∧
  ((∀ b, In b (blocks textMap) → overlapping region page b →
         fuzzyTextMatch (text b) originalText = false) →
   ∀ b, first_such (overlapping region page) (blocks textMap) b →
        findTextBlockToReplace textMap originalText region page = Some b).
Proof.
  rewrite findTextBlockToReplace_unfold.
  split; [| split].
  - destruct (List.find (candidate region page) (blocks textMap)) as [f |] eqn:E.
    + split.
      * intros H. case_match; discriminate H.
      * intros H. exfalso. apply find_some in E. destruct E as [Hin Hc].
        apply (H f Hin). now apply candidate_overlapping.
    + split; [| reflexivity]. intros _ b Hin Hov.
      rewrite find_none_iff in E. apply candidate_overlapping in Hov.
      rewrite (E b Hin) in Hov. discriminate.
  - intros b Hb.
    assert (Hf : List.find (λ b, candidate region page b
                                 && fuzzyTextMatch (text b) originalText)
                           (blocks textMap) = Some b).
    { apply find_first_such. destruct Hb as (l1 & l2 & Heq & [Hov Hfz] & Hl1).
      exists l1, l2. repeat split; [exact Heq | |].
      - apply andb_true_iff. split; [now apply candidate_overlapping | exact Hfz].
      - intros a Hin Ha. apply andb_true_iff in Ha. destruct Ha as [Ha1 Ha2].
        apply (Hl1 a Hin). split; [now apply candidate_overlapping | exact Ha2]. }
    rewrite Hf.
    destruct (List.find (candidate region page) (blocks textMap)) eqn:E;
      [reflexivity |].
    apply find_some in Hf. destruct Hf as [Hin Hc].
    apply andb_true_iff in Hc. destruct Hc as [Hc _].
    rewrite find_none_iff in E. rewrite (E b Hin) in Hc. discriminate.
  - intros Hno b Hb.
    assert (Hf : List.find (candidate region page) (blocks textMap) = Some b).
    { apply find_first_such. destruct Hb as (l1 & l2 & Heq & Hov & Hl1).
      exists l1, l2. repeat split; [exact Heq | now apply candidate_overlapping |].
      intros a Hin Ha. apply (Hl1 a Hin). now apply candidate_overlapping. }
    rewrite Hf.
    assert (Hn : List.find (λ b, candidate region page b
                                 && fuzzyTextMatch (text b) originalText)
                           (blocks textMap) = None).
    { apply find_none_iff. intros a Hin.
      destruct (candidate region page a) eqn:Ec; [| reflexivity].
      simpl. apply Hno; [exact Hin | now apply candidate_overlapping]. }
    now rewrite Hn.
Qed.

Lemma C3_findTextBlockToReplace_result_witness :
  findTextBlockToReplace sample_map "senior engineer" sample_region 0 = Some sample_b2 ∧
  findTextBlockToReplace sample_map "Java" sample_region 0 = Some sample_b1.
Proof.
  split.
  - apply (proj1 (proj2 (C3_findTextBlockToReplace_result
                           sample_map "senior engineer" sample_region 0))).
    exists [sample_b1], [sample_b3]. split; [reflexivity |]. split.
    + split; [| vm_compute; reflexivity].
      split; [reflexivity |]. split; vm_compute; reflexivity.
    + intros a [<- | []] [_ H]. vm_compute in H. discriminate H.
  - apply (proj2 (proj2 (C3_findTextBlockToReplace_result
                           sample_map "Java" sample_region 0))).
    + intros b [<- | [<- | [<- | []]]] Hov; vm_compute; reflexivity.
    + exists [], [sample_b2; sample_b3]. split; [reflexivity |]. split.
      * split; [reflexivity |]. split; vm_compute; reflexivity.
      * intros a [].
Defined.

(** ** Text map update *)

Lemma same_key_iff (blockToReplace block : TextBlock) :
  same_key blockToReplace block = true ↔ key_eq blockToReplace block.
Proof.
  unfold same_key, key_eq.
  rewrite !andb_true_iff, Z.eqb_eq, !Qeq_bool_iff. tauto.
Qed.

Lemma findIndex_from_none {A : Type} (p : A → bool) (k : Z) (l : list A) :
  (∀ a, In a l → p a = false) → findIndex_from p k l = (-1)%Z.
Proof.
  revert k. induction l as [| a l IH]; intros k H; simpl; [reflexivity |].
  rewrite (H a (or_introl eq_refl)). apply IH. intros a' Hin. apply H. now right.
Qed.

Lemma findIndex_from_found {A : Type} (p : A → bool) (k : Z) (l : list A) :
  (∃ a, In a l ∧ p a = true) →
  ∃ (i : nat) (b : A),
    findIndex_from p k l = (k + Z.of_nat i)%Z ∧
    l !! i = Some b ∧ p b = true ∧
    ∀ (j : nat) (a : A), (j < i)%nat → l !! j = Some a → p a = false.
Proof.
  revert k. induction l as [| a l IH]; intros k (b & Hin & Hb); [destruct Hin |].
  simpl. destruct (p a) eqn:E.
  - exists 0%nat, a. repeat split; [lia | exact E | intros j a' Hj; lia].
  - destruct Hin as [-> | Hin]; [congruence |].
    destruct (IH (k + 1)%Z (ex_intro _ b (conj Hin Hb))) as (i & c & Hi & Hl & Hc & Hlt).
    exists (S i), c. repeat split; [lia | exact Hl | exact Hc |].
    intros [| j] a' Hj Ha'; simpl in Ha'.
    + congruence.
    + apply (Hlt j); [lia | exact Ha'].
Qed.

Lemma read_map_arrays (h : Heap) (textMap : MapObject) (m : PdfTextMap) :
  read_map h textMap = Some m ↔
  block_arrays h !! blocks_at textMap = Some (blocks m) ∧
  page_arrays h !! pages_at textMap = Some (pages m).
Proof.
  unfold read_map. destruct m as [bs ps]. simpl.
  destruct (block_arrays h !! blocks_at textMap) as [bs' |];
    destruct (page_arrays h !! pages_at textMap) as [ps' |]; split;
    try (intros [= -> ->]; tauto); try (intros [[=] [=]]); try discriminate.
  subst. reflexivity.
Qed.

Lemma fresh_not_allocated {V : Type} (m : gmap nat V) (a : nat) (v : V) :
  m !! a = Some v → a ≠ fresh (dom m).
Proof.
  intros H ->. apply (is_fresh (dom m)). apply elem_of_dom. now exists v.
Qed.

(** The heap after the two array copies of [replaceTextInBlock]. *)
Lemma replaceTextInBlock_unfold (h : Heap) (textMap : MapObject)
  (blockToReplace : TextBlock) (newText : string) (m : PdfTextMap) :
  read_map h textMap = Some m →
  let a := fresh (dom (block_arrays h)) in
  let p := fresh (dom (page_arrays h)) in
  let h2 := {| block_arrays := <[a := blocks m]> (block_arrays h);
               page_arrays := <[p := pages m]> (page_arrays h);
               console := console h |} in
  let blockIndex := findIndex (same_key blockToReplace) (blocks m) in
  replaceTextInBlock h textMap blockToReplace newText =
  if (blockIndex =? -1)%Z
  then Ok (console_error h2 "Block not found in text map", textMap)
  else Ok (write_block h2 a (Z.to_nat blockIndex) (updatedBlock blockToReplace newText),
           {| blocks_at := a; pages_at := p |}).
Proof.
  intros Hm. unfold replaceTextInBlock. rewrite Hm. simpl.
  rewrite lookup_insert_eq. reflexivity.
Qed.

(** C5. When no block of the map has the page index and origin of the
    target, [replaceTextInBlock] returns the very map object it was given,
    does not throw, leaves every array as it was (the map reads as before)
    and reports the failure on the console. *)
Theorem C5_replaceTextInBlock_not_found (h : Heap) (textMap : MapObject)
  (blockToReplace : TextBlock) (newText : string) (m : PdfTextMap) :
  read_map h textMap = Some m →
  (∀ b, In b (blocks m) → ¬ key_eq blockToReplace b) →
  ∃ h',
    replaceTextInBlock h textMap blockToReplace newText = Ok (h', textMap) ∧
    read_map h' textMap = Some m ∧
    arrays_preserved h h' ∧
    console h' = console h ++ ["Block not found in text map"].
Proof.
  intros Hm Hno.
  rewrite (replaceTextInBlock_unfold _ _ _ _ _ Hm). cbv zeta.
  unfold findIndex. rewrite findIndex_from_none.
  2:{ intros b Hin. destruct (same_key blockToReplace b) eqn:E; [| reflexivity].
      exfalso. apply (Hno b Hin). now apply same_key_iff. }
  simpl. eexists. split; [reflexivity |].
  apply read_map_arrays in Hm. destruct Hm as [Hb Hp].
  split; [| split; [split |]]; simpl.
  - apply read_map_arrays. simpl. split.
    + rewrite lookup_insert_ne; [exact Hb |].
      apply not_eq_sym. eapply fresh_not_allocated. exact Hb.
    + rewrite lookup_insert_ne; [exact Hp |].
      apply not_eq_sym. eapply fresh_not_allocated. exact Hp.
  - intros a bs Ha. rewrite lookup_insert_ne; [exact Ha |].
    apply not_eq_sym. eapply fresh_not_allocated. exact Ha.
  - intros a ps Ha. rewrite lookup_insert_ne; [exact Ha |].
    apply not_eq_sym. eapply fresh_not_allocated. exact Ha.
  - reflexivity.
Qed.

Lemma C5_replaceTextInBlock_not_found_witness :
  ∃ h',
    replaceTextInBlock sample_heap sample_object absent_block "New text"
    = Ok (h', sample_object) ∧
    read_map h' sample_object = Some sample_map ∧
    arrays_preserved sample_heap h' ∧
    console h' = console sample_heap ++ ["Block not found in text map"].
Proof.
  apply (C5_replaceTextInBlock_not_found sample_heap sample_object absent_block
           "New text" sample_map).
  - reflexivity.
  - intros b [<- | [<- | [<- | []]]] (Hp & Hx & Hy);
      vm_compute in Hp, Hx, Hy; discriminate.
Defined.

(** C4 (amended). When a block with the page index and origin of the
    target is in the map, [replaceTextInBlock] returns a new map object
    over new arrays, in which the first such block is replaced by a block
    with the new text, [isModified] set, and the target's text as
    [originalText], the target's position, page index and items; page index
    and origin are those of the replaced block, and when the target has the
    field values of the replaced block, as it has when it is a block of the
    map and the only one with its page and origin, so are the size, the
    items and the previous text. Every other block is as before, and the
    map handed in reads as before. *)
Theorem C4_replaceTextInBlock_found (h : Heap) (textMap : MapObject)
  (blockToReplace : TextBlock) (newText : string) (m : PdfTextMap) :
  read_map h textMap = Some m →
  (∃ b, In b (blocks m) ∧ key_eq blockToReplace b) →
  ∃ (h' : Heap) (updatedMap : MapObject) (i : nat) (old new : TextBlock),
    replaceTextInBlock h textMap blockToReplace newText = Ok (h', updatedMap) ∧
    blocks m !! i = Some old ∧ key_eq blockToReplace old ∧
    (∀ j a, (j < i)%nat → blocks m !! j = Some a → ¬ key_eq blockToReplace a) ∧
    read_map h' updatedMap =
      Some {| blocks := <[i := new]> (blocks m); pages := pages m |} ∧
    text new = newText ∧
    isModified new = true ∧
    originalText new = Some (text blockToReplace) ∧
    position new = position blockToReplace ∧
    items new = items blockToReplace ∧
    pageIndex new = pageIndex old ∧
    (box_x (position new) == box_x (position old))%Q ∧
    (box_y (position new) == box_y (position old))%Q ∧
    (blockToReplace = old →
     originalText new = Some (text old) ∧ position new = position old ∧
     items new = items old) ∧
    ((∀ a, In a (blocks m) → key_eq blockToReplace a → a = blockToReplace) →
     blockToReplace = old) ∧
    (∀ j, j ≠ i → (<[i := new]> (blocks m)) !! j = blocks m !! j) ∧
    length (<[i := new]> (blocks m)) = length (blocks m) ∧
    blocks_at updatedMap ≠ blocks_at textMap ∧
    pages_at updatedMap ≠ pages_at textMap ∧
    read_map h' textMap = Some m ∧
    arrays_preserved h h' ∧
    console h' = console h.
Proof.
  intros Hm Hfound.
  rewrite (replaceTextInBlock_unfold _ _ _ _ _ Hm). cbv zeta.
  destruct (findIndex_from_found (same_key blockToReplace) 0 (blocks m))
    as (i & old & Hi & Hold & Hkey & Hfirst).
  { destruct Hfound as (b & Hin & Hb). exists b. split; [exact Hin |].
    now apply same_key_iff. }
  unfold findIndex. rewrite Hi.
  replace (0 + Z.of_nat i =? -1)%Z with false by (symmetry; apply Z.eqb_neq; lia).
  replace (Z.to_nat (0 + Z.of_nat i)) with i by lia.
  apply same_key_iff in Hkey.
  pose proof Hm as Hm'. apply read_map_arrays in Hm'. destruct Hm' as [Hb Hp].
  pose proof (fresh_not_allocated _ _ _ Hb) as Hfb.
  pose proof (fresh_not_allocated _ _ _ Hp) as Hfp.
  exists (write_block
            {| block_arrays := <[fresh (dom (block_arrays h)) := blocks m]> (block_arrays h);
               page_arrays := <[fresh (dom (page_arrays h)) := pages m]> (page_arrays h);
               console := console h |}
            (fresh (dom (block_arrays h))) i (updatedBlock blockToReplace newText)),
    {| blocks_at := fresh (dom (block_arrays h));
       pages_at := fresh (dom (page_arrays h)) |},
    i, old, (updatedBlock blockToReplace newText).
  pose proof Hkey as (Hkp & Hkx & Hky).
  repeat match goal with |- _ ∧ _ => split end; simpl;
    try reflexivity; try assumption; try (now apply not_eq_sym).
  - intros j a Hj Ha Hk. apply same_key_iff in Hk.
    rewrite (Hfirst j a Hj Ha) in Hk. discriminate.
  - unfold read_map. simpl.
    rewrite lookup_alter_eq, !lookup_insert_eq. reflexivity.
  - congruence.
  - symmetry. exact Hkx.
  - symmetry. exact Hky.
  - intros ->. repeat split.
  - intros Honly. symmetry. apply Honly; [| exact Hkey].
    apply list_elem_of_In. eapply list_elem_of_lookup_2. exact Hold.
  - intros j Hj. apply list_lookup_insert_ne. congruence.
  - apply length_insert.
  - apply read_map_arrays. simpl. split.
    + rewrite lookup_alter_ne, lookup_insert_ne by (now apply not_eq_sym).
      exact Hb.
    + rewrite lookup_insert_ne by (now apply not_eq_sym). exact Hp.
  - split; simpl.
    + intros a bs Ha. pose proof (fresh_not_allocated _ _ _ Ha) as Hne.
      rewrite lookup_alter_ne, lookup_insert_ne by (now apply not_eq_sym).
      exact Ha.
    + intros a ps Ha. pose proof (fresh_not_allocated _ _ _ Ha) as Hne.
      rewrite lookup_insert_ne by (now apply not_eq_sym). exact Ha.
Qed.

Lemma C4_replaceTextInBlock_found_witness :
  ∃ (h' : Heap) (updatedMap : MapObject) (new : TextBlock),
    replaceTextInBlock sample_heap sample_object sample_b2 "Staff Engineer"
    = Ok (h', updatedMap) ∧
    read_map h' updatedMap =
      Some {| blocks := [sample_b1; new; sample_b3]; pages := pages sample_map |} ∧
    text new = "Staff Engineer" ∧
    originalText new = Some "Senior Engineer" ∧
    position new = position sample_b2 ∧
    read_map h' sample_object = Some sample_map.
Proof.
  destruct (C4_replaceTextInBlock_found sample_heap sample_object sample_b2
              "Staff Engineer" sample_map) as
    (h' & um & i & old & new & Hr & Hold & Hk & Hfirst & Hread & Ht & _ & Ho & Hp
     & _ & _ & _ & _ & _ & _ & _ & _ & _ & _ & Hsame & _).
  - reflexivity.
  - exists sample_b2. split; [right; left; reflexivity |].
    split; [reflexivity |]. split; reflexivity.
  - exists h', um, new. split; [exact Hr |].
    assert (Hi : i = 1%nat).
    { destruct i as [| [| i]].
      - exfalso. simpl in Hold. injection Hold as <-.
        destruct Hk as (_ & _ & Hy). vm_compute in Hy. discriminate Hy.
      - reflexivity.
      - exfalso. apply (Hfirst 1%nat sample_b2); [lia | reflexivity |].
        split; [reflexivity |]. split; reflexivity. }
    subst i. repeat split; assumption.
Defined.

(** C4 as first stated fails when the target has the page index and origin
    of a stored block and a different size or text: the new block takes the
    target's fields, not the stored block's. *)
Lemma C4_replaced_block_takes_target_fields :
  ¬ replace_found_as_stated sample_heap sample_object stale_b2 "Staff Engineer".
Proof.
  intros H.
  destruct (H sample_map eq_refl) as (h' & um & i & old & Hr & Hold & Hk & Hread & _).
  { exists sample_b2. split; [right; left; reflexivity |].
    split; [reflexivity |]. split; reflexivity. }
  vm_compute in Hr. injection Hr as <- <-.
  destruct i as [| [| [| i]]]; simpl in Hold; try discriminate Hold;
    injection Hold as <-.
  - destruct Hk as (_ & _ & Hy). vm_compute in Hy. discriminate Hy.
  - vm_compute in Hread. discriminate Hread.
  - destruct Hk as (Hp & _). vm_compute in Hp. discriminate Hp.
Qed.

(** ** Block builder *)

Lemma Qabs_within (d t : Q) : (- t <= d)%Q → (d <= t)%Q → Qlt_bool t (Qabs d) = false.
Proof.
  intros H1 H2. apply Qlt_bool_false_iff. apply Qabs_Qle_condition. split; assumption.
Qed.

Lemma Qmax_ge_l (a b c : Q) : (c <= a)%Q → (c <= Qmax a b)%Q.
Proof.
  intros H. destruct (Q.max_spec a b) as [[_ E] | [_ E]]; rewrite E.
  - destruct (Q.max_spec a b) as [[Hlt _] | [Hle E']]; lra.
  - exact H.
Qed.

(** Two runs of one page whose baselines are within half the larger height
    are compared by their [x]. *)
Lemma compareItems_same_line (a b : TextItem) :
  item_pageIndex a = item_pageIndex b →
  (- (Qmax (ip_height (item_position a)) (ip_height (item_position b)) * 0.5)
   <= ip_y (item_position a) - ip_y (item_position b))%Q →
  (ip_y (item_position a) - ip_y (item_position b)
   <= Qmax (ip_height (item_position a)) (ip_height (item_position b)) * 0.5)%Q →
  compareItems a b = (ip_x (item_position a) - ip_x (item_position b))%Q.
Proof.
  intros Hp H1 H2. unfold compareItems.
  rewrite Hp, Z.eqb_refl. cbn [negb]. now rewrite Qabs_within.
Qed.

(** The first item of the loop opens a block without closing one. *)
Lemma group_step_first (bs : list TextBlock) (p : Z) (y r : Q) (item : TextItem) :
  group_step {| gs_blocks := bs; currentBlock := []; currentPageIndex := p;
                lastY := y; lastRight := r |} item
  = Ok {| gs_blocks := bs; currentBlock := [item];
          currentPageIndex := item_pageIndex item;
          lastY := ip_y (item_position item);
          lastRight := (ip_x (item_position item) + ip_width (item_position item))%Q |}.
Proof. reflexivity. Qed.

(** A further item stays in the open block when none of the three triggers
    fires. *)
Lemma group_step_merge (st : GroupState) (item : TextItem) :
  item_pageIndex item = currentPageIndex st →
  Qlt_bool (ip_height (item_position item) * 0.5)
           (Qabs (ip_y (item_position item) - lastY st)) = false →
  Qlt_bool (lastRight st + ip_width (item_position item) * 0.5)
           (ip_x (item_position item)) = false →
  group_step st item
  = Ok {| gs_blocks := gs_blocks st; currentBlock := currentBlock st ++ [item];
          currentPageIndex := item_pageIndex item;
          lastY := ip_y (item_position item);
          lastRight := (ip_x (item_position item) + ip_width (item_position item))%Q |}.
Proof.
  intros Hp Hl Hg. unfold group_step. cbv zeta.
  rewrite Hp, Z.eqb_refl, Hl, Hg. simpl. rewrite andb_false_r. reflexivity.
Qed.

(** A horizontal gap closes the open block. *)
Lemma group_step_gap (st : GroupState) (item : TextItem) (b : TextBlock) :
  createBlockFromItems (currentBlock st) = Ok b →
  Qlt_bool (lastRight st + ip_width (item_position item) * 0.5)
           (ip_x (item_position item)) = true →
  group_step st item
  = Ok {| gs_blocks := gs_blocks st ++ [b]; currentBlock := [item];
          currentPageIndex := item_pageIndex item;
          lastY := ip_y (item_position item);
          lastRight := (ip_x (item_position item) + ip_width (item_position item))%Q |}.
Proof.
  intros Hb Hg. unfold group_step. cbv zeta.
  rewrite Hg, !orb_true_r.
  destruct (currentBlock st) as [| i0 rest] eqn:E; [discriminate Hb |].
  cbn [length Nat.ltb Nat.leb andb]. rewrite Hb. reflexivity.
Qed.

Lemma createBlockFromItems_nonempty (first : TextItem) (rest : list TextItem) :
  ∃ b, createBlockFromItems (first :: rest) = Ok b ∧ items b = first :: rest
       ∧ isModified b = false.
Proof. eexists. split; [reflexivity |]. split; reflexivity. Qed.

(** The builder never throws: a block is only ever made of a non-empty
    run of items. *)
Lemma group_loop_total (l : list TextItem) (st : GroupState) :
  ∃ st', group_loop st l = Ok st' ∧ (l ≠ [] → currentBlock st' ≠ []).
Proof.
  revert st. induction l as [| item l IH]; intros st.
  - exists st. split; [reflexivity | congruence].
  - assert (Hs : ∃ st1, group_step st item = Ok st1 ∧ currentBlock st1 ≠ []).
    { unfold group_step. cbv zeta.
      destruct ((0 <? length (currentBlock st))%nat && _) eqn:E.
      - destruct (currentBlock st) as [| i0 rest]; [discriminate E |].
        destruct (createBlockFromItems_nonempty i0 rest) as (b & Hb & _).
        rewrite Hb. eexists. split; [reflexivity |]. simpl. discriminate.
      - eexists. split; [reflexivity |]. simpl.
        destruct (currentBlock st); discriminate. }
    destruct Hs as (st1 & Hs & Hne). cbn [group_loop]. rewrite Hs.
    destruct (IH st1) as (st' & Hl & Hne').
    exists st'. split; [exact Hl |]. intros _.
    destruct l as [| i1 l1]; [| apply Hne'; discriminate].
    simpl in Hl. injection Hl as <-. exact Hne.
Qed.

Lemma groupTextIntoBlocks_total (textItems : list TextItem) :
  ∃ bs, groupTextIntoBlocks textItems = Ok bs.
Proof.
  unfold groupTextIntoBlocks, group_sorted. cbv zeta.
  destruct (group_loop_total (sort_by compareItems textItems)
              {| gs_blocks := []; currentBlock := []; currentPageIndex := -1;
                 lastY := -1; lastRight := -1 |}) as (st & Hl & _).
  rewrite Hl. simpl.
  destruct (currentBlock st) as [| i0 rest]; simpl; [eexists; reflexivity |].
  eexists. reflexivity.
Qed.

Lemma sort_by_pair (cmp : TextItem → TextItem → Q) (a b : TextItem) :
  (cmp a b <= 0)%Q → (0 < cmp b a)%Q →
  sort_by cmp [a; b] = [a; b] ∧ sort_by cmp [b; a] = [a; b].
Proof.
  intros H1 H2. simpl. split.
  - apply Qle_bool_iff in H1. now rewrite H1.
  - apply Qlt_bool_iff in H2. unfold Qlt_bool in H2.
    apply negb_true_iff in H2. now rewrite H2.
Qed.

Lemma grouped_pair_merge (l : list TextItem) (r1 r2 : TextItem) :
  sort_by compareItems l = [r1; r2] →
  item_pageIndex r2 = item_pageIndex r1 →
  Qlt_bool (ip_height (item_position r2) * 0.5)
           (Qabs (ip_y (item_position r2) - ip_y (item_position r1))) = false →
  Qlt_bool (ip_x (item_position r1) + ip_width (item_position r1)
            + ip_width (item_position r2) * 0.5)
           (ip_x (item_position r2)) = false →
  ∃ b, createBlockFromItems [r1; r2] = Ok b ∧ groupTextIntoBlocks l = Ok [b].
Proof.
  intros Hs Hp Hl Hg.
  destruct (createBlockFromItems_nonempty r1 [r2]) as (b & Hb & _).
  exists b. split; [exact Hb |].
  unfold groupTextIntoBlocks, group_sorted. cbv zeta. rewrite Hs.
  cbn [group_loop]. rewrite group_step_first.
  cbn [mbind result_bind].
  rewrite group_step_merge by assumption.
  cbn [mbind result_bind currentBlock gs_blocks app length Nat.ltb Nat.leb].
  rewrite Hb. reflexivity.
Qed.

Lemma grouped_pair_split (l : list TextItem) (r1 r2 : TextItem) :
  sort_by compareItems l = [r1; r2] →
  Qlt_bool (ip_x (item_position r1) + ip_width (item_position r1)
            + ip_width (item_position r2) * 0.5)
           (ip_x (item_position r2)) = true →
  ∃ b1 b2, createBlockFromItems [r1] = Ok b1 ∧ createBlockFromItems [r2] = Ok b2 ∧
           groupTextIntoBlocks l = Ok [b1; b2].
Proof.
  intros Hs Hg.
  destruct (createBlockFromItems_nonempty r1 []) as (b1 & Hb1 & _).
  destruct (createBlockFromItems_nonempty r2 []) as (b2 & Hb2 & _).
  exists b1, b2. split; [exact Hb1 |]. split; [exact Hb2 |].
  unfold groupTextIntoBlocks, group_sorted. cbv zeta. rewrite Hs.
  cbn [group_loop]. rewrite group_step_first.
  cbn [mbind result_bind].
  rewrite (group_step_gap _ _ b1) by assumption.
  cbn [mbind result_bind currentBlock gs_blocks app length Nat.ltb Nat.leb].
  rewrite Hb2. reflexivity.
Qed.

(** C6. Two runs of one page at y 500 and 495, both 12 high: when the
    second starts one unit after the right edge of the first and that gap
    is at most half its width, they form one block; when it starts one
    first-run width after that edge and that gap exceeds half its width,
    they form two blocks; either way whatever the order they are handed in.
    No runs give no blocks. *)
Theorem C6_groupTextIntoBlocks_two_runs :
  (∀ r1 r2 : TextItem,
     let p1 := item_position r1 in
     let p2 := item_position r2 in
     item_pageIndex r1 = item_pageIndex r2 →
     (ip_y p1 == 500)%Q → (ip_height p1 == 12)%Q →
     (ip_y p2 == 495)%Q → (ip_height p2 == 12)%Q →
     (0 <= ip_width p1)%Q → (0 <= ip_width p2)%Q →
     ((ip_x p2 == ip_x p1 + ip_width p1 + 1)%Q →
      (1 <= 0.5 * ip_width p2)%Q →
      ∃ b, createBlockFromItems [r1; r2] = Ok b ∧
           groupTextIntoBlocks [r1; r2] = Ok [b] ∧
           groupTextIntoBlocks [r2; r1] = Ok [b]) ∧
     ((ip_x p2 == ip_x p1 + ip_width p1 + ip_width p1)%Q →
      (0.5 * ip_width p2 < ip_width p1)%Q →
      ∃ b1 b2, createBlockFromItems [r1] = Ok b1 ∧
               createBlockFromItems [r2] = Ok b2 ∧
               groupTextIntoBlocks [r1; r2] = Ok [b1; b2] ∧
               groupTextIntoBlocks [r2; r1] = Ok [b1; b2])) ∧
  groupTextIntoBlocks [] = Ok [].
Proof.
  split; [| reflexivity].
  intros r1 r2 p1 p2 Hp Hy1 Hh1 Hy2 Hh2 Hw1 Hw2.
  assert (HM : (12 <= Qmax (ip_height p1) (ip_height p2))%Q)
    by (apply Qmax_ge_l; lra).
  assert (HM' : (12 <= Qmax (ip_height p2) (ip_height p1))%Q)
    by (rewrite Q.max_comm; exact HM).
  assert (Hc12 : compareItems r1 r2 = (ip_x p1 - ip_x p2)%Q).
  { apply compareItems_same_line; [exact Hp | |]; fold p1 p2; lra. }
  assert (Hc21 : compareItems r2 r1 = (ip_x p2 - ip_x p1)%Q).
  { apply compareItems_same_line; [now symmetry | |]; fold p1 p2; lra. }
  assert (Hline : Qlt_bool (ip_height p2 * 0.5) (Qabs (ip_y p2 - ip_y p1)) = false)
    by (apply Qabs_within; lra).
  split; intros Hx Hgap.
  - assert (Hsort : sort_by compareItems [r1; r2] = [r1; r2] ∧
                    sort_by compareItems [r2; r1] = [r1; r2])
      by (apply sort_by_pair; rewrite ?Hc12, ?Hc21; lra).
    destruct Hsort as [Hs1 Hs2].
    assert (Hg : Qlt_bool (ip_x p1 + ip_width p1 + ip_width p2 * 0.5) (ip_x p2) = false)
      by (apply Qlt_bool_false_iff; lra).
    destruct (grouped_pair_merge _ r1 r2 Hs1 (eq_sym Hp) Hline Hg) as (b & Hb & H1).
    destruct (grouped_pair_merge _ r1 r2 Hs2 (eq_sym Hp) Hline Hg) as (b' & Hb' & H2).
    exists b. split; [exact Hb |]. split; [exact H1 |]. congruence.
  - assert (Hsort : sort_by compareItems [r1; r2] = [r1; r2] ∧
                    sort_by compareItems [r2; r1] = [r1; r2])
      by (apply sort_by_pair; rewrite ?Hc12, ?Hc21; lra).
    destruct Hsort as [Hs1 Hs2].
    assert (Hg : Qlt_bool (ip_x p1 + ip_width p1 + ip_width p2 * 0.5) (ip_x p2) = true)
      by (apply Qlt_bool_iff; lra).
    destruct (grouped_pair_split _ r1 r2 Hs1 Hg) as (b1 & b2 & Hb1 & Hb2 & H1).
    destruct (grouped_pair_split _ r1 r2 Hs2 Hg) as (b1' & b2' & Hb1' & Hb2' & H2).
    exists b1, b2. repeat split; try assumption. congruence.
Qed.

Lemma C6_groupTextIntoBlocks_two_runs_witness :
  (∃ b, createBlockFromItems [sample_run 0 72 500 40 12 "Senior";
                               sample_run 0 113 495 40 12 "Engineer"] = Ok b ∧
        text b = "Senior Engineer" ∧
        groupTextIntoBlocks [sample_run 0 72 500 40 12 "Senior";
                             sample_run 0 113 495 40 12 "Engineer"] = Ok [b]) ∧
  (∃ b1 b2,
     groupTextIntoBlocks [sample_run 0 72 500 40 12 "Senior";
                          sample_run 0 152 495 40 12 "Engineer"] = Ok [b1; b2] ∧
     text b1 = "Senior" ∧ text b2 = "Engineer").
Proof.
  split.
  - destruct (proj1 (proj1 C6_groupTextIntoBlocks_two_runs
                       (sample_run 0 72 500 40 12 "Senior")
                       (sample_run 0 113 495 40 12 "Engineer")
                       eq_refl (Qeq_refl _) (Qeq_refl _) (Qeq_refl _) (Qeq_refl _)
                       ltac:(simpl; lra) ltac:(simpl; lra))
                ltac:(simpl; lra) ltac:(simpl; lra)) as (b & Hb & H1 & _).
    exists b. split; [exact Hb |]. split; [| exact H1].
    simpl in Hb. injection Hb as <-. reflexivity.
  - destruct (proj2 (proj1 C6_groupTextIntoBlocks_two_runs
                       (sample_run 0 72 500 40 12 "Senior")
                       (sample_run 0 152 495 40 12 "Engineer")
                       eq_refl (Qeq_refl _) (Qeq_refl _) (Qeq_refl _) (Qeq_refl _)
                       ltac:(simpl; lra) ltac:(simpl; lra))
                ltac:(simpl; lra) ltac:(simpl; lra)) as (b1 & b2 & Hb1 & Hb2 & H1 & _).
    exists b1, b2. split; [exact H1 |].
    simpl in Hb1, Hb2. injection Hb1 as <-. injection Hb2 as <-.
    split; reflexivity.
Defined.

(** The comparator is not a consistent comparison: it puts "one" before
    "two" and "two" before "three" by their abscissae, and "three" before
    "one" by their ordinates. On such runs the order the sort leaves is the
    engine's own. *)
Example compareItems_not_transitive :
  (compareItems stair_one stair_two < 0)%Q ∧
  (compareItems stair_two stair_three < 0)%Q ∧
  (compareItems stair_three stair_one < 0)%Q.
Proof. repeat split; vm_compute; reflexivity. Qed.

(** ** Extraction pipeline *)

Lemma js_or_some (v d : Q) : ¬ (v == 0)%Q → js_or (Some v) d = v.
Proof.
  intros H. unfold js_or. destruct (Qeq_bool v 0) eqn:E; [| reflexivity].
  apply Qeq_bool_iff in E. contradiction.
Qed.

(** The items of the page loop are the converted items of the pages, each
    with the index of its page. *)
Lemma fold_extract_page (pdfDoc : list RawPage) (st : ExtractState) :
  let st' := fold_left extract_page pdfDoc st in
  ex_pageIndex st' = (ex_pageIndex st + Z.of_nat (length pdfDoc))%Z ∧
  pageInfo st' = pageInfo st ++ List.map viewport pdfDoc ∧
  ∀ it, In it (allTextItems st') →
        In it (allTextItems st) ∨
        ∃ (i : nat) (page : RawPage) (raw : RawItem),
          pdfDoc !! i = Some page ∧ In raw (textContent page) ∧
          it = toTextItem (ex_pageIndex st + Z.of_nat i) raw.
Proof.
  revert st. induction pdfDoc as [| page rest IH]; intros st; cbn zeta.
  - simpl. split; [lia |]. split; [now rewrite app_nil_r | tauto].
  - cbn [fold_left]. destruct (IH (extract_page st page)) as (Hi & Hinfo & Hit).
    cbn zeta in Hi, Hinfo, Hit. split; [| split].
    + rewrite Hi. simpl. lia.
    + rewrite Hinfo. simpl. now rewrite <- app_assoc.
    + intros it Hin. destruct (Hit it Hin) as [H | (i & pg & raw & Hl & Hr & He)].
      * simpl in H. apply in_app_or in H. destruct H as [H | H]; [now left |].
        right. apply in_map_iff in H. destruct H as (raw & <- & Hraw).
        exists 0%nat, page, raw. repeat split; [exact Hraw |].
        f_equal. lia.
      * right. exists (S i), pg, raw. repeat split; [exact Hl | exact Hr |].
        rewrite He. simpl. f_equal. lia.
Qed.

(** C8 (amended). Every item of the extraction is the conversion of an item
    of a page: its position is the translation of the transform; its width
    is the extractor's when that is present and not zero, and
    text length x fontSize x 0.6 when it is absent; its height is
    fontSize x 1.2, where fontSize is the extractor's height when that is
    present and not zero (so the stored height is 1.2 times the
    extractor's), and transform[3] x (item font size, or 10) when it is
    absent. *)
Theorem C8_extracted_item_geometry (pdfDoc : list RawPage) (it : TextItem) :
  In it (allTextItems (extract_pages pdfDoc)) →
  ∃ (i : nat) (page : RawPage) (item : RawItem),
    pdfDoc !! i = Some page ∧ In item (textContent page) ∧
    item_pageIndex it = Z.of_nat i ∧
    item_text it = str item ∧
    ip_x (item_position it) = tr_e (transform item) ∧
    ip_y (item_position it) = tr_f (transform item) ∧
    (∀ w, raw_width item = Some w → ¬ (w == 0)%Q →
          ip_width (item_position it) = w) ∧
    (raw_width item = None →
     ip_width (item_position it)
     = (inject_Z (Z.of_nat (String.length (str item))) * item_fontSize item * 0.6)%Q) ∧
    ip_height (item_position it) = (item_fontSize item * 1.2)%Q ∧
    (∀ h, raw_height item = Some h → ¬ (h == 0)%Q →
          item_fontSize item = h ∧ ip_height (item_position it) = (h * 1.2)%Q) ∧
    (raw_height item = None →
     item_fontSize item = (tr_d (transform item) * js_or (raw_fontSize item) 10)%Q).
Proof.
  intros Hin. unfold extract_pages in Hin.
  destruct (fold_extract_page pdfDoc
              {| ex_pageIndex := 0; allTextItems := []; pageInfo := [] |})
    as (_ & _ & Hit).
  destruct (Hit it Hin) as [[] | (i & page & item & Hl & Hr & ->)].
  exists i, page, item. simpl.
  repeat match goal with |- _ ∧ _ => split end; try reflexivity; try assumption.
  - intros w Hw Hnz. rewrite Hw. now apply js_or_some.
  - intros Hw. now rewrite Hw.
  - intros h Hh Hnz. unfold item_fontSize. rewrite Hh, js_or_some by exact Hnz.
    split; reflexivity.
  - intros Hh. unfold item_fontSize. now rewrite Hh.
Qed.

Lemma C8_extracted_item_geometry_witness :
  ∃ (i : nat) (page : RawPage) (item : RawItem),
    [ {| viewport := {| page_width := 612; page_height := 792 |};
         textContent := [sample_item] |} ] !! i = Some page ∧
    In item (textContent page) ∧
    ip_width (item_position (toTextItem 0 sample_item)) = 33%Q ∧
    ip_height (item_position (toTextItem 0 sample_item)) = (10 * 1.2)%Q.
Proof.
  destruct (C8_extracted_item_geometry
              [ {| viewport := {| page_width := 612; page_height := 792 |};
                   textContent := [sample_item] |} ]
              (toTextItem 0 sample_item)) as
    (i & page & item & Hl & Hr & _ & _ & _ & _ & Hw & _ & _ & Hh & _).
  - left. reflexivity.
  - exists i, page, item. split; [exact Hl |]. split; [exact Hr |].
    destruct i as [| i]; [| destruct i; discriminate Hl].
    injection Hl as <-. destruct Hr as [<- | []].
    split.
    + apply Hw; [reflexivity | intros H; vm_compute in H; discriminate H].
    + apply (Hh 10%Q); [reflexivity | intros H; vm_compute in H; discriminate H].
Defined.

(** C8 as first stated fails on the height: an item of height 10 is stored
    with height 12. *)
Lemma C8_supplied_height_is_scaled : ¬ height_as_stated.
Proof.
  intros H. specialize (H 0%Z sample_item 10%Q eq_refl).
  vm_compute in H. discriminate H.
Qed.

Example bare_item_fallback :
  (ip_width (item_position (toTextItem 0 bare_item)) == 36)%Q ∧
  (ip_height (item_position (toTextItem 0 bare_item)) == 12)%Q.
Proof. split; vm_compute; reflexivity. Qed.

(** ** Splitting at a character *)

Lemma mentions_append (c : ascii) (a b : string) :
  mentions c (a +:+ b) = mentions c a || mentions c b.
Proof.
  induction a as [| d a IH]; [reflexivity |].
  rewrite append_cons. simpl. now rewrite IH, orb_assoc.
Qed.

(** The pieces of a split do not contain the separator. *)
Lemma split_on_from_clean (sep : ascii) (s cur : string) :
  mentions sep cur = false →
  Forall (λ wd, mentions sep wd = false) (split_on_from sep cur s).
Proof.
  revert cur. induction s as [| c s IH]; intros cur Hcur; simpl.
  - repeat constructor. exact Hcur.
  - destruct (Ascii.eqb c sep) eqn:E.
    + constructor; [exact Hcur | now apply IH].
    + apply IH. rewrite mentions_append, Hcur. simpl. now rewrite E.
Qed.

Lemma split_on_from_app (sep : ascii) (a w cur : string) :
  split_on_from sep cur (a +:+ String sep w)
  = split_on_from sep cur a ++ split_on_from sep "" w.
Proof.
  revert cur. induction a as [| c a IH]; intros cur.
  - change ("" +:+ String sep w) with (String sep w). simpl.
    now rewrite Ascii.eqb_refl.
  - rewrite append_cons. simpl.
    destruct (Ascii.eqb c sep); [now rewrite IH | apply IH].
Qed.

Lemma split_on_from_word (sep : ascii) (w cur : string) :
  mentions sep w = false → split_on_from sep cur w = [cur +:+ w].
Proof.
  revert cur. induction w as [| c w IH]; intros cur H; simpl.
  - now rewrite append_empty_r.
  - simpl in H. apply orb_false_iff in H. destruct H as [Hc Hw].
    rewrite Hc, (IH _ Hw), append_assoc. reflexivity.
Qed.

Lemma nonempty_words_word (w : string) :
  mentions " " w = false → nonempty_words w = List.filter truthy [w].
Proof.
  intros H. unfold nonempty_words, split_on. now rewrite split_on_from_word.
Qed.

Lemma nonempty_words_app (l w : string) :
  mentions " " w = false →
  nonempty_words (l +:+ String " " w) = nonempty_words l ++ List.filter truthy [w].
Proof.
  intros H. unfold nonempty_words, split_on.
  rewrite split_on_from_app, List.filter_app, (split_on_from_word _ _ _ H).
  reflexivity.
Qed.

Lemma words_drawn_snoc (ops : list DrawOp) (l : string) (x y size : Q) :
  words_drawn (ops ++ [DrawText l x y size]) = words_drawn ops ++ nonempty_words l.
Proof.
  unfold words_drawn, drawn_lines. rewrite !flat_map_app. simpl.
  now rewrite app_nil_r.
Qed.

Lemma truthy_empty (s : string) : truthy s = false ↔ s = "".
Proof.
  unfold truthy. destruct (String.eqb_spec s ""); simpl; split;
    intros; congruence.
Qed.

(** ** Re-flow renderer *)

Lemma StronglySorted_snoc (l : list Q) (v : Q) :
  StronglySorted Qlt l → Forall (λ a, (a < v)%Q) l → StronglySorted Qlt (l ++ [v]).
Proof.
  induction l as [| a l IH]; intros Hs Hf; simpl.
  - repeat constructor.
  - apply StronglySorted_inv in Hs. destruct Hs as [Hs Ha].
    apply Forall_cons_iff in Hf. destruct Hf as [Hav Hf].
    constructor; [now apply IH |].
    apply Forall_app. split; [exact Ha | now repeat constructor].
Qed.

(** The characters of the pieces of a split are characters of the string
    that is split, the separator apart. *)
Lemma split_on_from_chars (sep : ascii) (s cur : string) :
  mentions sep cur = false →
  Forall (λ piece, ∀ c, mentions c piece = true →
                        c ≠ sep ∧ (mentions c cur = true ∨ mentions c s = true))
         (split_on_from sep cur s).
Proof.
  revert cur. induction s as [| d s IH]; intros cur Hcur; simpl.
  - constructor; [| constructor].
    intros c Hc. split; [intros ->; congruence | now left].
  - assert (Hhere : ∀ c, mentions c cur = true →
                         c ≠ sep ∧ (mentions c cur = true
                                    ∨ Ascii.eqb d c || mentions c s = true)).
    { intros c Hc. split; [intros ->; congruence | now left]. }
    destruct (Ascii.eqb d sep) eqn:E.
    + constructor; [exact Hhere |].
      eapply List.Forall_impl; [| apply (IH ""); reflexivity].
      intros piece H c Hc. destruct (H c Hc) as [Hne [Hin | Hin]];
        [discriminate Hin |].
      split; [exact Hne |]. right. rewrite Hin. apply orb_true_r.
    + eapply List.Forall_impl; [| apply (IH (cur +:+ String d ""))].
      * intros piece H c Hc. destruct (H c Hc) as [Hne [Hin | Hin]].
        -- split; [exact Hne |]. rewrite mentions_append in Hin.
           apply orb_true_iff in Hin. destruct Hin as [Hin | Hin]; [now left |].
           right. simpl in Hin. rewrite orb_false_r in Hin. now rewrite Hin.
        -- split; [exact Hne |]. right. rewrite Hin. apply orb_true_r.
      * rewrite mentions_append, Hcur. simpl. now rewrite E.
Qed.

Lemma written_with_empty (text : string) : written_with text "".
Proof. intros c Hc. discriminate Hc. Qed.

Lemma written_with_append (text a b : string) :
  written_with text a → written_with text b → written_with text (a +:+ b).
Proof.
  intros Ha Hb c Hc. rewrite mentions_append in Hc.
  apply orb_true_iff in Hc. destruct Hc as [Hc | Hc]; [now apply Ha | now apply Hb].
Qed.

Lemma written_with_space (text : string) : written_with text " ".
Proof.
  intros c Hc. cbn [mentions] in Hc. rewrite orb_false_r in Hc.
  apply Ascii.eqb_eq in Hc. subst c. split; [discriminate | now right].
Qed.

(** The paragraphs of a text are written with its characters, and so are
    the words of a paragraph. *)
Lemma paragraphs_written_with (text : string) :
  Forall (written_with text) (split_on "010" text).
Proof.
  unfold split_on.
  eapply List.Forall_impl; [| apply split_on_from_chars; reflexivity].
  intros piece H c Hc. destruct (H c Hc) as [Hne [Hin | Hin]];
    [discriminate Hin |].
  split; [exact Hne | now left].
Qed.

Lemma words_written_with (text paragraph : string) :
  written_with text paragraph →
  Forall (written_with text) (split_on " " paragraph).
Proof.
  intros Hp. unfold split_on.
  eapply List.Forall_impl; [| apply split_on_from_chars; reflexivity].
  intros piece H c Hc. destruct (H c Hc) as [Hne [Hin | Hin]];
    [discriminate Hin |].
  now apply Hp.
Qed.

Section RendererProperties.

Variable load : ArrayBuffer → ArrayBuffer * result (list PageSize).
Variable w : string → Q → result Q.
Variable enc : string → result unit.

(** The five ways through the body of the word loop: an exception is
    pending; the line is flushed; encoding the line throws; the word joins
    the line; measuring throws. *)
Ltac word_cases st :=
  unfold wrap_word; cbv zeta;
  destruct (thrown st) as [pending |] eqn:Ethrown;
  [| match goal with
     | |- context [match w ?t ?f with Ok _ => _ | Throw _ => _ end] =>
         destruct (w t f) as [testWidth | err] eqn:Ewidth
     end;
     [destruct (Qlt_bool _ _ && _) eqn:Eflush;
      [match goal with
       | |- context [match enc ?t with Ok _ => _ | Throw _ => _ end] =>
           destruct (enc t) as [[] | err] eqn:Eenc
       end |] |]].

(** The ways through the body of the paragraph loop, [loop_end] naming the
    state the word loop ends in: an exception is pending; the paragraph is
    blank; the word loop threw; the last line is drawn; encoding it throws;
    there is no last line. *)
Ltac paragraph_cases st loop_end :=
  unfold wrap_paragraph; cbv zeta;
  destruct (thrown st) as [pending |] eqn:Ethrown;
  [| destruct (negb (truthy (trim _))) eqn:Eblank;
     [| match goal with
        | |- context [thrown (fold_left ?f ?l ?s)] =>
            set (loop_end := fold_left f l s) in *
        end;
        destruct (thrown loop_end) as [err |] eqn:Elast;
        [| destruct (truthy (line loop_end)) eqn:Etruthy;
           [destruct (enc (line loop_end)) as [[] | err] eqn:Eenc |]]]].

(** *** What is already on the page does not matter *)

Ltac same_cursor :=
  unfold extends; cbn [ws_page yOffset line thrown drawText drawn];
  repeat split; try assumption; try congruence.

Lemma wrap_word_extends (pre : list DrawOp) (x y maxWidth fontSize : Q)
  (st1 st2 : WrapState) (word : string) :
  extends pre st1 st2 →
  extends pre (wrap_word w enc x y maxWidth fontSize st1 word)
              (wrap_word w enc x y maxWidth fontSize st2 word).
Proof.
  intros (Hy & Hl & Ht & Hd). unfold wrap_word. cbv zeta. rewrite Hy, Hl, Ht.
  destruct (thrown st2) eqn:E2; [same_cursor |].
  destruct (w _ _); [| same_cursor].
  destruct (Qlt_bool _ _ && _); [| same_cursor].
  destruct (enc _) as [[] |]; [| same_cursor].
  same_cursor. rewrite Hd. now rewrite app_assoc.
Qed.

Lemma fold_wrap_word_extends (pre : list DrawOp) (x y maxWidth fontSize : Q)
  (words : list string) (st1 st2 : WrapState) :
  extends pre st1 st2 →
  extends pre (fold_left (wrap_word w enc x y maxWidth fontSize) words st1)
              (fold_left (wrap_word w enc x y maxWidth fontSize) words st2).
Proof.
  revert st1 st2. induction words as [| wd words IH]; intros st1 st2 H; simpl.
  - exact H.
  - apply IH. now apply wrap_word_extends.
Qed.

Lemma wrap_paragraph_extends (pre : list DrawOp) (x y maxWidth fontSize : Q)
  (st1 st2 : WrapState) (paragraph : string) :
  extends pre st1 st2 →
  extends pre (wrap_paragraph w enc x y maxWidth fontSize st1 paragraph)
              (wrap_paragraph w enc x y maxWidth fontSize st2 paragraph).
Proof.
  intros (Hy & Hl & Ht & Hd). unfold wrap_paragraph. cbv zeta. rewrite Ht.
  destruct (thrown st2) eqn:E2; [same_cursor |].
  destruct (negb (truthy (trim paragraph))); [same_cursor |].
  assert (H : extends pre
                (fold_left (wrap_word w enc x y maxWidth fontSize)
                   (split_on " " paragraph)
                   {| ws_page := ws_page st1; yOffset := yOffset st1; line := "";
                      thrown := None |})
                (fold_left (wrap_word w enc x y maxWidth fontSize)
                   (split_on " " paragraph)
                   {| ws_page := ws_page st2; yOffset := yOffset st2; line := "";
                      thrown := None |})).
  { apply fold_wrap_word_extends. same_cursor. }
  pose proof H as (Hy' & Hl' & Ht' & Hd'). rewrite Ht', Hl'.
  destruct (thrown (fold_left _ _ {| ws_page := ws_page st2; yOffset := _;
                                     line := _; thrown := _ |}));
    [exact H |].
  destruct (truthy _); [| exact H].
  destruct (enc _) as [[] |]; [| same_cursor].
  same_cursor. rewrite Hy', Hd'. now rewrite app_assoc.
Qed.

Lemma fold_wrap_paragraph_extends (pre : list DrawOp) (x y maxWidth fontSize : Q)
  (paragraphs : list string) (st1 st2 : WrapState) :
  extends pre st1 st2 →
  extends pre (fold_left (wrap_paragraph w enc x y maxWidth fontSize) paragraphs st1)
              (fold_left (wrap_paragraph w enc x y maxWidth fontSize) paragraphs st2).
Proof.
  revert st1 st2. induction paragraphs as [| p ps IH]; intros st1 st2 H; simpl.
  - exact H.
  - apply IH. now apply wrap_paragraph_extends.
Qed.

Lemma wrap_word_getSize (x y maxWidth fontSize : Q) (st : WrapState) (word : string) :
  getSize (ws_page (wrap_word w enc x y maxWidth fontSize st word)) = getSize (ws_page st).
Proof. word_cases st; reflexivity. Qed.

Lemma fold_wrap_word_getSize (x y maxWidth fontSize : Q) (words : list string)
  (st : WrapState) :
  getSize (ws_page (fold_left (wrap_word w enc x y maxWidth fontSize) words st))
  = getSize (ws_page st).
Proof.
  revert st. induction words as [| wd words IH]; intros st; simpl; [reflexivity |].
  rewrite IH. apply wrap_word_getSize.
Qed.

Lemma wrap_paragraph_getSize (x y maxWidth fontSize : Q) (st : WrapState)
  (paragraph : string) :
  getSize (ws_page (wrap_paragraph w enc x y maxWidth fontSize st paragraph))
  = getSize (ws_page st).
Proof.
  pose proof (fold_wrap_word_getSize x y maxWidth fontSize (split_on " " paragraph)
                {| ws_page := ws_page st; yOffset := yOffset st; line := "";
                   thrown := None |}) as H.
  paragraph_cases st loop_end; try reflexivity; exact H.
Qed.

Lemma fold_wrap_paragraph_getSize (x y maxWidth fontSize : Q)
  (paragraphs : list string) (st : WrapState) :
  getSize (ws_page (fold_left (wrap_paragraph w enc x y maxWidth fontSize) paragraphs st))
  = getSize (ws_page st).
Proof.
  revert st. induction paragraphs as [| p ps IH]; intros st; simpl; [reflexivity |].
  rewrite IH. apply wrap_paragraph_getSize.
Qed.

(** What [drawTextWithWrapping] adds to a page, and whether it throws, do
    not depend on what the page already carries. *)
Lemma drawTextWithWrapping_frame (page : PDFPage) (text : string)
  (x y maxWidth fontSize : Q) :
  drawn (fst (drawTextWithWrapping w enc page text
                x y maxWidth fontSize))
  = drawn page ++ text_ops w enc text x y maxWidth fontSize ∧
  snd (drawTextWithWrapping w enc page text
         x y maxWidth fontSize)
  = text_status w enc text x y maxWidth fontSize ∧
  getSize (fst (drawTextWithWrapping w enc page text
                  x y maxWidth fontSize))
  = getSize page.
Proof.
  unfold text_ops, text_status, drawTextWithWrapping. cbv zeta. cbn [fst snd].
  destruct (fold_wrap_paragraph_extends (drawn page) x y maxWidth fontSize
              (split_on "010" text)
              {| ws_page := page; yOffset := 0; line := ""; thrown := None |}
              {| ws_page := blank_page {| page_width := 0; page_height := 0 |};
                 yOffset := 0; line := ""; thrown := None |})
    as (_ & _ & Ht & Hd).
  { unfold extends, blank_page. simpl. repeat split. now rewrite app_nil_r. }
  split; [exact Hd |]. split; [now rewrite Ht |].
  apply fold_wrap_paragraph_getSize.
Qed.

(** *** An exception ends the loops *)

Lemma fold_wrap_word_thrown (x y maxWidth fontSize : Q) (words : list string)
  (st : WrapState) (e : string) :
  thrown st = Some e → fold_left (wrap_word w enc x y maxWidth fontSize) words st = st.
Proof.
  intros H. induction words as [| wd words IH]; simpl; [reflexivity |].
  unfold wrap_word at 2. rewrite H. exact IH.
Qed.

Lemma fold_wrap_paragraph_thrown (x y maxWidth fontSize : Q)
  (paragraphs : list string) (st : WrapState) (e : string) :
  thrown st = Some e →
  fold_left (wrap_paragraph w enc x y maxWidth fontSize) paragraphs st = st.
Proof.
  intros H. induction paragraphs as [| p ps IH]; simpl; [reflexivity |].
  unfold wrap_paragraph at 2. rewrite H. exact IH.
Qed.

(** *** The redraw issues text operations only *)

Lemma wrap_word_text_only (x y maxWidth fontSize : Q) (st : WrapState) (word : string) :
  Forall is_text_op (drawn (ws_page st)) →
  Forall is_text_op (drawn (ws_page (wrap_word w enc x y maxWidth fontSize st word))).
Proof.
  intros H. word_cases st; cbn [ws_page drawText drawn]; try exact H.
  apply Forall_app. split; [exact H |]. repeat constructor.
Qed.

Lemma fold_wrap_word_text_only (x y maxWidth fontSize : Q) (words : list string)
  (st : WrapState) :
  Forall is_text_op (drawn (ws_page st)) →
  Forall is_text_op
    (drawn (ws_page (fold_left (wrap_word w enc x y maxWidth fontSize) words st))).
Proof.
  revert st. induction words as [| wd words IH]; intros st H; simpl; [exact H |].
  apply IH. now apply wrap_word_text_only.
Qed.

Lemma wrap_paragraph_text_only (x y maxWidth fontSize : Q) (st : WrapState)
  (paragraph : string) :
  Forall is_text_op (drawn (ws_page st)) →
  Forall is_text_op
    (drawn (ws_page (wrap_paragraph w enc x y maxWidth fontSize st paragraph))).
Proof.
  intros H.
  pose proof (fold_wrap_word_text_only x y maxWidth fontSize (split_on " " paragraph)
                {| ws_page := ws_page st; yOffset := yOffset st; line := "";
                   thrown := None |} H) as Hf.
  paragraph_cases st loop_end; cbn [ws_page drawText drawn]; try exact H; try exact Hf.
  apply Forall_app. split; [exact Hf |]. repeat constructor.
Qed.

(** The redraw of a text issues text operations only. *)
Lemma text_ops_text_only (text : string) (x y maxWidth fontSize : Q) :
  Forall is_text_op (text_ops w enc text x y maxWidth fontSize).
Proof.
  unfold text_ops, drawTextWithWrapping. cbv zeta. cbn [fst].
  generalize (split_on "010" text). intros ps.
  assert (H : Forall is_text_op
                (drawn (ws_page {| ws_page := blank_page {| page_width := 0;
                                                             page_height := 0 |};
                                   yOffset := 0; line := ""; thrown := None |})))
    by constructor.
  revert H. generalize {| ws_page := blank_page {| page_width := 0; page_height := 0 |};
                          yOffset := 0; line := ""; thrown := None |}.
  induction ps as [| p ps IH]; intros st H; simpl; [exact H |].
  apply IH. now apply wrap_paragraph_text_only.
Qed.

(** *** The lines rise from the ordinate the redraw starts at *)

Lemma rising_draw (y fontSize step : Q) (x : Q) (st : WrapState) (s l' : string)
  (t : option string) :
  (0 < step)%Q →
  rising_below_cursor y st →
  rising_below_cursor y
    {| ws_page := drawText (ws_page st) s x (y + yOffset st)%Q fontSize;
       yOffset := (yOffset st + step)%Q;
       line := l';
       thrown := t |}.
Proof.
  intros Hstep [Hs Hb]. unfold rising_below_cursor. simpl.
  rewrite map_app. simpl. split.
  - now apply StronglySorted_snoc.
  - apply Forall_app. split.
    + eapply List.Forall_impl; [| exact Hb]. simpl. intros v Hv. lra.
    + repeat constructor. lra.
Qed.

Lemma wrap_word_rising (x y maxWidth fontSize : Q) (st : WrapState) (word : string) :
  (0 < fontSize)%Q →
  rising_below_cursor y st →
  rising_below_cursor y (wrap_word w enc x y maxWidth fontSize st word).
Proof.
  intros Hfs H. word_cases st; try exact H.
  apply rising_draw; [lra | exact H].
Qed.

Lemma fold_wrap_word_rising (x y maxWidth fontSize : Q) (words : list string)
  (st : WrapState) :
  (0 < fontSize)%Q →
  rising_below_cursor y st →
  rising_below_cursor y (fold_left (wrap_word w enc x y maxWidth fontSize) words st).
Proof.
  intros Hfs. revert st. induction words as [| wd words IH]; intros st H; simpl.
  - exact H.
  - apply IH. now apply wrap_word_rising.
Qed.

Lemma wrap_paragraph_rising (x y maxWidth fontSize : Q) (st : WrapState)
  (paragraph : string) :
  (0 < fontSize)%Q →
  rising_below_cursor y st →
  rising_below_cursor y (wrap_paragraph w enc x y maxWidth fontSize st paragraph).
Proof.
  intros Hfs H.
  pose proof (fold_wrap_word_rising x y maxWidth fontSize (split_on " " paragraph)
                {| ws_page := ws_page st; yOffset := yOffset st; line := "";
                   thrown := None |} Hfs H) as Hf.
  paragraph_cases st loop_end; try exact H; try exact Hf.
  - destruct H as [Hs Hb]. split; simpl; [exact Hs |].
    eapply List.Forall_impl; [| exact Hb]. simpl. intros v Hv. lra.
  - apply rising_draw; [lra | exact Hf].
Qed.

Lemma fold_wrap_paragraph_rising (x y maxWidth fontSize : Q)
  (paragraphs : list string) (st : WrapState) :
  (0 < fontSize)%Q →
  rising_below_cursor y st →
  rising_below_cursor y
    (fold_left (wrap_paragraph w enc x y maxWidth fontSize) paragraphs st).
Proof.
  intros Hfs. revert st. induction paragraphs as [| p ps IH]; intros st H; simpl.
  - exact H.
  - apply IH. now apply wrap_paragraph_rising.
Qed.

Lemma from_origin_draw (y fontSize step : Q) (x : Q) (st : WrapState) (s l' : string)
  (t : option string) :
  (0 <= step)%Q →
  from_origin y st →
  from_origin y
    {| ws_page := drawText (ws_page st) s x (y + yOffset st)%Q fontSize;
       yOffset := (yOffset st + step)%Q;
       line := l';
       thrown := t |}.
Proof.
  intros Hstep [H0 Hb]. unfold from_origin. simpl. split; [lra |].
  rewrite map_app. apply Forall_app. split; [exact Hb |].
  repeat constructor. simpl. lra.
Qed.

Lemma wrap_word_from_origin (x y maxWidth fontSize : Q) (st : WrapState)
  (word : string) :
  (0 < fontSize)%Q →
  from_origin y st →
  from_origin y (wrap_word w enc x y maxWidth fontSize st word).
Proof.
  intros Hfs H. word_cases st; try exact H.
  apply from_origin_draw; [lra | exact H].
Qed.

Lemma fold_wrap_word_from_origin (x y maxWidth fontSize : Q) (words : list string)
  (st : WrapState) :
  (0 < fontSize)%Q →
  from_origin y st →
  from_origin y (fold_left (wrap_word w enc x y maxWidth fontSize) words st).
Proof.
  intros Hfs. revert st. induction words as [| wd words IH]; intros st H; simpl.
  - exact H.
  - apply IH. now apply wrap_word_from_origin.
Qed.

Lemma wrap_paragraph_from_origin (x y maxWidth fontSize : Q) (st : WrapState)
  (paragraph : string) :
  (0 < fontSize)%Q →
  from_origin y st →
  from_origin y (wrap_paragraph w enc x y maxWidth fontSize st paragraph).
Proof.
  intros Hfs H.
  pose proof (fold_wrap_word_from_origin x y maxWidth fontSize (split_on " " paragraph)
                {| ws_page := ws_page st; yOffset := yOffset st; line := "";
                   thrown := None |} Hfs H) as Hf.
  paragraph_cases st loop_end; try exact H; try exact Hf.
  - destruct H as [H0 Hb]. split; simpl; [lra | exact Hb].
  - apply from_origin_draw; [lra | exact Hf].
Qed.

Lemma fold_wrap_paragraph_from_origin (x y maxWidth fontSize : Q)
  (paragraphs : list string) (st : WrapState) :
  (0 < fontSize)%Q →
  from_origin y st →
  from_origin y
    (fold_left (wrap_paragraph w enc x y maxWidth fontSize) paragraphs st).
Proof.
  intros Hfs. revert st. induction paragraphs as [| p ps IH]; intros st H; simpl.
  - exact H.
  - apply IH. now apply wrap_paragraph_from_origin.
Qed.

(** Whatever the font and the text, the lines of a redraw are drawn at
    strictly growing ordinates, in the order in which they are read, the
    first of them at the ordinate handed in. *)
Lemma text_ops_ordinates_rise (text : string) (x y maxWidth fontSize : Q) :
  (0 < fontSize)%Q →
  StronglySorted Qlt (List.map ordinate (text_ops w enc text x y maxWidth fontSize)).
Proof.
  intros Hfs. unfold text_ops, drawTextWithWrapping. cbv zeta. cbn [fst].
  apply (fold_wrap_paragraph_rising x y maxWidth fontSize); [exact Hfs |].
  split; constructor.
Qed.

Lemma text_ops_from_origin (text : string) (x y maxWidth fontSize : Q) :
  (0 < fontSize)%Q →
  Forall (λ op, (y <= ordinate op)%Q) (text_ops w enc text x y maxWidth fontSize).
Proof.
  intros Hfs. unfold text_ops, drawTextWithWrapping. cbv zeta. cbn [fst].
  apply List.Forall_map.
  apply (fold_wrap_paragraph_from_origin x y maxWidth fontSize); [exact Hfs |].
  split; [simpl; lra | constructor].
Qed.

(** *** The lines fit the box or are one word *)

Lemma wrap_word_line_ok (x y maxWidth fontSize : Q) (st : WrapState) (word : string) :
  mentions " " word = false →
  line_ok w x maxWidth fontSize st →
  line_ok w x maxWidth fontSize (wrap_word w enc x y maxWidth fontSize st word).
Proof.
  intros Hword [Hops Hline]. word_cases st; try (split; assumption).
  - apply andb_true_iff in Eflush. destruct Eflush as [_ Hne].
    apply negb_true_iff in Hne.
    destruct (String.eqb_spec (line st) "") as [He | Hne']; [discriminate Hne |].
    split; cbn [ws_page line drawText drawn]; [| right; right; exact Hword].
    apply Forall_app. split; [exact Hops |]. constructor; [| constructor].
    simpl. repeat split; [exact Hne' |].
    destruct Hline as [H | H]; [contradiction | exact H].
  - split; cbn [ws_page line]; [exact Hops |].
    apply andb_false_iff in Eflush. destruct Eflush as [Hfit | Hempty].
    + right. left. exists testWidth. split; [exact Ewidth |].
      now apply Qlt_bool_false_iff.
    + apply negb_false_iff in Hempty.
      destruct (String.eqb_spec (line st) "") as [He | Hne]; [| discriminate Hempty].
      right. right. rewrite He. exact Hword.
Qed.

Lemma fold_wrap_word_line_ok (x y maxWidth fontSize : Q) (words : list string)
  (st : WrapState) :
  Forall (λ wd, mentions " " wd = false) words →
  line_ok w x maxWidth fontSize st →
  line_ok w x maxWidth fontSize
    (fold_left (wrap_word w enc x y maxWidth fontSize) words st).
Proof.
  intros Hw. revert st. induction Hw as [| wd words Hwd _ IH]; intros st H; simpl.
  - exact H.
  - apply IH. now apply wrap_word_line_ok.
Qed.

Lemma wrap_paragraph_line_ok (x y maxWidth fontSize : Q) (st : WrapState)
  (paragraph : string) :
  Forall (wrapped_line w x maxWidth fontSize) (drawn (ws_page st)) →
  Forall (wrapped_line w x maxWidth fontSize)
    (drawn (ws_page (wrap_paragraph w enc x y maxWidth fontSize st paragraph))).
Proof.
  intros Hops.
  assert (H : line_ok w x maxWidth fontSize
                (fold_left (wrap_word w enc x y maxWidth fontSize)
                   (split_on " " paragraph)
                   {| ws_page := ws_page st; yOffset := yOffset st; line := "";
                      thrown := None |})).
  { apply fold_wrap_word_line_ok.
    - now apply split_on_from_clean.
    - split; simpl; [exact Hops | now left]. }
  paragraph_cases st loop_end; cbn [ws_page drawText drawn]; try exact Hops;
    try exact (proj1 H).
  destruct H as [Hops' Hline'].
  apply Forall_app. split; [exact Hops' |]. constructor; [| constructor].
  assert (Hne : line loop_end ≠ "").
  { intros He. apply truthy_empty in He. congruence. }
  simpl. repeat split; [exact Hne |].
  destruct Hline' as [H | H]; [contradiction | exact H].
Qed.

Lemma fold_wrap_paragraph_line_ok (x y maxWidth fontSize : Q)
  (paragraphs : list string) (st : WrapState) :
  Forall (wrapped_line w x maxWidth fontSize) (drawn (ws_page st)) →
  Forall (wrapped_line w x maxWidth fontSize)
    (drawn (ws_page (fold_left (wrap_paragraph w enc x y maxWidth fontSize)
                               paragraphs st))).
Proof.
  revert st. induction paragraphs as [| p ps IH]; intros st H; simpl; [exact H |].
  apply IH. now apply wrap_paragraph_line_ok.
Qed.

(** *** No word is lost when the redraw returns *)

Lemma wrap_word_words_kept (x y maxWidth fontSize : Q) (base ws : list string)
  (st : WrapState) (word : string) :
  mentions " " word = false →
  words_kept base ws st →
  thrown (wrap_word w enc x y maxWidth fontSize st word) = None →
  words_kept base (ws ++ [word]) (wrap_word w enc x y maxWidth fontSize st word).
Proof.
  intros Hword H. unfold words_kept in *.
  word_cases st; cbn [ws_page line thrown drawText drawn]; intros Hnone;
    try congruence; rewrite List.filter_app, app_assoc, <- H.
  - rewrite words_drawn_snoc, (nonempty_words_word _ Hword). reflexivity.
  - destruct (String.eqb_spec (line st) "") as [He | Hne].
    + rewrite He. change (truthy "") with false. cbv iota.
      change ("" +:+ "" +:+ word) with word.
      rewrite (nonempty_words_word _ Hword).
      change (nonempty_words "") with (@nil string).
      now rewrite app_nil_r.
    + assert (Ht : truthy (line st) = true).
      { unfold truthy.
        destruct (String.eqb_spec (line st) ""); [contradiction | reflexivity]. }
      rewrite Ht. change (" " +:+ word) with (String " " word).
      rewrite (nonempty_words_app _ _ Hword). now rewrite app_assoc.
Qed.

Lemma fold_wrap_word_words_kept (x y maxWidth fontSize : Q) (base : list string)
  (words ws : list string) (st : WrapState) :
  Forall (λ wd, mentions " " wd = false) words →
  words_kept base ws st →
  thrown (fold_left (wrap_word w enc x y maxWidth fontSize) words st) = None →
  words_kept base (ws ++ words)
             (fold_left (wrap_word w enc x y maxWidth fontSize) words st).
Proof.
  intros Hw. revert ws st.
  induction Hw as [| wd words Hwd _ IH]; intros ws st H Hnone; simpl.
  - now rewrite app_nil_r.
  - simpl in Hnone.
    replace (ws ++ wd :: words) with ((ws ++ [wd]) ++ words)
      by now rewrite <- app_assoc.
    apply IH; [| exact Hnone].
    apply wrap_word_words_kept; [exact Hwd | exact H |].
    destruct (thrown (wrap_word w enc x y maxWidth fontSize st wd)) as [e |] eqn:E;
      [| reflexivity].
    rewrite (fold_wrap_word_thrown _ _ _ _ _ _ _ E) in Hnone. congruence.
Qed.

Lemma wrap_paragraph_words (x y maxWidth fontSize : Q) (st : WrapState)
  (paragraph : string) :
  thrown (wrap_paragraph w enc x y maxWidth fontSize st paragraph) = None →
  words_drawn (drawn (ws_page (wrap_paragraph w enc x y maxWidth fontSize st
                                              paragraph)))
  = words_drawn (drawn (ws_page st))
    ++ (if truthy (trim paragraph) then nonempty_words paragraph else []).
Proof.
  pose proof (fold_wrap_word_words_kept x y maxWidth fontSize
                (words_drawn (drawn (ws_page st))) (split_on " " paragraph) []
                {| ws_page := ws_page st; yOffset := yOffset st; line := "";
                   thrown := None |}
                (split_on_from_clean " " paragraph "" eq_refl) eq_refl) as H.
  paragraph_cases st loop_end; cbn [ws_page line thrown drawText drawn]; intros Hnone;
    try congruence.
  - apply negb_true_iff in Eblank. rewrite Eblank. now rewrite app_nil_r.
  - apply negb_false_iff in Eblank. rewrite Eblank.
    rewrite words_drawn_snoc. apply (H eq_refl).
  - apply negb_false_iff in Eblank. rewrite Eblank.
    specialize (H eq_refl). unfold words_kept in H.
    apply truthy_empty in Etruthy. rewrite Etruthy in H.
    change (nonempty_words "") with (@nil string) in H.
    now rewrite app_nil_r in H.
Qed.

Lemma fold_wrap_paragraph_words (x y maxWidth fontSize : Q)
  (paragraphs : list string) (st : WrapState) :
  thrown (fold_left (wrap_paragraph w enc x y maxWidth fontSize) paragraphs st)
  = None →
  words_drawn (drawn (ws_page (fold_left (wrap_paragraph w enc x y maxWidth fontSize)
                                         paragraphs st)))
  = words_drawn (drawn (ws_page st))
    ++ flat_map (λ p, if truthy (trim p) then nonempty_words p else []) paragraphs.
Proof.
  revert st. induction paragraphs as [| p ps IH]; intros st Hnone; simpl.
  - now rewrite app_nil_r.
  - simpl in Hnone. rewrite (IH _ Hnone), wrap_paragraph_words.
    + now rewrite <- app_assoc.
    + destruct (thrown (wrap_paragraph w enc x y maxWidth fontSize st p))
        as [e |] eqn:E; [| reflexivity].
      rewrite (fold_wrap_paragraph_thrown _ _ _ _ _ _ _ E) in Hnone. congruence.
Qed.

(** *** The redraw returns when the font accepts the text *)

Lemma wrap_word_accepted (text : string) (x y maxWidth fontSize : Q)
  (st : WrapState) (word : string) :
  font_accepts w enc fontSize text →
  written_with text word →
  thrown st = None ∧ written_with text (line st) →
  thrown (wrap_word w enc x y maxWidth fontSize st word) = None ∧
  written_with text (line (wrap_word w enc x y maxWidth fontSize st word)).
Proof.
  intros Hfont Hword [Hnone Hline].
  assert (Htest : written_with text
                    (line st +:+ (if truthy (line st) then " " else "") +:+ word)).
  { apply written_with_append; [exact Hline |].
    apply written_with_append; [| exact Hword].
    destruct (truthy (line st));
      [apply written_with_space | apply written_with_empty]. }
  word_cases st; cbn [line thrown]; try congruence.
  - split; [reflexivity | exact Hword].
  - rewrite (proj2 (Hfont _ Hline)) in Eenc. discriminate Eenc.
  - split; [reflexivity | exact Htest].
  - destruct (proj1 (Hfont _ Htest)) as [v Hv]. rewrite Hv in Ewidth.
    discriminate Ewidth.
Qed.

Lemma fold_wrap_word_accepted (text : string) (x y maxWidth fontSize : Q)
  (words : list string) (st : WrapState) :
  font_accepts w enc fontSize text →
  Forall (written_with text) words →
  thrown st = None ∧ written_with text (line st) →
  thrown (fold_left (wrap_word w enc x y maxWidth fontSize) words st) = None ∧
  written_with text
    (line (fold_left (wrap_word w enc x y maxWidth fontSize) words st)).
Proof.
  intros Hfont Hw. revert st.
  induction Hw as [| wd words Hwd _ IH]; intros st H; simpl; [exact H |].
  apply IH. now apply wrap_word_accepted.
Qed.

Lemma wrap_paragraph_accepted (text : string) (x y maxWidth fontSize : Q)
  (st : WrapState) (paragraph : string) :
  font_accepts w enc fontSize text →
  written_with text paragraph →
  thrown st = None →
  thrown (wrap_paragraph w enc x y maxWidth fontSize st paragraph) = None.
Proof.
  intros Hfont Hp Hnone.
  destruct (fold_wrap_word_accepted text x y maxWidth fontSize
              (split_on " " paragraph)
              {| ws_page := ws_page st; yOffset := yOffset st; line := "";
                 thrown := None |} Hfont (words_written_with _ _ Hp))
    as [Hlast Hline].
  { split; [reflexivity | apply written_with_empty]. }
  paragraph_cases st loop_end; cbn [thrown]; try congruence.
  rewrite (proj2 (Hfont _ Hline)) in Eenc. discriminate Eenc.
Qed.

Lemma fold_wrap_paragraph_accepted (text : string) (x y maxWidth fontSize : Q)
  (paragraphs : list string) (st : WrapState) :
  font_accepts w enc fontSize text →
  Forall (written_with text) paragraphs →
  thrown st = None →
  thrown (fold_left (wrap_paragraph w enc x y maxWidth fontSize) paragraphs st)
  = None.
Proof.
  intros Hfont Hp. revert st.
  induction Hp as [| p ps Hp _ IH]; intros st H; simpl; [exact H |].
  apply IH. now apply (wrap_paragraph_accepted text).
Qed.

(** A font that measures and encodes every string written with the
    characters of the text lets the redraw return. *)
Lemma text_status_accepted (text : string) (x y maxWidth fontSize : Q) :
  font_accepts w enc fontSize text →
  text_status w enc text x y maxWidth fontSize = Ok tt.
Proof.
  intros Hfont. unfold text_status, drawTextWithWrapping. cbv zeta. cbn [snd].
  rewrite (fold_wrap_paragraph_accepted text x y maxWidth fontSize
             (split_on "010" text)
             {| ws_page := blank_page {| page_width := 0; page_height := 0 |};
                yOffset := 0; line := ""; thrown := None |}
             Hfont (paragraphs_written_with text) eq_refl).
  reflexivity.
Qed.

(** When the redraw returns, the lines drawn hold the words of the text,
    none lost and none out of order. *)
Lemma text_ops_words (text : string) (x y maxWidth fontSize : Q) :
  text_status w enc text x y maxWidth fontSize = Ok tt →
  words_drawn (text_ops w enc text x y maxWidth fontSize) = words_of_text text.
Proof.
  unfold text_status, text_ops, words_of_text, drawTextWithWrapping.
  cbv zeta. cbn [fst snd]. intros Hok.
  rewrite fold_wrap_paragraph_words; [reflexivity |].
  destruct (thrown _); [discriminate Hok | reflexivity].
Qed.

Lemma text_ops_wrapped (text : string) (x y maxWidth fontSize : Q) :
  Forall (wrapped_line w x maxWidth fontSize)
         (text_ops w enc text x y maxWidth fontSize).
Proof.
  unfold text_ops, drawTextWithWrapping. cbv zeta. cbn [fst].
  apply fold_wrap_paragraph_line_ok. constructor.
Qed.

(** *** The steps of the loop, one by one *)

(** An empty or white-space paragraph moves the cursor by one line height
    and draws nothing. *)
Lemma wrap_paragraph_blank (x y maxWidth fontSize : Q) (st : WrapState)
  (paragraph : string) :
  thrown st = None →
  trim paragraph = "" →
  wrap_paragraph w enc x y maxWidth fontSize st paragraph
  = {| ws_page := ws_page st; yOffset := (yOffset st + fontSize * 1.2)%Q; line := "";
       thrown := None |}.
Proof. intros Hnone H. unfold wrap_paragraph. now rewrite Hnone, H. Qed.

(** A word that starts a line is taken whatever its width, once the font
    has measured it. *)
Lemma wrap_word_first (x y maxWidth fontSize : Q) (st : WrapState) (word : string)
  (v : Q) :
  thrown st = None →
  line st = "" →
  w word fontSize = Ok v →
  wrap_word w enc x y maxWidth fontSize st word
  = {| ws_page := ws_page st; yOffset := yOffset st; line := word; thrown := None |}.
Proof.
  intros Hnone H Hv. unfold wrap_word. cbv zeta. rewrite Hnone, H.
  change ("" +:+ (if truthy "" then " " else "") +:+ word) with word.
  rewrite Hv. simpl. rewrite andb_false_r. reflexivity.
Qed.

(** A word that does not fit after a non-empty line flushes the line at the
    cursor and moves the cursor by one line height. *)
Lemma wrap_word_flush (x y maxWidth fontSize : Q) (st : WrapState) (word : string)
  (v : Q) :
  thrown st = None →
  line st ≠ "" →
  w (line st +:+ " " +:+ word) fontSize = Ok v →
  (maxWidth < v)%Q →
  enc (line st) = Ok tt →
  wrap_word w enc x y maxWidth fontSize st word
  = {| ws_page := drawText (ws_page st) (line st) x (y + yOffset st)%Q fontSize;
       yOffset := (yOffset st + fontSize * 1.2)%Q;
       line := word;
       thrown := None |}.
Proof.
  intros Hnone Hne Hv Hw Henc. unfold wrap_word. cbv zeta. rewrite Hnone.
  assert (Ht : truthy (line st) = true).
  { unfold truthy. destruct (String.eqb_spec (line st) ""); [contradiction | reflexivity]. }
  rewrite Ht, Hv, Henc. apply Qlt_bool_iff in Hw. rewrite Hw.
  unfold truthy in Ht. rewrite Ht. reflexivity.
Qed.

(** A text the font cannot measure makes the word loop throw before
    anything more is drawn. *)
Lemma wrap_word_throws (x y maxWidth fontSize : Q) (st : WrapState) (word : string)
  (e : string) :
  thrown st = None →
  w (line st +:+ (if truthy (line st) then " " else "") +:+ word) fontSize = Throw e →
  wrap_word w enc x y maxWidth fontSize st word
  = {| ws_page := ws_page st; yOffset := yOffset st; line := line st;
       thrown := Some e |}.
Proof. intros Hnone He. unfold wrap_word. cbv zeta. now rewrite Hnone, He. Qed.

(** *** The loops over blocks and pages *)

Lemma apply_block_frame (height : Q) (page : PDFPage) (block : TextBlock) :
  drawn (fst (apply_block w enc height page block))
  = drawn page ++ block_ops w enc height block ∧
  snd (apply_block w enc height page block) = block_status w enc height block ∧
  getSize (fst (apply_block w enc height page block)) = getSize page.
Proof.
  unfold apply_block, block_status. cbv zeta.
  match goal with
  | |- context [drawTextWithWrapping w enc ?p ?t ?x ?y ?mw ?fs] =>
      destruct (drawTextWithWrapping_frame p t x y mw fs) as (Hd & Hs & Hg)
  end.
  rewrite Hd, Hs, Hg. split; [| split; reflexivity].
  unfold drawRectangle, block_ops, rgb. simpl. now rewrite <- app_assoc.
Qed.

(** The loop over the modified blocks of a page returns exactly when the
    redraw of each block does, and then the page carries the operations of
    the blocks, one block after the other. *)
Lemma apply_blocks_frame (height : Q) (bs : list TextBlock) (page : PDFPage) :
  getSize (fst (apply_blocks w enc height bs page)) = getSize page ∧
  (snd (apply_blocks w enc height bs page) = Ok tt
   ↔ Forall (λ b, block_status w enc height b = Ok tt) bs) ∧
  (snd (apply_blocks w enc height bs page) = Ok tt →
   drawn (fst (apply_blocks w enc height bs page))
   = drawn page ++ flat_map (block_ops w enc height) bs).
Proof.
  revert page. induction bs as [| b bs IH]; intros page; cbn [apply_blocks].
  - split; [reflexivity |]. split.
    + split; [constructor | reflexivity].
    + intros _. simpl. now rewrite app_nil_r.
  - destruct (apply_block_frame height page b) as (Hd & Hs & Hg).
    destruct (apply_block w enc height page b) as [page' r].
    cbn [fst snd] in Hd, Hs, Hg. destruct r as [[] | e].
    + destruct (IH page') as (Hg' & Hiff & Hd'). split; [congruence |]. split.
      * rewrite Hiff. split.
        -- intros H. constructor; [now symmetry | exact H].
        -- intros H. apply Forall_cons_iff in H. apply H.
      * intros Hok. rewrite (Hd' Hok), Hd. simpl. now rewrite <- app_assoc.
    + cbn [fst snd]. split; [exact Hg |]. split; [| discriminate].
      split; [discriminate |].
      intros H. apply Forall_cons_iff in H. destruct H as [H _]. congruence.
Qed.

Lemma render_page_run (textMap : PdfTextMap) (pages : list PDFPage) (i : nat) :
  render_page w enc textMap pages i
  = match pages !! i with
    | None => (pages, Ok tt)
    | Some page => (<[i := fst (rendered w enc textMap i page)]> pages,
                    snd (rendered w enc textMap i page))
    end.
Proof.
  unfold render_page, rendered, modified_on_page.
  destruct (pages !! i) as [page |]; [| reflexivity].
  cbv zeta. destruct (apply_blocks _ _ _ _ _) as [page' r]. reflexivity.
Qed.

(** The loop over the pages returns exactly when the turn of each page
    does, and then each page is as its own turn has left it. *)
Lemma render_from_seq (textMap : PdfTextMap) (n k : nat) (pages : list PDFPage) :
  length (fst (render_from w enc textMap (seq k n) pages)) = length pages ∧
  (snd (render_from w enc textMap (seq k n) pages) = Ok tt
   ↔ ∀ j page, (k ≤ j < k + n)%nat → pages !! j = Some page →
               snd (rendered w enc textMap j page) = Ok tt) ∧
  (snd (render_from w enc textMap (seq k n) pages) = Ok tt →
   ∀ j, fst (render_from w enc textMap (seq k n) pages) !! j
        = if decide (k ≤ j < k + n)%nat
          then (λ page, fst (rendered w enc textMap j page)) <$> pages !! j
          else pages !! j).
Proof.
  revert k pages. induction n as [| n IH]; intros k pages; cbn [seq render_from].
  - split; [reflexivity |]. split.
    + split; [intros _ j page Hj; lia | reflexivity].
    + intros _ j. rewrite decide_False by lia. reflexivity.
  - rewrite render_page_run. destruct (pages !! k) as [page |] eqn:Ek.
    + destruct (snd (rendered w enc textMap k page)) as [[] | e] eqn:Es.
      * destruct (IH (S k) (<[k := fst (rendered w enc textMap k page)]> pages))
          as (Hlen & Hiff & Hlook).
        split; [rewrite Hlen; apply length_insert |]. split.
        -- rewrite Hiff. split.
           ++ intros H j pg Hj Hpg. destruct (decide (j = k)) as [-> | Hne].
              ** rewrite Ek in Hpg. injection Hpg as <-. exact Es.
              ** apply H; [lia |]. rewrite list_lookup_insert_ne by congruence.
                 exact Hpg.
           ++ intros H j pg Hj Hpg. rewrite list_lookup_insert_ne in Hpg by lia.
              apply H; [lia | exact Hpg].
        -- intros Hok j. rewrite (Hlook Hok).
           destruct (decide (j = k)) as [-> | Hne].
           ++ rewrite decide_False by lia. rewrite decide_True by lia.
              rewrite list_lookup_insert_eq by (eapply lookup_lt_Some; exact Ek).
              rewrite Ek. reflexivity.
           ++ rewrite list_lookup_insert_ne by congruence.
              destruct (decide (S k ≤ j < S k + n)%nat).
              ** rewrite decide_True by lia. reflexivity.
              ** rewrite decide_False by lia. reflexivity.
      * cbn [fst snd]. split; [apply length_insert |]. split; [| discriminate].
        split; [discriminate |].
        intros H. rewrite <- Es. apply (H k page); [lia | exact Ek].
    + destruct (IH (S k) pages) as (Hlen & Hiff & Hlook).
      split; [exact Hlen |]. split.
      * rewrite Hiff. split; intros H j pg Hj Hpg.
        -- apply H; [| exact Hpg]. destruct (decide (j = k)); [congruence | lia].
        -- apply H; [lia | exact Hpg].
      * intros Hok j. rewrite (Hlook Hok).
        destruct (decide (j = k)) as [-> | Hne].
        -- rewrite decide_False by lia. rewrite decide_True by lia.
           rewrite Ek. reflexivity.
        -- destruct (decide (S k ≤ j < S k + n)%nat).
           ++ rewrite decide_True by lia. reflexivity.
           ++ rewrite decide_False by lia. reflexivity.
Qed.

Lemma render_pages_run (textMap : PdfTextMap) (pages : list PDFPage) :
  length (fst (render_pages w enc textMap pages)) = length pages ∧
  (snd (render_pages w enc textMap pages) = Ok tt
   ↔ ∀ j page, pages !! j = Some page →
               snd (rendered w enc textMap j page) = Ok tt) ∧
  (snd (render_pages w enc textMap pages) = Ok tt →
   ∀ j, fst (render_pages w enc textMap pages) !! j
        = (λ page, fst (rendered w enc textMap j page)) <$> pages !! j).
Proof.
  unfold render_pages.
  destruct (render_from_seq textMap (length pages) 0 pages) as (Hlen & Hiff & Hlook).
  split; [exact Hlen |]. split.
  - rewrite Hiff. split; intros H j page.
    + intros Hpg. apply H; [| exact Hpg]. apply lookup_lt_Some in Hpg. lia.
    + intros _ Hpg. now apply H.
  - intros Hok j. rewrite (Hlook Hok).
    destruct (decide (0 ≤ j < 0 + length pages)%nat) as [H | H]; [reflexivity |].
    rewrite (lookup_ge_None_2 pages j) by lia. reflexivity.
Qed.

(** On a live buffer the loader acts on the buffer at the address handed
    in, and the result is what the loader and the page loop make of it. *)
Lemma regenerate_run (st : gmap nat ArrayBuffer) (a : nat) (data : list Byte.byte)
  (textMap : PdfTextMap) :
  st !! a = Some (Bytes data) →
  regeneratePdfWithModifiedText load w enc st a textMap
  = (<[a := fst (load (Bytes data))]> st,
     sizes ← snd (load (Bytes data));
     _ ← snd (render_pages w enc textMap (List.map blank_page sizes));
     mret (fst (render_pages w enc textMap (List.map blank_page sizes)))).
Proof.
  intros H. unfold regeneratePdfWithModifiedText, new_Uint8Array. rewrite H.
  simpl. rewrite H. destruct (load (Bytes data)) as [b' loaded]. simpl.
  destruct loaded as [sizes | e]; [| reflexivity]. simpl.
  change (λ s, {| getSize := s; drawn := [] |}) with blank_page.
  destruct (render_pages w enc textMap (List.map blank_page sizes)) as [pages' r].
  reflexivity.
Qed.

(** The buffer the loader acts on is the one at the address handed in by
    the caller. *)
Lemma regenerate_acts_on_input_buffer (st : gmap nat ArrayBuffer) (a : nat)
  (data : list Byte.byte) (textMap : PdfTextMap) :
  st !! a = Some (Bytes data) →
  fst (regeneratePdfWithModifiedText load w enc st a textMap) !! a
  = Some (fst (load (Bytes data))).
Proof.
  intros H. rewrite (regenerate_run _ _ _ _ H). simpl. apply lookup_insert_eq.
Qed.

Lemma regenerate_status (st : gmap nat ArrayBuffer) (a : nat) (data : list Byte.byte)
  (b' : ArrayBuffer) (sizes : list PageSize) (textMap : PdfTextMap) :
  st !! a = Some (Bytes data) →
  load (Bytes data) = (b', Ok sizes) →
  snd (regeneratePdfWithModifiedText load w enc st a textMap)
  = match snd (render_pages w enc textMap (List.map blank_page sizes)) with
    | Ok _ => Ok (fst (render_pages w enc textMap (List.map blank_page sizes)))
    | Throw e => Throw e
    end.
Proof.
  intros Hst Hload. rewrite (regenerate_run _ _ _ _ Hst), Hload. simpl.
  destruct (render_pages w enc textMap (List.map blank_page sizes)) as [pages' r].
  destruct r as [[] | e]; reflexivity.
Qed.

(** When the buffer is live and the loader succeeds: the renderer returns
    exactly when the redraw of every modified block of a page of the
    document returns, and then it returns the pages of the document, each
    with the operations of its own modified blocks. *)
Lemma regenerate_result (st : gmap nat ArrayBuffer) (a : nat) (data : list Byte.byte)
  (b' : ArrayBuffer) (sizes : list PageSize) (textMap : PdfTextMap) :
  st !! a = Some (Bytes data) →
  load (Bytes data) = (b', Ok sizes) →
  ((∃ pages', snd (regeneratePdfWithModifiedText load w enc st a textMap) = Ok pages')
   ↔ ∀ i size block, sizes !! i = Some size →
                     In block (modified_on_page textMap i) →
                     block_status w enc (page_height size) block = Ok tt) ∧
  (∀ pages', snd (regeneratePdfWithModifiedText load w enc st a textMap) = Ok pages' →
     length pages' = length sizes ∧
     ∀ i size, sizes !! i = Some size →
       ∃ page, pages' !! i = Some page ∧ getSize page = size ∧
               drawn page
               = flat_map (block_ops w enc (page_height size))
                          (modified_on_page textMap i)).
Proof.
  intros Hst Hload. rewrite (regenerate_status _ _ _ _ _ _ Hst Hload).
  destruct (render_pages_run textMap (List.map blank_page sizes))
    as (Hlen & Hiff & Hlook).
  assert (Hturn : ∀ i size,
            (snd (rendered w enc textMap i (blank_page size)) = Ok tt
             ↔ Forall (λ b, block_status w enc (page_height size) b = Ok tt)
                      (modified_on_page textMap i)) ∧
            getSize (fst (rendered w enc textMap i (blank_page size))) = size ∧
            (snd (rendered w enc textMap i (blank_page size)) = Ok tt →
             drawn (fst (rendered w enc textMap i (blank_page size)))
             = flat_map (block_ops w enc (page_height size))
                        (modified_on_page textMap i))).
  { intros i size. unfold rendered.
    destruct (apply_blocks_frame (page_height (getSize (blank_page size)))
                (modified_on_page textMap i) (blank_page size)) as (Hg & Hi & Hd).
    split; [exact Hi |]. split; [exact Hg | exact Hd]. }
  assert (Hall : snd (render_pages w enc textMap (List.map blank_page sizes)) = Ok tt
                 ↔ ∀ i size block, sizes !! i = Some size →
                                   In block (modified_on_page textMap i) →
                                   block_status w enc (page_height size) block = Ok tt).
  { rewrite Hiff. split.
    - intros H i size block Hi Hin.
      specialize (H i (blank_page size) (list_lookup_fmap_Some_2 _ _ _ _ Hi)).
      apply (proj1 (Hturn i size)) in H. rewrite List.Forall_forall in H.
      now apply H.
    - intros H j page Hpage. apply list_lookup_fmap_Some_1 in Hpage.
      destruct Hpage as (size & -> & Hsize).
      apply (proj1 (Hturn j size)). apply List.Forall_forall.
      intros block Hin. now apply (H j size). }
  split.
  - rewrite <- Hall. split.
    + intros [pages' H].
      destruct (snd (render_pages w enc textMap (List.map blank_page sizes)))
        as [[] | e]; [reflexivity | discriminate H].
    + intros H. rewrite H. eexists. reflexivity.
  - intros pages' H.
    destruct (snd (render_pages w enc textMap (List.map blank_page sizes)))
      as [[] | e] eqn:Eok; [| discriminate H].
    injection H as <-. split; [now rewrite Hlen, length_map |].
    intros i size Hi. exists (fst (rendered w enc textMap i (blank_page size))).
    rewrite (Hlook eq_refl), (list_lookup_fmap_Some_2 _ _ _ _ Hi).
    split; [reflexivity |].
    destruct (Hturn i size) as (Hi' & Hg & Hd). split; [exact Hg |].
    apply Hd. apply Hi'. apply List.Forall_forall. intros block Hin.
    now apply (proj1 Hall eq_refl i size).
Qed.

(** C2. On a live buffer that the loader accepts, the renderer returns
    when the font measures and encodes what the texts of the modified
    blocks are written with. When it returns, it returns one page per page
    of the document, of unchanged size, and what it has drawn on page [i]
    is, for each block of the map with page index [i] and [isModified] set,
    in the order of the map, a white opaque rectangle at [x = position.x],
    [y = pageHeight - position.y - position.height] of the block's width and
    height followed by the redraw of the block's text, and nothing else. The
    redraw is made of lines of text at the left edge of the box, of size 10,
    none empty and none wider than the box unless it is a single word, that
    hold the words of the block's text in their order, the first line at
    the ordinate of the rectangle and each further line at a greater one. A
    page none of whose blocks is modified gets no operation. When the font
    throws on the redraw of a modified block of a page of the document, the
    renderer throws. *)
Theorem C2_regenerate_draws_modified_blocks (st : gmap nat ArrayBuffer) (a : nat)
  (data : list Byte.byte) (b' : ArrayBuffer) (sizes : list PageSize)
  (textMap : PdfTextMap) :
  st !! a = Some (Bytes data) →
  load (Bytes data) = (b', Ok sizes) →
  ((∀ block, In block (blocks textMap) → isModified block = true →
             font_accepts w enc 10 (text block)) →
   ∃ pages' : list PDFPage,
     snd (regeneratePdfWithModifiedText load w enc st a textMap) = Ok pages') ∧
  (∀ pages' : list PDFPage,
     snd (regeneratePdfWithModifiedText load w enc st a textMap) = Ok pages' →
     length pages' = length sizes ∧
     ∀ (i : nat) (size : PageSize), sizes !! i = Some size →
       ∃ page, pages' !! i = Some page ∧ getSize page = size ∧
         drawn page
         = flat_map
             (λ block,
                DrawRectangle (box_x (position block))
                  (page_height size - box_y (position block)
                   - box_height (position block))%Q
                  (box_width (position block)) (box_height (position block))
                  (1%Q, 1%Q, 1%Q) 1.0%Q
                :: text_ops w enc (text block)
                     (box_x (position block))
                     (page_height size - box_y (position block)
                      - box_height (position block))%Q
                     (box_width (position block)) 10)
             (List.filter
                (λ block, (pageIndex block =? Z.of_nat i)%Z && isModified block)
                (blocks textMap)) ∧
         (∀ block,
            In block (List.filter
                        (λ block, (pageIndex block =? Z.of_nat i)%Z
                                  && isModified block)
                        (blocks textMap)) →
            Forall (wrapped_line w (box_x (position block))
                                 (box_width (position block)) 10)
                   (text_ops w enc (text block)
                      (box_x (position block))
                      (page_height size - box_y (position block)
                       - box_height (position block))%Q
                      (box_width (position block)) 10) ∧
            words_drawn (text_ops w enc (text block)
                           (box_x (position block))
                           (page_height size - box_y (position block)
                            - box_height (position block))%Q
                           (box_width (position block)) 10)
            = words_of_text (text block) ∧
            StronglySorted Qlt
              (List.map ordinate
                 (text_ops w enc (text block)
                    (box_x (position block))
                    (page_height size - box_y (position block)
                     - box_height (position block))%Q
                    (box_width (position block)) 10)) ∧
            Forall (λ op, (page_height size - box_y (position block)
                           - box_height (position block) <= ordinate op)%Q)
                   (text_ops w enc (text block)
                      (box_x (position block))
                      (page_height size - box_y (position block)
                       - box_height (position block))%Q
                      (box_width (position block)) 10)) ∧
         ((∀ block, In block (blocks textMap) →
                    pageIndex block = Z.of_nat i → isModified block = false) →
          drawn page = [])) ∧
  (∀ (i : nat) (size : PageSize) (block : TextBlock) (e : string),
     sizes !! i = Some size →
     In block (List.filter
                 (λ block, (pageIndex block =? Z.of_nat i)%Z && isModified block)
                 (blocks textMap)) →
     text_status w enc (text block)
       (box_x (position block))
       (page_height size - box_y (position block) - box_height (position block))%Q
       (box_width (position block)) 10
     = Throw e →
     ∃ e', snd (regeneratePdfWithModifiedText load w enc st a textMap) = Throw e').
Proof.
  intros Hst Hload.
  destruct (regenerate_result st a data b' sizes textMap Hst Hload) as [Hiff Hwhat].
  split; [| split].
  - intros Hfont. apply Hiff. intros i size block Hi Hin.
    apply text_status_accepted. unfold modified_on_page in Hin.
    apply filter_In in Hin. destruct Hin as [Hin Hmod].
    apply andb_true_iff in Hmod. now apply Hfont.
  - intros pages' Hr. destruct (Hwhat pages' Hr) as [Hlen Hpages].
    split; [exact Hlen |]. intros i size Hi.
    destruct (Hpages i size Hi) as (page & Hl & Hg & Hd).
    exists page. split; [exact Hl |]. split; [exact Hg |].
    split; [exact Hd |]. split.
    + intros block Hin.
      split; [apply text_ops_wrapped |]. split; [| split].
      * apply text_ops_words.
        exact (proj1 Hiff (ex_intro _ pages' Hr) i size block Hi Hin).
      * apply text_ops_ordinates_rise. reflexivity.
      * apply text_ops_from_origin. reflexivity.
    + intros Hnone. rewrite Hd. unfold modified_on_page.
      replace (List.filter _ (blocks textMap)) with (@nil TextBlock); [reflexivity |].
      symmetry. induction (blocks textMap) as [| b bs IH]; simpl; [reflexivity |].
      destruct (Z.eqb_spec (pageIndex b) (Z.of_nat i)) as [He | Hne]; simpl.
      * rewrite (Hnone b (or_introl eq_refl) He).
        apply IH. intros b0 Hin. apply Hnone. now right.
      * apply IH. intros b0 Hin. apply Hnone. now right.
  - intros i size block e Hi Hin He.
    destruct (snd (regeneratePdfWithModifiedText load w enc st a textMap))
      as [pages' | e'] eqn:Er; [| now exists e'].
    pose proof (proj1 Hiff (ex_intro _ pages' eq_refl) i size block Hi Hin) as Hok.
    unfold block_status in Hok. rewrite He in Hok. discriminate Hok.
Qed.

End RendererProperties.

Lemma C2_regenerate_draws_modified_blocks_witness :
  ∃ pages' : list PDFPage,
    snd (regeneratePdfWithModifiedText plain_load sample_width sample_encode
           sample_buffers 0 edited_map) = Ok pages' ∧
    length pages' = 2%nat ∧
    ∃ page, pages' !! 0%nat = Some page ∧
      drawn page
      = DrawRectangle 10 (792 - 680 - 12)%Q 12 12 (1%Q, 1%Q, 1%Q) 1.0%Q
        :: text_ops sample_width sample_encode "aa bb" 10 (792 - 680 - 12)%Q 12 10 ∧
      words_drawn (text_ops sample_width sample_encode "aa bb" 10
                            (792 - 680 - 12)%Q 12 10)
      = ["aa"; "bb"].
Proof.
  destruct (C2_regenerate_draws_modified_blocks plain_load sample_width
              sample_encode sample_buffers 0
              [Byte.x25; Byte.x50; Byte.x44; Byte.x46]
              (Bytes [Byte.x25; Byte.x50; Byte.x44; Byte.x46])
              [{| page_width := 612; page_height := 792 |};
               {| page_width := 612; page_height := 792 |}]
              edited_map eq_refl eq_refl) as (Hreturns & Hwhat & _).
  destruct Hreturns as [pages' Hr].
  { intros block _ _ s _. split; [eexists; reflexivity | reflexivity]. }
  exists pages'. split; [exact Hr |].
  destruct (Hwhat pages' Hr) as [Hlen Hpages]. split; [exact Hlen |].
  destruct (Hpages 0%nat {| page_width := 612; page_height := 792 |} eq_refl)
    as (page & Hl & _ & Hd & Hblocks & _).
  exists page. split; [exact Hl |]. split; [rewrite Hd; reflexivity |].
  destruct (Hblocks wrapped_block) as (_ & Hw & _); [left; reflexivity |].
  exact Hw.
Defined.

(** A new text with a tabulator, in a font that has no glyph for it: the
    renderer throws, and no page is returned. *)
Example tabbed_text_rejected :
  snd (regeneratePdfWithModifiedText plain_load strict_width strict_encode
         sample_buffers 0 tabbed_map)
  = Throw "WinAnsi cannot encode" ∧
  ∃ pages', snd (regeneratePdfWithModifiedText plain_load strict_width strict_encode
                   sample_buffers 0 edited_map) = Ok pages'.
Proof. split; [reflexivity | eexists; reflexivity]. Qed.

Example overlong_word_drawn :
  text_ops sample_width sample_encode "Supercalifragilistic" 0 100 12 10
  = [DrawText "Supercalifragilistic" 0 (100 + 0)%Q 10].
Proof. reflexivity. Qed.

(** C1. On a page 792 high, a modified block 12 wide whose text wraps into
    two lines: the rectangle is drawn with its lower edge at ordinate 100,
    the first line at 100 and the second at 112, one line height higher:
    the second line is nearer to the top of the page than the first; a
    following blank paragraph and a third line continue the same way (at
    142). *)
Theorem C1_wrapped_lines_rise :
  (∃ yr y1 y2 : Q,
     snd (apply_block sample_width sample_encode 792
            (blank_page {| page_width := 612; page_height := 792 |})
            wrapped_block) = Ok tt ∧
     drawn (fst (apply_block sample_width sample_encode 792
                   (blank_page {| page_width := 612; page_height := 792 |})
                   wrapped_block))
     = [DrawRectangle 10 yr 12 12 (1%Q, 1%Q, 1%Q) 1.0%Q;
        DrawText "aa" 10 y1 10; DrawText "bb" 10 y2 10] ∧
     (yr == 100)%Q ∧ (y1 == 100)%Q ∧ (y2 == y1 + 10 * 1.2)%Q ∧
     (distance_from_top 792 y2 < distance_from_top 792 y1)%Q) ∧
  (∃ y1 y2 y3 : Q,
     text_status sample_width sample_encode
       (String.concat (String "010" "") ["aa bb"; ""; "cc"]) 0 100 12 10 = Ok tt ∧
     text_ops sample_width sample_encode
       (String.concat (String "010" "") ["aa bb"; ""; "cc"]) 0 100 12 10
     = [DrawText "aa" 0 y1 10; DrawText "bb" 0 y2 10; DrawText "cc" 0 y3 10] ∧
     (y1 == 100)%Q ∧ (y2 == 112)%Q ∧ (y3 == 142)%Q ∧
     (distance_from_top 792 y3 < distance_from_top 792 y2)%Q).
Proof.
  split.
  - eexists _, _, _. split; [vm_compute; reflexivity |].
    split; [vm_compute; reflexivity |].
    repeat split; vm_compute; reflexivity.
  - eexists _, _, _. split; [vm_compute; reflexivity |].
    split; [vm_compute; reflexivity |].
    repeat split; vm_compute; reflexivity.
Qed.

(** A paragraph that ends in a space which no longer fits the line is left
    without the half line height after it: the space flushes the last line
    as any word would, and no line is left to draw at the paragraph's
    end. The next paragraph follows one line height above "bb", at 124,
    where after "aa bb" it follows at 130. *)
Example trailing_space_paragraph :
  ∃ y1 y2 y3 y3' : Q,
    text_ops sample_width sample_encode
      (String.concat (String "010" "") ["aa bb "; "cc"]) 0 100 12 10
    = [DrawText "aa" 0 y1 10; DrawText "bb" 0 y2 10; DrawText "cc" 0 y3 10] ∧
    text_ops sample_width sample_encode
      (String.concat (String "010" "") ["aa bb"; "cc"]) 0 100 12 10
    = [DrawText "aa" 0 y1 10; DrawText "bb" 0 y2 10; DrawText "cc" 0 y3' 10] ∧
    (y2 == 112)%Q ∧ (y3 == 124)%Q ∧ (y3' == 130)%Q.
Proof.
  eexists _, _, _, _. split; [vm_compute; reflexivity |].
  split; [vm_compute; reflexivity |].
  repeat split; vm_compute; reflexivity.
Qed.

(** C9. [new Uint8Array(b).buffer] is [b] itself: the loader is handed the
    caller's buffer, and a loader that detaches what it is handed leaves
    the caller's buffer detached. A copy made with [slice()] lives at a new
    address and leaves the caller's buffer as it was. *)
Theorem C9_loader_gets_callers_buffer :
  new_Uint8Array sample_buffers 0 = Ok {| buffer := 0 |} ∧
  fst (regeneratePdfWithModifiedText detaching_load sample_width sample_encode
         sample_buffers 0 edited_map) !! 0%nat = Some Detached ∧
  buffer (snd (Uint8Array_slice sample_buffers {| buffer := 0 |})) ≠ 0%nat ∧
  fst (Uint8Array_slice sample_buffers {| buffer := 0 |}) !! 0%nat
  = sample_buffers !! 0%nat.
Proof.
  split; [| split; [| split]].
  - reflexivity.
  - vm_compute. reflexivity.
  - vm_compute. discriminate.
  - vm_compute. reflexivity.
Qed.

(** * Further properties *)

(** ** Block builder: boxes *)

Lemma fold_Qmin_spec {A : Type} (g : A → Q) (l : list A) (m0 : Q) :
  let r := fold_left (λ m a, Qmin m (g a)) l m0 in
  (r <= m0)%Q ∧ Forall (λ a, (r <= g a)%Q) l ∧
  ((r == m0)%Q ∨ Exists (λ a, (r == g a)%Q) l).
Proof.
  revert m0. induction l as [| a l IH]; intros m0; cbn zeta; simpl.
  - split; [lra |]. split; [constructor | left; reflexivity].
  - destruct (IH (Qmin m0 (g a))) as (H1 & H2 & H3). cbn zeta in H1, H2, H3.
    destruct (Q.min_spec m0 (g a)) as [[Hlt He] | [Hle He]].
    + split; [lra |]. split; [constructor; [lra | exact H2] |].
      destruct H3 as [H3 | H3]; [left; lra | right; now constructor 2].
    + split; [lra |]. split; [constructor; [lra | exact H2] |].
      destruct H3 as [H3 | H3]; [right; constructor 1; lra | right; now constructor 2].
Qed.

Lemma fold_Qmax_spec {A : Type} (g : A → Q) (l : list A) (m0 : Q) :
  let r := fold_left (λ m a, Qmax m (g a)) l m0 in
  (m0 <= r)%Q ∧ Forall (λ a, (g a <= r)%Q) l ∧
  ((r == m0)%Q ∨ Exists (λ a, (r == g a)%Q) l).
Proof.
  revert m0. induction l as [| a l IH]; intros m0; cbn zeta; simpl.
  - split; [lra |]. split; [constructor | left; reflexivity].
  - destruct (IH (Qmax m0 (g a))) as (H1 & H2 & H3). cbn zeta in H1, H2, H3.
    destruct (Q.max_spec m0 (g a)) as [[Hlt He] | [Hle He]].
    + split; [lra |]. split; [constructor; [lra | exact H2] |].
      destruct H3 as [H3 | H3]; [right; constructor 1; lra | right; now constructor 2].
    + split; [lra |]. split; [constructor; [lra | exact H2] |].
      destruct H3 as [H3 | H3]; [left; lra | right; now constructor 2].
Qed.

(** The box of the block made of a non-empty array of items holds every
    item. *)
Lemma block_box_inside (first : TextItem) (rest : list TextItem) (b : TextBlock) :
  createBlockFromItems (first :: rest) = Ok b →
  Forall (item_inside (position b)) (first :: rest).
Proof.
  intros Hb. simpl in Hb. injection Hb as <-.
  cbn [position box_x box_y box_width box_height].
  destruct (fold_Qmin_spec (λ it, ip_x (item_position it)) rest
              (ip_x (item_position first))) as (Hx0 & Hx & _).
  destruct (fold_Qmin_spec (λ it, ip_y (item_position it)) rest
              (ip_y (item_position first))) as (Hy0 & Hy & _).
  destruct (fold_Qmax_spec
              (λ it, (ip_x (item_position it) + ip_width (item_position it))%Q)
              rest (ip_x (item_position first) + ip_width (item_position first))%Q)
    as (HX0 & HX & _).
  destruct (fold_Qmax_spec
              (λ it, (ip_y (item_position it) + ip_height (item_position it))%Q)
              rest (ip_y (item_position first) + ip_height (item_position first))%Q)
    as (HY0 & HY & _).
  cbn zeta in *.
  constructor.
  - unfold item_inside. simpl. repeat split; lra.
  - rewrite List.Forall_forall in *. intros it Hin.
    specialize (Hx it Hin). specialize (Hy it Hin).
    specialize (HX it Hin). specialize (HY it Hin).
    unfold item_inside. simpl. simpl in Hx, Hy, HX, HY. repeat split; lra.
Qed.

(** Each side of that box is a side of one of the items. *)
Lemma block_box_touches (first : TextItem) (rest : list TextItem) (b : TextBlock) :
  createBlockFromItems (first :: rest) = Ok b →
  box_touches (position b) (first :: rest).
Proof.
  intros Hb. simpl in Hb. injection Hb as <-.
  unfold box_touches. cbn [position box_x box_y box_width box_height].
  destruct (fold_Qmin_spec (λ it, ip_x (item_position it)) rest
              (ip_x (item_position first))) as (_ & _ & Hx).
  destruct (fold_Qmin_spec (λ it, ip_y (item_position it)) rest
              (ip_y (item_position first))) as (_ & _ & Hy).
  destruct (fold_Qmax_spec
              (λ it, (ip_x (item_position it) + ip_width (item_position it))%Q)
              rest (ip_x (item_position first) + ip_width (item_position first))%Q)
    as (_ & _ & HX).
  destruct (fold_Qmax_spec
              (λ it, (ip_y (item_position it) + ip_height (item_position it))%Q)
              rest (ip_y (item_position first) + ip_height (item_position first))%Q)
    as (_ & _ & HY).
  cbn zeta in *.
  repeat split.
  - destruct Hx as [H | H]; [constructor 1; exact H | constructor 2; exact H].
  - destruct Hy as [H | H]; [constructor 1; exact H | constructor 2; exact H].
  - destruct HX as [H | H]; [constructor 1; lra |].
    constructor 2. eapply List.Exists_impl; [| exact H]. simpl. intros; lra.
  - destruct HY as [H | H]; [constructor 1; lra |].
    constructor 2. eapply List.Exists_impl; [| exact H]. simpl. intros; lra.
Qed.

(** X1. [createBlockFromItems] throws on no items; on at least one item it
    returns an unmodified block of the first item's page that keeps the
    items, joins their texts with single spaces, and whose box is the
    envelope of the items' boxes: every item lies inside it and each of its
    four sides is a side of some item. *)
Theorem X1_createBlockFromItems_envelope :
  createBlockFromItems [] = Throw "Cannot create block from empty items array" ∧
  ∀ (first : TextItem) (rest : list TextItem),
    ∃ b, createBlockFromItems (first :: rest) = Ok b ∧
         items b = first :: rest ∧
         text b = join " " (List.map item_text (first :: rest)) ∧
         pageIndex b = item_pageIndex first ∧
         isModified b = false ∧ originalText b = None ∧
         Forall (item_inside (position b)) (first :: rest) ∧
         box_touches (position b) (first :: rest).
Proof.
  split; [reflexivity |]. intros first rest.
  destruct (createBlockFromItems (first :: rest)) as [b | msg] eqn:Eb;
    [| discriminate Eb].
  exists b. split; [reflexivity |].
  pose proof (block_box_inside first rest b Eb) as Hin.
  pose proof (block_box_touches first rest b Eb) as Htouch.
  simpl in Eb. injection Eb as <-.
  repeat (split; [reflexivity |]).
  split; [exact Hin | exact Htouch].
Qed.

(** ** Block builder: the loop *)

Lemma closed_block_of_items (first : TextItem) (rest : list TextItem) (b : TextBlock) :
  createBlockFromItems (first :: rest) = Ok b →
  Forall (λ it, item_pageIndex it = item_pageIndex first) (first :: rest) →
  closed_block b.
Proof.
  intros Hb Hp. simpl in Hb. injection Hb as <-. unfold closed_block. simpl.
  split; [discriminate |]. split; [reflexivity | exact Hp].
Qed.

(** One step of the loop: it does not throw, takes the item, and keeps the
    invariant. *)
Lemma group_step_spec (st : GroupState) (item : TextItem) :
  group_invariant st →
  ∃ st', group_step st item = Ok st' ∧
         taken st' = taken st ++ [item] ∧
         group_invariant st'.
Proof.
  intros [Hclosed Hpage]. unfold group_step. cbv zeta.
  destruct (currentBlock st) as [| i0 rest] eqn:Ecur.
  - simpl. eexists. split; [reflexivity |]. unfold taken, group_invariant. simpl.
    rewrite Ecur, app_nil_r. split; [reflexivity |]. split; [exact Hclosed |].
    repeat constructor.
  - cbn [length Nat.ltb Nat.leb andb].
    destruct (negb (item_pageIndex item =? currentPageIndex st)%Z
              || Qlt_bool _ _ || Qlt_bool _ _) eqn:Etrig.
    + destruct (createBlockFromItems_nonempty i0 rest) as (b & Hb & Hitems & _).
      rewrite Hb. simpl. eexists. split; [reflexivity |].
      unfold taken, group_invariant. simpl. rewrite Ecur.
      rewrite flat_map_app. simpl. rewrite Hitems, app_nil_r.
      split; [now rewrite <- app_assoc |]. split.
      * apply Forall_app. split; [exact Hclosed |]. constructor; [| constructor].
        apply (closed_block_of_items i0 rest); [exact Hb |].
        apply Forall_cons_iff in Hpage. destruct Hpage as [Hp0 Hprest].
        constructor; [reflexivity |].
        eapply List.Forall_impl; [| exact Hprest]. simpl. congruence.
      * repeat constructor.
    + simpl. eexists. split; [reflexivity |].
      unfold taken, group_invariant. simpl. rewrite Ecur.
      split; [apply (app_assoc _ (i0 :: rest) [item]) |]. split; [exact Hclosed |].
      apply orb_false_iff in Etrig. destruct Etrig as [Etrig _].
      apply orb_false_iff in Etrig. destruct Etrig as [Epage _].
      apply negb_false_iff, Z.eqb_eq in Epage.
      change (i0 :: rest ++ [item]) with ((i0 :: rest) ++ [item]).
      apply Forall_app. split; [| repeat constructor].
      eapply List.Forall_impl; [| exact Hpage]. simpl. congruence.
Qed.

Lemma group_loop_spec (l : list TextItem) (st : GroupState) :
  group_invariant st →
  ∃ st', group_loop st l = Ok st' ∧
         taken st' = taken st ++ l ∧
         group_invariant st'.
Proof.
  revert st. induction l as [| item l IH]; intros st Hinv.
  - exists st. split; [reflexivity |]. split; [now rewrite app_nil_r | exact Hinv].
  - destruct (group_step_spec st item Hinv) as (st1 & Hs & Ht & Hinv1).
    destruct (IH st1 Hinv1) as (st' & Hl & Ht' & Hinv').
    exists st'. cbn [group_loop]. rewrite Hs. split; [exact Hl |].
    split; [| exact Hinv']. rewrite Ht', Ht. now rewrite <- app_assoc.
Qed.

Lemma insert_sorted_perm (cmp : TextItem → TextItem → Q) (a : TextItem)
  (l : list TextItem) :
  Permutation (insert_sorted cmp a l) (a :: l).
Proof.
  induction l as [| b t IH]; simpl; [reflexivity |].
  destruct (Qle_bool (cmp a b) 0); [reflexivity |].
  rewrite IH. apply perm_swap.
Qed.

Lemma sort_by_perm (cmp : TextItem → TextItem → Q) (l : list TextItem) :
  Permutation (sort_by cmp l) l.
Proof.
  induction l as [| a t IH]; simpl; [reflexivity |].
  rewrite insert_sorted_perm. now constructor.
Qed.

(** What the loop returns for any sequence it is handed. *)
Lemma group_sorted_spec (sortedItems : list TextItem) :
  ∃ bs, group_sorted sortedItems = Ok bs ∧
        flat_map items bs = sortedItems ∧
        Forall closed_block bs.
Proof.
  unfold group_sorted.
  destruct (group_loop_spec sortedItems
              {| gs_blocks := []; currentBlock := []; currentPageIndex := -1;
                 lastY := -1; lastRight := -1 |}) as (st & Hl & Ht & Hclosed & Hpage).
  { split; constructor. }
  rewrite Hl. simpl. unfold taken in Ht. simpl in Ht.
  destruct (currentBlock st) as [| i0 rest] eqn:Ecur; simpl.
  - eexists. split; [reflexivity |]. rewrite app_nil_r in Ht. split; assumption.
  - eexists. split; [reflexivity |]. split.
    + rewrite flat_map_app. simpl. now rewrite app_nil_r.
    + apply Forall_app. split; [exact Hclosed |]. constructor; [| constructor].
      apply (closed_block_of_items i0 rest); [reflexivity |].
      apply Forall_cons_iff in Hpage. destruct Hpage as [Hp0 Hprest].
      constructor; [reflexivity |].
      eapply List.Forall_impl; [| exact Hprest]. simpl. congruence.
Qed.

(** What the builder returns, in one statement. *)
Lemma groupTextIntoBlocks_spec (textItems : list TextItem) :
  ∃ bs, groupTextIntoBlocks textItems = Ok bs ∧
        flat_map items bs = sort_by compareItems textItems ∧
        Forall closed_block bs.
Proof.
  unfold groupTextIntoBlocks. cbv zeta. apply group_sorted_spec.
Qed.

Lemma closed_blocks_count (bs : list TextBlock) :
  Forall closed_block bs → (length bs ≤ length (flat_map items bs))%nat.
Proof.
  intros Hclosed. induction Hclosed as [| b bs Hb _ IH]; simpl; [lia |].
  rewrite length_app. destruct Hb as (Hne & _ & _).
  destruct (items b); [contradiction | simpl; lia].
Qed.

(** X2. The loop of [groupTextIntoBlocks] never throws and keeps the
    sequence it is handed: whatever order the sort left the runs in, the
    runs of the blocks, read block after block, are that sequence, and no
    block is empty. So [groupTextIntoBlocks] never throws, every run of its
    input is in exactly one block, none is added, and there are no more
    blocks than runs. *)
Theorem X2_groupTextIntoBlocks_keeps_every_run (textItems : list TextItem) :
  (∀ sortedItems : list TextItem,
     ∃ bs, group_sorted sortedItems = Ok bs ∧
           flat_map items bs = sortedItems ∧
           Forall (λ b, items b ≠ []) bs) ∧
  ∃ bs, groupTextIntoBlocks textItems = Ok bs ∧
        Permutation (flat_map items bs) textItems ∧
        Forall (λ b, items b ≠ []) bs ∧
        (length bs ≤ length textItems)%nat.
Proof.
  split.
  - intros sortedItems.
    destruct (group_sorted_spec sortedItems) as (bs & Hr & Hflat & Hclosed).
    exists bs. split; [exact Hr |]. split; [exact Hflat |].
    eapply List.Forall_impl; [| exact Hclosed]. intros b Hb. apply Hb.
  - destruct (groupTextIntoBlocks_spec textItems) as (bs & Hr & Hflat & Hclosed).
    exists bs. split; [exact Hr |]. split; [| split].
    + rewrite Hflat. apply sort_by_perm.
    + eapply List.Forall_impl; [| exact Hclosed]. intros b Hb. apply Hb.
    + rewrite <- (Permutation_length (sort_by_perm compareItems textItems)), <- Hflat.
      now apply closed_blocks_count.
Qed.

(** X3. Every block [groupTextIntoBlocks] returns is made of at least one
    run, all of the block's page and all from the input, is unmodified, and
    is what [createBlockFromItems] makes of its runs: its box is the
    envelope of their boxes and its text their texts joined by single
    spaces. *)
Theorem X3_groupTextIntoBlocks_blocks_are_closed (textItems : list TextItem) :
  ∃ bs, groupTextIntoBlocks textItems = Ok bs ∧
    Forall (λ b,
              items b ≠ [] ∧
              Forall (λ it, item_pageIndex it = pageIndex b) (items b) ∧
              Forall (λ it, In it textItems) (items b) ∧
              isModified b = false ∧ originalText b = None ∧
              text b = join " " (List.map item_text (items b)) ∧
              Forall (item_inside (position b)) (items b) ∧
              box_touches (position b) (items b)) bs.
Proof.
  destruct (groupTextIntoBlocks_spec textItems) as (bs & Hr & Hflat & Hclosed).
  exists bs. split; [exact Hr |].
  rewrite List.Forall_forall in *. intros b Hin.
  destruct (Hclosed b Hin) as (Hne & Hb & Hpage).
  split; [exact Hne |]. split; [exact Hpage |]. split.
  { rewrite List.Forall_forall. intros it Hit.
    apply (Permutation_in it (sort_by_perm compareItems textItems)).
    rewrite <- Hflat. apply in_flat_map. exists b. split; assumption. }
  destruct (items b) as [| first rest] eqn:Eitems; [contradiction |].
  pose proof (block_box_inside first rest b Hb) as Hins.
  pose proof (block_box_touches first rest b Hb) as Htouch.
  assert (Hfields : isModified b = false ∧ originalText b = None ∧
                    text b = join " " (List.map item_text (items b))).
  { rewrite Eitems. simpl in Hb. injection Hb as Hb'. rewrite <- Hb'.
    repeat split. }
  rewrite Eitems in Hfields.
  destruct Hfields as (Hmod & Horig & Htext).
  exact (conj Hmod (conj Horig (conj Htext (conj Hins Htouch)))).
Qed.

(** ** Block builder: page order *)

Lemma compareItems_pages (a b : TextItem) :
  ((compareItems a b <= 0)%Q → (item_pageIndex a <= item_pageIndex b)%Z) ∧
  ((0 < compareItems a b)%Q → (item_pageIndex b <= item_pageIndex a)%Z).
Proof.
  unfold compareItems.
  destruct (Z.eqb_spec (item_pageIndex a) (item_pageIndex b)) as [He | Hne]; simpl.
  - split; intros _; lia.
  - split; intros H.
    + change 0%Q with (inject_Z 0) in H. rewrite <- Zle_Qle in H. lia.
    + change 0%Q with (inject_Z 0) in H. rewrite <- Zlt_Qlt in H. lia.
Qed.

Lemma insert_sorted_pages (a : TextItem) (l : list TextItem) :
  StronglySorted Z.le (List.map item_pageIndex l) →
  StronglySorted Z.le (List.map item_pageIndex (insert_sorted compareItems a l)).
Proof.
  induction l as [| b t IH]; intros Hs; simpl.
  - repeat constructor.
  - simpl in Hs. apply StronglySorted_inv in Hs. destruct Hs as [Hst Hb].
    destruct (compareItems_pages a b) as [Hle Hgt].
    destruct (Qle_bool (compareItems a b) 0) eqn:E.
    + apply Qle_bool_iff in E. specialize (Hle E). simpl.
      constructor; [constructor; assumption |].
      constructor; [exact Hle |].
      eapply List.Forall_impl; [| exact Hb]. simpl. intros; lia.
    + assert (Hpos : (0 < compareItems a b)%Q).
      { apply Qlt_bool_iff. unfold Qlt_bool. now rewrite E. }
      specialize (Hgt Hpos). simpl.
      constructor; [now apply IH |].
      apply (Permutation_Forall
               (Permutation_map item_pageIndex
                  (Permutation_sym (insert_sorted_perm compareItems a t)))).
      simpl. constructor; assumption.
Qed.

Lemma sort_by_pages (l : list TextItem) :
  StronglySorted Z.le (List.map item_pageIndex (sort_by compareItems l)).
Proof.
  induction l as [| a t IH]; simpl; [constructor |].
  now apply insert_sorted_pages.
Qed.

Lemma StronglySorted_app_parts {A : Type} (R : A → A → Prop) (l1 l2 : list A) :
  StronglySorted R (l1 ++ l2) →
  StronglySorted R l2 ∧ ∀ a b, In a l1 → In b l2 → R a b.
Proof.
  induction l1 as [| x l1 IH]; simpl; intros H.
  - split; [exact H | intros a b []].
  - apply StronglySorted_inv in H. destruct H as [Hs Hx].
    destruct (IH Hs) as [H2 Hcross]. split; [exact H2 |].
    intros a b [<- | Ha] Hb.
    + rewrite List.Forall_forall in Hx. apply Hx. apply in_or_app. now right.
    + now apply Hcross.
Qed.

Lemma closed_blocks_pages_sorted (bs : list TextBlock) :
  Forall closed_block bs →
  StronglySorted Z.le (List.map item_pageIndex (flat_map items bs)) →
  StronglySorted Z.le (List.map pageIndex bs).
Proof.
  induction bs as [| b bs IH]; intros Hc Hs; simpl; [constructor |].
  apply Forall_cons_iff in Hc. destruct Hc as [Hb Hbs].
  simpl in Hs. rewrite map_app in Hs.
  apply StronglySorted_app_parts in Hs. destruct Hs as [Hs Hcross].
  constructor; [now apply IH |].
  rewrite List.Forall_forall. intros p Hp.
  apply in_map_iff in Hp. destruct Hp as (b' & <- & Hb').
  rewrite List.Forall_forall in Hbs. destruct (Hbs b' Hb') as (Hne' & _ & Hpage').
  destruct Hb as (Hne & _ & Hpage).
  destruct (items b) as [| f r] eqn:Ef; [contradiction |].
  destruct (items b') as [| f' r'] eqn:Ef'; [contradiction |].
  apply Forall_cons_iff in Hpage. destruct Hpage as [Hf _].
  apply Forall_cons_iff in Hpage'. destruct Hpage' as [Hf' _].
  rewrite <- Hf, <- Hf'. apply Hcross.
  - left. reflexivity.
  - apply in_map. apply in_flat_map. exists b'. split; [exact Hb' |].
    rewrite Ef'. now left.
Qed.

(** X4. Whatever the order of the input, [groupTextIntoBlocks] returns the
    blocks by ascending page index: a block of a later page never comes
    before a block of an earlier page. *)
Theorem X4_groupTextIntoBlocks_pages_ascend (textItems : list TextItem) :
  ∃ bs, groupTextIntoBlocks textItems = Ok bs ∧
        StronglySorted Z.le (List.map pageIndex bs).
Proof.
  destruct (groupTextIntoBlocks_spec textItems) as (bs & Hr & Hflat & Hclosed).
  exists bs. split; [exact Hr |].
  apply closed_blocks_pages_sorted; [exact Hclosed |].
  rewrite Hflat. apply sort_by_pages.
Qed.

(** ** Similarity matcher: range, reflexivity, blank operands *)

Lemma prefix_refl (s : string) : String.prefix s s = true.
Proof.
  induction s as [| c s IH]; simpl; [reflexivity |].
  destruct (Ascii.ascii_dec c c); [exact IH | contradiction].
Qed.

Lemma includes_refl (s : string) : includes s s = true.
Proof. destruct s; cbn [includes]; now rewrite prefix_refl. Qed.

Lemma includes_empty (s : string) : includes s "" = true.
Proof. destruct s; reflexivity. Qed.

Lemma normalize_blank (a : string) : trim a = "" → normalize a = "".
Proof. intros H. unfold normalize. now rewrite H. Qed.

(** X5. [calculateSimilarity] is a number between 0 and 1. *)
Theorem X5_calculateSimilarity_range (s1 s2 : string) :
  (0 <= calculateSimilarity s1 s2)%Q ∧ (calculateSimilarity s1 s2 <= 1)%Q.
Proof.
  rewrite calculateSimilarity_jaccard. unfold jaccard_similarity.
  destruct (decide (s1 = s2)); [split; lra |].
  destruct (decide (s1 = "" ∨ s2 = "")); [split; lra |].
  set (W1 := word_set s1). set (W2 := word_set s2).
  assert (Hle : (size (W1 ∩ W2) ≤ size (W1 ∪ W2))%nat)
    by (apply subseteq_size; etrans; [apply intersection_subseteq_l | apply union_subseteq_l]).
  destruct (size (W1 ∪ W2)) as [| u] eqn:Eu.
  - assert (Hi : size (W1 ∩ W2) = 0%nat) by lia. rewrite Hi.
    split; vm_compute; discriminate.
  - assert (Hu : (0 < inject_Z (Z.of_nat (S u)))%Q).
    { change 0%Q with (inject_Z 0). rewrite <- Zlt_Qlt. lia. }
    assert (Hi : (0 <= inject_Z (Z.of_nat (size (W1 ∩ W2))))%Q).
    { change 0%Q with (inject_Z 0). rewrite <- Zle_Qle. lia. }
    assert (Hiu : (inject_Z (Z.of_nat (size (W1 ∩ W2)))
                   <= inject_Z (Z.of_nat (S u)))%Q).
    { rewrite <- Zle_Qle. lia. }
    split.
    + apply Qle_shift_div_l; [exact Hu | lra].
    + apply Qle_shift_div_r; [exact Hu | lra].
Qed.

(** X6. Every text fuzzy-matches itself, and a text that is empty or all
    white space fuzzy-matches every text, on either side. *)
Theorem X6_fuzzyTextMatch_reflexive_blank :
  (∀ a : string, fuzzyTextMatch a a = true) ∧
  (∀ a b : string,
     trim a = "" → fuzzyTextMatch a b = true ∧ fuzzyTextMatch b a = true).
Proof.
  split.
  - intros a. unfold fuzzyTextMatch. cbv zeta. now rewrite includes_refl.
  - intros a b Ha. unfold fuzzyTextMatch. cbv zeta.
    rewrite (normalize_blank a Ha), includes_empty.
    split; [now rewrite orb_true_r | reflexivity].
Qed.

Lemma X6_fuzzyTextMatch_reflexive_blank_witness :
  fuzzyTextMatch (String " " (String "009" " ")) "Senior Engineer" = true ∧
  fuzzyTextMatch "Senior Engineer" (String " " (String "009" " ")) = true.
Proof.
  apply (proj2 X6_fuzzyTextMatch_reflexive_blank). reflexivity.
Defined.

(** ** Block locator: what is returned *)

(** X7. A block returned by the locator is a block of the map, of the page
    asked for, whose box meets the region in positive area; and it
    fuzzy-matches the text, unless no block of that page meeting the
    region does. *)
Theorem X7_findTextBlockToReplace_sound (textMap : PdfTextMap)
  (originalText : string) (region : Box) (page : Z) (b : TextBlock) :
  findTextBlockToReplace textMap originalText region page = Some b →
  In b (blocks textMap) ∧ overlapping region page b ∧
  (fuzzyTextMatch (text b) originalText = true ∨
   ∀ c, In c (blocks textMap) → overlapping region page c →
        fuzzyTextMatch (text c) originalText = false).
Proof.
  rewrite findTextBlockToReplace_unfold.
  destruct (List.find (candidate region page) (blocks textMap)) as [f |] eqn:Ef;
    [| discriminate].
  destruct (List.find (λ b, candidate region page b
                            && fuzzyTextMatch (text b) originalText)
                      (blocks textMap)) as [g |] eqn:Eg.
  - intros [= <-]. apply find_some in Eg. destruct Eg as [Hin Hc].
    apply andb_true_iff in Hc. destruct Hc as [Hc Hfz].
    split; [exact Hin |]. split; [now apply candidate_overlapping | now left].
  - intros [= <-]. apply find_some in Ef. destruct Ef as [Hin Hc].
    split; [exact Hin |]. split; [now apply candidate_overlapping |].
    right. intros c Hcin Hov. rewrite find_none_iff in Eg.
    specialize (Eg c Hcin). apply candidate_overlapping in Hov.
    rewrite Hov in Eg. exact Eg.
Qed.

Lemma X7_findTextBlockToReplace_sound_witness :
  In sample_b2 (blocks sample_map) ∧ overlapping sample_region 0 sample_b2 ∧
  (fuzzyTextMatch (text sample_b2) "senior engineer" = true ∨
   ∀ c, In c (blocks sample_map) → overlapping sample_region 0 c →
        fuzzyTextMatch (text c) "senior engineer" = false).
Proof.
  apply (X7_findTextBlockToReplace_sound sample_map "senior engineer"
           sample_region 0 sample_b2).
  vm_compute. reflexivity.
Defined.


Lemma overlap_width_bounds (b region : Box) :
  (overlap_width b region <= box_width b)%Q ∧
  (overlap_width b region <= box_width region)%Q.
Proof.
  unfold overlap_width.
  pose proof (Q.le_min_l (box_x b + box_width b) (box_x region + box_width region)).
  pose proof (Q.le_min_r (box_x b + box_width b) (box_x region + box_width region)).
  pose proof (Q.le_max_l (box_x b) (box_x region)).
  pose proof (Q.le_max_r (box_x b) (box_x region)).
  split; lra.
Qed.

Lemma overlap_height_bounds (b region : Box) :
  (overlap_height b region <= box_height b)%Q ∧
  (overlap_height b region <= box_height region)%Q.
Proof.
  unfold overlap_height.
  pose proof (Q.le_min_l (box_y b + box_height b) (box_y region + box_height region)).
  pose proof (Q.le_min_r (box_y b + box_height b) (box_y region + box_height region)).
  pose proof (Q.le_max_l (box_y b) (box_y region)).
  pose proof (Q.le_max_r (box_y b) (box_y region)).
  split; lra.
Qed.

Lemma overlapping_positive (region : Box) (page : Z) (b : TextBlock) :
  overlapping region page b →
  (0 < box_width (position b))%Q ∧ (0 < box_height (position b))%Q ∧
  (0 < box_width region)%Q ∧ (0 < box_height region)%Q.
Proof.
  intros (_ & Hw & Hh).
  destruct (overlap_width_bounds (position b) region).
  destruct (overlap_height_bounds (position b) region).
  repeat split; lra.
Qed.

(** X8. A region without positive width or height locates nothing, and a
    block the locator returns has positive width and height. *)
Theorem X8_findTextBlockToReplace_needs_area (textMap : PdfTextMap)
  (originalText : string) (region : Box) (page : Z) :
  ((box_width region <= 0)%Q ∨ (box_height region <= 0)%Q →
   findTextBlockToReplace textMap originalText region page = None) ∧
  (∀ b, findTextBlockToReplace textMap originalText region page = Some b →
        (0 < box_width (position b))%Q ∧ (0 < box_height (position b))%Q).
Proof.
  rewrite findTextBlockToReplace_unfold. split.
  - intros Hdeg.
    destruct (List.find (candidate region page) (blocks textMap)) as [f |] eqn:Ef;
      [| reflexivity].
    exfalso. apply find_some in Ef. destruct Ef as [_ Hc].
    apply candidate_overlapping, overlapping_positive in Hc.
    destruct Hc as (_ & _ & Hw & Hh). destruct Hdeg; lra.
  - intros b.
    destruct (List.find (candidate region page) (blocks textMap)) as [f |] eqn:Ef;
      [| discriminate].
    destruct (List.find (λ b, candidate region page b
                              && fuzzyTextMatch (text b) originalText)
                        (blocks textMap)) as [g |] eqn:Eg; intros [= <-].
    + apply find_some in Eg. destruct Eg as [_ Hc].
      apply andb_true_iff in Hc. destruct Hc as [Hc _].
      apply candidate_overlapping, overlapping_positive in Hc. tauto.
    + apply find_some in Ef. destruct Ef as [_ Hc].
      apply candidate_overlapping, overlapping_positive in Hc. tauto.
Qed.

Lemma X8_findTextBlockToReplace_needs_area_witness :
  findTextBlockToReplace sample_map "Senior Engineer" flat_region 0 = None ∧
  (0 < box_width (position sample_b2))%Q ∧ (0 < box_height (position sample_b2))%Q.
Proof.
  split.
  - apply (proj1 (X8_findTextBlockToReplace_needs_area sample_map "Senior Engineer"
                    flat_region 0)).
    left. simpl. lra.
  - apply (proj2 (X8_findTextBlockToReplace_needs_area sample_map "senior engineer"
                    sample_region 0) sample_b2).
    vm_compute. reflexivity.
Defined.

(** X9. With an original text that is empty or all white space, the
    locator returns the first block of the page whose box meets the region,
    whatever the texts of the blocks. *)
Theorem X9_findTextBlockToReplace_blank_text (textMap : PdfTextMap)
  (originalText : string) (region : Box) (page : Z) :
  trim originalText = "" →
  findTextBlockToReplace textMap originalText region page
  = List.find (λ block, (pageIndex block =? page)%Z && overlaps region block)
              (blocks textMap).
Proof.
  intros Hblank. rewrite findTextBlockToReplace_unfold.
  change (λ block, (pageIndex block =? page)%Z && overlaps region block)
    with (candidate region page).
  replace (List.find (λ b, candidate region page b
                           && fuzzyTextMatch (text b) originalText)
                     (blocks textMap))
    with (List.find (candidate region page) (blocks textMap)).
  - destruct (List.find (candidate region page) (blocks textMap)); reflexivity.
  - induction (blocks textMap) as [| b l IH]; simpl; [reflexivity |].
    unfold fuzzyTextMatch at 1. cbv zeta.
    rewrite (normalize_blank originalText Hblank), includes_empty. simpl.
    rewrite andb_true_r. destruct (candidate region page b); [reflexivity | exact IH].
Qed.

Lemma X9_findTextBlockToReplace_blank_text_witness :
  findTextBlockToReplace sample_map "  " sample_region 0
  = List.find (λ block, (pageIndex block =? 0)%Z && overlaps sample_region block)
              (blocks sample_map).
Proof.
  apply (X9_findTextBlockToReplace_blank_text sample_map "  " sample_region 0).
  reflexivity.
Defined.

(** ** Text map update: successive edits *)

Lemma arrays_preserved_read (h h' : Heap) (textMap : MapObject) (m : PdfTextMap) :
  arrays_preserved h h' → read_map h textMap = Some m → read_map h' textMap = Some m.
Proof.
  intros [Hb Hp] Hm. apply read_map_arrays in Hm. destruct Hm as [H1 H2].
  apply read_map_arrays. split; [now apply Hb | now apply Hp].
Qed.

Lemma arrays_preserved_trans (h1 h2 h3 : Heap) :
  arrays_preserved h1 h2 → arrays_preserved h2 h3 → arrays_preserved h1 h3.
Proof.
  intros [Hb Hp] [Hb' Hp']. split; intros a v Ha.
  - now apply Hb', Hb.
  - now apply Hp', Hp.
Qed.

(** On a map that reads as [m] the update does not throw, returns a map
    object that reads as [replace_value m], and leaves every array in
    place. *)
Lemma replaceTextInBlock_run (h : Heap) (textMap : MapObject)
  (blockToReplace : TextBlock) (newText : string) (m : PdfTextMap) :
  read_map h textMap = Some m →
  ∃ h' updatedMap,
    replaceTextInBlock h textMap blockToReplace newText = Ok (h', updatedMap) ∧
    read_map h' updatedMap = Some (replace_value m blockToReplace newText) ∧
    arrays_preserved h h'.
Proof.
  intros Hm. rewrite (replaceTextInBlock_unfold _ _ _ _ _ Hm). cbv zeta.
  unfold replace_value. cbv zeta.
  pose proof Hm as Hm'. apply read_map_arrays in Hm'. destruct Hm' as [Hb Hp].
  assert (Hpres : arrays_preserved h
            {| block_arrays := <[fresh (dom (block_arrays h)) := blocks m]> (block_arrays h);
               page_arrays := <[fresh (dom (page_arrays h)) := pages m]> (page_arrays h);
               console := console h |}).
  { split; simpl; intros a v Ha; rewrite lookup_insert_ne; try exact Ha;
      apply not_eq_sym; eapply fresh_not_allocated; exact Ha. }
  destruct (findIndex (same_key blockToReplace) (blocks m) =? -1)%Z.
  - eexists _, _. split; [reflexivity |]. split.
    + apply (arrays_preserved_read h); [| exact Hm]. exact Hpres.
    + exact Hpres.
  - eexists _, _. split; [reflexivity |]. split.
    + unfold read_map. simpl. rewrite lookup_alter_eq, !lookup_insert_eq.
      reflexivity.
    + destruct Hpres as [H1 H2]. split; simpl.
      * intros a v Ha. rewrite lookup_alter_ne; [now apply H1 |].
        apply not_eq_sym. eapply fresh_not_allocated. exact Ha.
      * exact H2.
Qed.

Lemma findIndex_from_at {A : Type} (p : A → bool) (l : list A) (k : Z) (i : nat)
  (b : A) :
  l !! i = Some b → p b = true →
  (∀ (j : nat) (a : A), (j < i)%nat → l !! j = Some a → p a = false) →
  findIndex_from p k l = (k + Z.of_nat i)%Z.
Proof.
  revert k i. induction l as [| a l IH]; intros k i Hl Hb Hfirst; [discriminate |].
  destruct i as [| i]; simpl.
  - simpl in Hl. injection Hl as ->. rewrite Hb. lia.
  - rewrite (Hfirst 0%nat a) by (lia || reflexivity).
    rewrite (IH (k + 1)%Z i); [lia | exact Hl | exact Hb |].
    intros j a' Hj Ha'. apply (Hfirst (S j)); [lia | exact Ha'].
Qed.

Lemma same_key_updatedBlock (blockToReplace : TextBlock) (newText : string) :
  same_key blockToReplace (updatedBlock blockToReplace newText) = true.
Proof.
  unfold same_key, updatedBlock. simpl.
  now rewrite Z.eqb_refl, !Qeq_bool_refl.
Qed.

(** Repeating an edit on its own result changes nothing. *)
Lemma replace_value_idempotent (m : PdfTextMap) (blockToReplace : TextBlock)
  (newText : string) :
  replace_value (replace_value m blockToReplace newText) blockToReplace newText
  = replace_value m blockToReplace newText.
Proof.
  unfold replace_value at 2. cbv zeta.
  destruct (findIndex (same_key blockToReplace) (blocks m) =? -1)%Z eqn:E.
  - unfold replace_value. cbv zeta. now rewrite E.
  - apply Z.eqb_neq in E.
    assert (Hfound : ∃ a, In a (blocks m) ∧ same_key blockToReplace a = true).
    { destruct (List.find (same_key blockToReplace) (blocks m)) as [a |] eqn:Ef.
      - apply find_some in Ef. now exists a.
      - exfalso. apply E. apply findIndex_from_none. now apply find_none_iff. }
    destruct (findIndex_from_found (same_key blockToReplace) 0 (blocks m) Hfound)
      as (i & old & Hi & Hold & Hkey & Hfirst).
    unfold findIndex. rewrite Hi.
    replace (Z.to_nat (0 + Z.of_nat i)) with i by lia.
    unfold replace_value. cbv zeta. cbn [blocks pages].
    unfold findIndex.
    rewrite (findIndex_from_at _ _ 0 i (updatedBlock blockToReplace newText)).
    + replace (0 + Z.of_nat i =? -1)%Z with false by (symmetry; apply Z.eqb_neq; lia).
      replace (Z.to_nat (0 + Z.of_nat i)) with i by lia.
      rewrite list_insert_insert_eq, Hi.
      replace (0 + Z.of_nat i =? -1)%Z with false by (symmetry; apply Z.eqb_neq; lia).
      replace (Z.to_nat (0 + Z.of_nat i)) with i by lia.
      reflexivity.
    + apply list_lookup_insert_eq. eapply lookup_lt_Some. exact Hold.
    + apply same_key_updatedBlock.
    + intros j a Hj Ha. rewrite list_lookup_insert_ne in Ha by lia.
      now apply (Hfirst j).
Qed.

(** X10. Edits keep every version: after two successive calls of
    [replaceTextInBlock], neither of which throws, the map handed to the
    first call and the map returned by the first call still read as they
    did, beside the map returned by the second. *)
Theorem X10_replaceTextInBlock_versions_persist (h : Heap) (textMap : MapObject)
  (m : PdfTextMap) (target1 target2 : TextBlock) (text1 text2 : string) :
  read_map h textMap = Some m →
  ∃ h1 map1 h2 map2,
    replaceTextInBlock h textMap target1 text1 = Ok (h1, map1) ∧
    replaceTextInBlock h1 map1 target2 text2 = Ok (h2, map2) ∧
    read_map h2 textMap = Some m ∧
    read_map h2 map1 = Some (replace_value m target1 text1) ∧
    read_map h2 map2
    = Some (replace_value (replace_value m target1 text1) target2 text2) ∧
    pages (replace_value (replace_value m target1 text1) target2 text2) = pages m ∧
    length (blocks (replace_value (replace_value m target1 text1) target2 text2))
    = length (blocks m).
Proof.
  intros Hm.
  destruct (replaceTextInBlock_run h textMap target1 text1 m Hm)
    as (h1 & map1 & Hr1 & Hread1 & Hp1).
  destruct (replaceTextInBlock_run h1 map1 target2 text2 _ Hread1)
    as (h2 & map2 & Hr2 & Hread2 & Hp2).
  exists h1, map1, h2, map2.
  split; [exact Hr1 |]. split; [exact Hr2 |]. split.
  { apply (arrays_preserved_read h1); [exact Hp2 |].
    now apply (arrays_preserved_read h). }
  split; [now apply (arrays_preserved_read h1) |]. split; [exact Hread2 |].
  unfold replace_value. cbv zeta.
  split; repeat (destruct (_ =? -1)%Z; cbn [pages blocks]);
    rewrite ?length_insert; reflexivity.
Qed.

Lemma X10_replaceTextInBlock_versions_persist_witness :
  ∃ h1 map1 h2 map2,
    replaceTextInBlock sample_heap sample_object sample_b2 "Staff Engineer"
    = Ok (h1, map1) ∧
    replaceTextInBlock h1 map1 sample_b1 "Hello there" = Ok (h2, map2) ∧
    read_map h2 sample_object = Some sample_map ∧
    ((λ m, List.map text (blocks m)) <$> read_map h2 map2)
    = Some ["Hello there"; "Staff Engineer"; "Second page"].
Proof.
  destruct (X10_replaceTextInBlock_versions_persist sample_heap sample_object
              sample_map sample_b2 sample_b1 "Staff Engineer" "Hello there" eq_refl)
    as (h1 & map1 & h2 & map2 & Hr1 & Hr2 & H0 & _ & H2 & _).
  exists h1, map1, h2, map2. split; [exact Hr1 |]. split; [exact Hr2 |].
  split; [exact H0 |]. rewrite H2. reflexivity.
Defined.

(** X11. Repeating an edit changes nothing more: a second call of
    [replaceTextInBlock] with the same target and text on the map the first
    call returned yields a map of the same value. *)
Theorem X11_replaceTextInBlock_idempotent (h : Heap) (textMap : MapObject)
  (m : PdfTextMap) (blockToReplace : TextBlock) (newText : string) :
  read_map h textMap = Some m →
  ∃ h1 map1 h2 map2,
    replaceTextInBlock h textMap blockToReplace newText = Ok (h1, map1) ∧
    replaceTextInBlock h1 map1 blockToReplace newText = Ok (h2, map2) ∧
    read_map h2 map2 = read_map h1 map1 ∧
    read_map h2 map2 = read_map h2 map1.
Proof.
  intros Hm.
  destruct (replaceTextInBlock_run h textMap blockToReplace newText m Hm)
    as (h1 & map1 & Hr1 & Hread1 & Hp1).
  destruct (replaceTextInBlock_run h1 map1 blockToReplace newText _ Hread1)
    as (h2 & map2 & Hr2 & Hread2 & Hp2).
  exists h1, map1, h2, map2.
  split; [exact Hr1 |]. split; [exact Hr2 |].
  rewrite replace_value_idempotent in Hread2.
  split; [congruence |].
  rewrite Hread2. symmetry. now apply (arrays_preserved_read h1).
Qed.

Lemma X11_replaceTextInBlock_idempotent_witness :
  ∃ h1 map1 h2 map2,
    replaceTextInBlock sample_heap sample_object sample_b2 "Staff Engineer"
    = Ok (h1, map1) ∧
    replaceTextInBlock h1 map1 sample_b2 "Staff Engineer" = Ok (h2, map2) ∧
    read_map h2 map2 = read_map h1 map1 ∧
    read_map h2 map2 = read_map h2 map1.
Proof.
  apply (X11_replaceTextInBlock_idempotent sample_heap sample_object sample_map
           sample_b2 "Staff Engineer").
  reflexivity.
Defined.

(** ** Locating, then replacing *)

Lemma located_is_candidate (m : PdfTextMap) (originalText : string) (region : Box)
  (page : Z) (b : TextBlock) :
  findTextBlockToReplace m originalText region page = Some b →
  In b (blocks m) ∧ candidate region page b = true.
Proof.
  rewrite findTextBlockToReplace_unfold.
  destruct (List.find (candidate region page) (blocks m)) as [f |] eqn:Ef;
    [| discriminate].
  destruct (List.find (λ b, candidate region page b
                            && fuzzyTextMatch (text b) originalText)
                      (blocks m)) as [g |] eqn:Eg; intros [= <-].
  - apply find_some in Eg. destruct Eg as [Hin Hc].
    apply andb_true_iff in Hc. tauto.
  - apply find_some in Ef. exact Ef.
Qed.

Lemma candidate_locates (m : PdfTextMap) (originalText : string) (region : Box)
  (page : Z) (b : TextBlock) :
  In b (blocks m) → candidate region page b = true →
  findTextBlockToReplace m originalText region page ≠ None.
Proof.
  intros Hin Hc. rewrite findTextBlockToReplace_unfold.
  destruct (List.find (candidate region page) (blocks m)) as [f |] eqn:Ef.
  - intros H. case_match; discriminate H.
  - rewrite find_none_iff in Ef. rewrite (Ef b Hin) in Hc. discriminate.
Qed.

(** X12. A block the locator returned for a map is always found again by
    [replaceTextInBlock] on that map: the call does not throw and reports
    nothing on the console, returns a new map object, and the new map is
    the old one with one block overwritten. The block overwritten is the
    first block of the map with the located block's page and origin, which
    is the located block when no other block has its page and origin and
    never comes after it; the block written in its place carries the new
    text, the located block's text as [originalText], and the located
    block's position, page and items. The same region still locates a block
    in the new map. *)
Theorem X12_located_block_is_replaced (h : Heap) (textMap : MapObject)
  (m : PdfTextMap) (wanted : string) (region : Box) (page : Z)
  (b : TextBlock) (newText : string) :
  read_map h textMap = Some m →
  findTextBlockToReplace m wanted region page = Some b →
  ∃ (h' : Heap) (updatedMap : MapObject) (m' : PdfTextMap) (i k : nat)
    (old new : TextBlock),
    replaceTextInBlock h textMap b newText = Ok (h', updatedMap) ∧
    console h' = console h ∧
    blocks_at updatedMap ≠ blocks_at textMap ∧
    read_map h' updatedMap = Some m' ∧
    read_map h' textMap = Some m ∧
    blocks m !! i = Some old ∧ key_eq b old ∧
    (∀ (j : nat) (a : TextBlock),
       (j < i)%nat → blocks m !! j = Some a → ¬ key_eq b a) ∧
    blocks m !! k = Some b ∧ (i ≤ k)%nat ∧
    ((∀ a, In a (blocks m) → key_eq b a → a = b) → old = b) ∧
    blocks m' = <[i := new]> (blocks m) ∧ pages m' = pages m ∧
    blocks m' !! i = Some new ∧
    (∀ j : nat, j ≠ i → blocks m' !! j = blocks m !! j) ∧
    text new = newText ∧ originalText new = Some (text b) ∧
    position new = position b ∧ pageIndex new = pageIndex b ∧
    items new = items b ∧ isModified new = true ∧
    findTextBlockToReplace m' wanted region page ≠ None.
Proof.
  intros Hm Hloc.
  destruct (located_is_candidate _ _ _ _ _ Hloc) as [Hin Hcand].
  assert (Hself : same_key b b = true).
  { unfold same_key. now rewrite Z.eqb_refl, !Qeq_bool_refl. }
  destruct (findIndex_from_found (same_key b) 0 (blocks m)
              (ex_intro _ b (conj Hin Hself)))
    as (i & old & Hi & Hold & Hkey & Hfirst).
  destruct (replaceTextInBlock_run h textMap b newText m Hm)
    as (h' & um & Hr & Hread & Hpres).
  pose proof Hr as Hr'.
  rewrite (replaceTextInBlock_unfold _ _ _ _ _ Hm) in Hr'. cbv zeta in Hr'.
  unfold findIndex in Hr'. rewrite Hi in Hr'.
  replace (0 + Z.of_nat i =? -1)%Z with false in Hr'
    by (symmetry; apply Z.eqb_neq; lia).
  injection Hr' as <- <-.
  unfold replace_value, findIndex in Hread. cbv zeta in Hread. rewrite Hi in Hread.
  replace (0 + Z.of_nat i =? -1)%Z with false in Hread
    by (symmetry; apply Z.eqb_neq; lia).
  replace (Z.to_nat (0 + Z.of_nat i)) with i in Hread, Hr, Hpres by lia.
  apply read_map_arrays in Hm as Hm'. destruct Hm' as [Hb _].
  apply list_elem_of_In, list_elem_of_lookup in Hin. destruct Hin as [k Hk].
  exists (write_block
            {| block_arrays := <[fresh (dom (block_arrays h)) := blocks m]> (block_arrays h);
               page_arrays := <[fresh (dom (page_arrays h)) := pages m]> (page_arrays h);
               console := console h |}
            (fresh (dom (block_arrays h))) i (updatedBlock b newText)),
    {| blocks_at := fresh (dom (block_arrays h));
       pages_at := fresh (dom (page_arrays h)) |},
    {| blocks := <[i := updatedBlock b newText]> (blocks m); pages := pages m |},
    i, k, old, (updatedBlock b newText).
  assert (Hlook : <[i := updatedBlock b newText]> (blocks m) !! i
                  = Some (updatedBlock b newText)).
  { apply list_lookup_insert_eq. eapply lookup_lt_Some. exact Hold. }
  split; [exact Hr |]. split; [reflexivity |]. split.
  { simpl. apply not_eq_sym. eapply fresh_not_allocated. exact Hb. }
  split; [exact Hread |]. split; [now apply (arrays_preserved_read h) |].
  split; [exact Hold |]. split; [now apply same_key_iff |]. split.
  { intros j a Hj Ha Hk'. apply same_key_iff in Hk'.
    rewrite (Hfirst j a Hj Ha) in Hk'. discriminate Hk'. }
  split; [exact Hk |]. split.
  { destruct (le_lt_dec i k) as [Hle | Hlt]; [exact Hle |].
    rewrite (Hfirst k b Hlt Hk) in Hself. discriminate Hself. }
  split.
  { intros Honly. apply Honly.
    - apply list_elem_of_In. eapply list_elem_of_lookup_2. exact Hold.
    - now apply same_key_iff. }
  split; [reflexivity |]. split; [reflexivity |]. split; [exact Hlook |]. split.
  { intros j Hj. simpl. apply list_lookup_insert_ne. congruence. }
  repeat (split; [reflexivity |]).
  apply (candidate_locates _ _ _ _ (updatedBlock b newText)).
  - simpl. apply list_elem_of_In. eapply list_elem_of_lookup_2. exact Hlook.
  - exact Hcand.
Qed.

Lemma X12_located_block_is_replaced_witness :
  ∃ (h' : Heap) (updatedMap : MapObject) (m' : PdfTextMap),
    replaceTextInBlock sample_heap sample_object sample_b2 "Staff Engineer"
    = Ok (h', updatedMap) ∧
    console h' = [] ∧
    read_map h' updatedMap = Some m' ∧
    List.map text (blocks m') = ["Hello world"; "Staff Engineer"; "Second page"] ∧
    findTextBlockToReplace m' "senior engineer" sample_region 0 ≠ None.
Proof.
  destruct (X12_located_block_is_replaced sample_heap sample_object sample_map
              "senior engineer" sample_region 0 sample_b2 "Staff Engineer")
    as (h' & um & m' & i & k & old & new & Hr & Hc & _ & Hread & _ & _ & _ & _ & _
        & _ & _ & _ & _ & _ & _ & _ & _ & _ & _ & _ & _ & Hloc).
  - reflexivity.
  - vm_compute. reflexivity.
  - exists h', um, m'. split; [exact Hr |]. split; [exact Hc |].
    split; [exact Hread |]. split; [| exact Hloc].
    vm_compute in Hr. injection Hr as <- <-.
    vm_compute in Hread. injection Hread as <-. reflexivity.
Defined.

(** The locator prefers a block whose text matches, the update the first
    block with the key: with two blocks at one origin, the second is
    located and the first overwritten. *)
Example located_second_replaced_first :
  findTextBlockToReplace twin_map "senior engineer" sample_region 0 = Some twin_second ∧
  ∃ (h' : Heap) (updatedMap : MapObject),
    replaceTextInBlock twin_heap sample_object twin_second "Staff Engineer"
    = Ok (h', updatedMap) ∧
    option_map (λ m', List.map text (blocks m')) (read_map h' updatedMap)
    = Some ["Staff Engineer"; "Senior Engineer"].
Proof.
  split; [vm_compute; reflexivity |].
  eexists _, _. split; [vm_compute; reflexivity |]. vm_compute. reflexivity.
Qed.

(** ** Re-flow renderer: what does not matter *)

Lemma rendered_nothing (w : string → Q → result Q) (enc : string → result unit)
  (textMap : PdfTextMap) (i : nat) (page : PDFPage) :
  modified_on_page textMap i = [] → rendered w enc textMap i page = (page, Ok tt).
Proof. intros H. unfold rendered. now rewrite H. Qed.

Lemma modified_on_page_unmodified (textMap : PdfTextMap) (i : nat) :
  Forall (λ b, isModified b = false) (blocks textMap) →
  modified_on_page textMap i = [].
Proof.
  unfold modified_on_page. induction 1 as [| b l Hb _ IH]; simpl; [reflexivity |].
  now rewrite Hb, andb_false_r.
Qed.

Lemma render_from_unmodified (w : string → Q → result Q) (enc : string → result unit)
  (textMap : PdfTextMap) (indices : list nat) (pages : list PDFPage) :
  Forall (λ b, isModified b = false) (blocks textMap) →
  render_from w enc textMap indices pages = (pages, Ok tt).
Proof.
  intros H. induction indices as [| i indices IH]; cbn [render_from];
    [reflexivity |].
  rewrite render_page_run.
  destruct (pages !! i) as [page |] eqn:E; [| exact IH].
  rewrite rendered_nothing by now apply modified_on_page_unmodified.
  cbn [fst snd]. rewrite (list_insert_id _ _ _ E). exact IH.
Qed.

Lemma render_pages_unmodified (w : string → Q → result Q) (enc : string → result unit)
  (textMap : PdfTextMap) (pages : list PDFPage) :
  Forall (λ b, isModified b = false) (blocks textMap) →
  render_pages w enc textMap pages = (pages, Ok tt).
Proof. intros H. unfold render_pages. now apply render_from_unmodified. Qed.

Lemma extractTextWithPositions_spec (pdfDoc : list RawPage) :
  ∃ bs, groupTextIntoBlocks (allTextItems (extract_pages pdfDoc)) = Ok bs ∧
        extractTextWithPositions pdfDoc
        = Ok {| blocks := bs; pages := pageInfo (extract_pages pdfDoc) |} ∧
        flat_map items bs = sort_by compareItems (allTextItems (extract_pages pdfDoc)) ∧
        Forall closed_block bs.
Proof.
  destruct (groupTextIntoBlocks_spec (allTextItems (extract_pages pdfDoc)))
    as (bs & Hr & Hflat & Hclosed).
  exists bs. split; [exact Hr |]. split; [| split; assumption].
  unfold extractTextWithPositions. cbv zeta. now rewrite Hr.
Qed.

Lemma closed_block_unmodified (b : TextBlock) : closed_block b → isModified b = false.
Proof.
  intros (Hne & Hb & _). destruct (items b) as [| f r]; [contradiction |].
  simpl in Hb. injection Hb as <-. reflexivity.
Qed.

(** X13. Regenerating a document with the map just extracted from it draws
    nothing: the result is the loaded pages as they are. The same holds for
    any map without a modified block. *)
Theorem X13_regenerate_fresh_map_draws_nothing
  (load : ArrayBuffer → ArrayBuffer * result (list PageSize))
  (w : string → Q → result Q) (enc : string → result unit)
  (st : gmap nat ArrayBuffer) (a : nat)
  (data : list Byte.byte) (b' : ArrayBuffer) (sizes : list PageSize) :
  st !! a = Some (Bytes data) →
  load (Bytes data) = (b', Ok sizes) →
  (∀ pdfDoc : list RawPage,
     ∃ textMap, extractTextWithPositions pdfDoc = Ok textMap ∧
       regeneratePdfWithModifiedText load w enc st a textMap
       = (<[a := b']> st, Ok (List.map blank_page sizes))) ∧
  (∀ textMap : PdfTextMap,
     Forall (λ b, isModified b = false) (blocks textMap) →
     regeneratePdfWithModifiedText load w enc st a textMap
     = (<[a := b']> st, Ok (List.map blank_page sizes))).
Proof.
  intros Hst Hload.
  assert (Hgen : ∀ textMap : PdfTextMap,
             Forall (λ b, isModified b = false) (blocks textMap) →
             regeneratePdfWithModifiedText load w enc st a textMap
             = (<[a := b']> st, Ok (List.map blank_page sizes))).
  { intros textMap Hun. rewrite (regenerate_run _ _ _ _ _ _ _ Hst), Hload. simpl.
    now rewrite render_pages_unmodified. }
  split; [| exact Hgen].
  intros pdfDoc.
  destruct (extractTextWithPositions_spec pdfDoc) as (bs & _ & Hr & _ & Hclosed).
  eexists. split; [exact Hr |]. apply Hgen. simpl.
  eapply List.Forall_impl; [| exact Hclosed]. apply closed_block_unmodified.
Qed.

Lemma X13_regenerate_fresh_map_draws_nothing_witness :
  (∃ textMap, extractTextWithPositions sample_document = Ok textMap ∧
     regeneratePdfWithModifiedText plain_load sample_width sample_encode
       sample_buffers 0 textMap
     = (<[0%nat := Bytes [Byte.x25; Byte.x50; Byte.x44; Byte.x46]]> sample_buffers,
        Ok (List.map blank_page
              [{| page_width := 612; page_height := 792 |};
               {| page_width := 612; page_height := 792 |}]))) ∧
  regeneratePdfWithModifiedText plain_load sample_width sample_encode
    sample_buffers 0 sample_map
  = (<[0%nat := Bytes [Byte.x25; Byte.x50; Byte.x44; Byte.x46]]> sample_buffers,
     Ok (List.map blank_page
           [{| page_width := 612; page_height := 792 |};
            {| page_width := 612; page_height := 792 |}])).
Proof.
  split.
  - apply (proj1 (X13_regenerate_fresh_map_draws_nothing plain_load sample_width
                    sample_encode
                    sample_buffers 0 [Byte.x25; Byte.x50; Byte.x44; Byte.x46]
                    (Bytes [Byte.x25; Byte.x50; Byte.x44; Byte.x46])
                    [{| page_width := 612; page_height := 792 |};
                     {| page_width := 612; page_height := 792 |}]
                    eq_refl eq_refl)).
  - apply (proj2 (X13_regenerate_fresh_map_draws_nothing plain_load sample_width
                    sample_encode
                    sample_buffers 0 [Byte.x25; Byte.x50; Byte.x44; Byte.x46]
                    (Bytes [Byte.x25; Byte.x50; Byte.x44; Byte.x46])
                    [{| page_width := 612; page_height := 792 |};
                     {| page_width := 612; page_height := 792 |}]
                    eq_refl eq_refl)).
    repeat constructor.
Defined.

Lemma modified_on_page_drawable (textMap : PdfTextMap) (n i : nat) :
  (i < n)%nat →
  modified_on_page {| blocks := List.filter (drawable n) (blocks textMap);
                      pages := pages textMap |} i
  = modified_on_page textMap i.
Proof.
  intros Hi. unfold modified_on_page. cbn [blocks].
  rewrite filter_filter_andb. apply filter_ext. intros b. unfold drawable.
  destruct (Z.eqb_spec (pageIndex b) (Z.of_nat i)) as [He | Hne];
    [| now rewrite andb_false_r].
  destruct (isModified b); simpl; [| reflexivity].
  replace (0 <=? pageIndex b)%Z with true by (symmetry; apply Z.leb_le; lia).
  replace (pageIndex b <? Z.of_nat n)%Z with true by (symmetry; apply Z.ltb_lt; lia).
  reflexivity.
Qed.

(** The page loop sees of a map only the modified blocks of the pages it
    visits. *)
Lemma render_from_ext (w : string → Q → result Q) (enc : string → result unit)
  (textMap1 textMap2 : PdfTextMap) (indices : list nat) (pages : list PDFPage) :
  (∀ i, In i indices → modified_on_page textMap1 i = modified_on_page textMap2 i) →
  render_from w enc textMap1 indices pages = render_from w enc textMap2 indices pages.
Proof.
  revert pages. induction indices as [| i indices IH]; intros pages H;
    cbn [render_from]; [reflexivity |].
  rewrite !render_page_run. unfold rendered.
  rewrite (H i (or_introl eq_refl)).
  destruct (pages !! i) as [page |].
  - destruct (snd _); [| reflexivity]. apply IH. intros j Hj. apply H. now right.
  - apply IH. intros j Hj. apply H. now right.
Qed.

(** X14. Only the modified blocks of pages the document has count: leaving
    out of the map every block that is unmodified or whose page index is
    negative or not below the number of pages gives the same result. *)
Theorem X14_regenerate_ignores_other_blocks
  (load : ArrayBuffer → ArrayBuffer * result (list PageSize))
  (w : string → Q → result Q) (enc : string → result unit)
  (st : gmap nat ArrayBuffer) (a : nat)
  (data : list Byte.byte) (b' : ArrayBuffer) (sizes : list PageSize)
  (textMap : PdfTextMap) :
  st !! a = Some (Bytes data) →
  load (Bytes data) = (b', Ok sizes) →
  regeneratePdfWithModifiedText load w enc st a
    {| blocks := List.filter (drawable (length sizes)) (blocks textMap);
       pages := pages textMap |}
  = regeneratePdfWithModifiedText load w enc st a textMap.
Proof.
  intros Hst Hload. rewrite !(regenerate_run _ _ _ _ _ _ _ Hst), Hload. simpl.
  unfold render_pages. rewrite (render_from_ext w enc _ textMap); [reflexivity |].
  intros i Hi. apply in_seq in Hi. rewrite length_map in Hi.
  apply modified_on_page_drawable. lia.
Qed.

Lemma X14_regenerate_ignores_other_blocks_witness :
  regeneratePdfWithModifiedText detaching_load sample_width sample_encode
    sample_buffers 0
    {| blocks := List.filter (drawable 1) (blocks edited_map);
       pages := pages edited_map |}
  = regeneratePdfWithModifiedText detaching_load sample_width sample_encode
      sample_buffers 0 edited_map.
Proof.
  apply (X14_regenerate_ignores_other_blocks detaching_load sample_width
           sample_encode
           sample_buffers 0 [Byte.x25; Byte.x50; Byte.x44; Byte.x46] Detached
           [{| page_width := 612; page_height := 792 |}] edited_map eq_refl eq_refl).
Defined.

(** ** Re-flow renderer: word wrapping *)

(** X15. Every operation of a redraw is a line of text drawn at the left
    edge [x] in the given size; no line is empty, and a line is wider than
    the box only when it is a single word (it contains no space). This
    holds of everything the redraw draws, also of what it has drawn when
    the font throws. *)
Theorem X15_wrapped_lines_fit_or_are_one_word
  (w : string → Q → result Q) (enc : string → result unit)
  (x y maxWidth fontSize : Q) (text : string) :
  Forall (wrapped_line w x maxWidth fontSize)
         (text_ops w enc text x y maxWidth fontSize).
Proof.
  unfold text_ops, drawTextWithWrapping. cbv zeta. cbn [fst].
  generalize (split_on "010" text). intros ps.
  assert (H : Forall (wrapped_line w x maxWidth fontSize)
                (drawn (ws_page {| ws_page := blank_page {| page_width := 0;
                                                             page_height := 0 |};
                                   yOffset := 0; line := ""; thrown := None |})))
    by constructor.
  revert H. generalize {| ws_page := blank_page {| page_width := 0; page_height := 0 |};
                          yOffset := 0; line := ""; thrown := None |}.
  induction ps as [| p ps IH]; intros st H; simpl; [exact H |].
  apply IH. now apply wrap_paragraph_line_ok.
Qed.

(** X16. When [drawTextWithWrapping] returns, wrapping has lost no word:
    the non-empty words of the lines drawn, read in drawing order, are the
    non-empty words of the paragraphs that are not blank, in the order of
    the text. It returns whenever the font measures and encodes every
    string written with the characters of the text; a character the font
    has no glyph for, such as a tabulator, makes it throw. *)
Theorem X16_wrapping_keeps_every_word
  (w : string → Q → result Q) (enc : string → result unit)
  (x y maxWidth fontSize : Q) (text : string) :
  (text_status w enc text x y maxWidth fontSize = Ok tt →
   words_drawn (text_ops w enc text x y maxWidth fontSize) = words_of_text text) ∧
  (font_accepts w enc fontSize text →
   text_status w enc text x y maxWidth fontSize = Ok tt ∧
   words_drawn (text_ops w enc text x y maxWidth fontSize) = words_of_text text) ∧
  text_status strict_width strict_encode (String "a" (String "009" "b"))
              x y maxWidth fontSize
  = Throw "WinAnsi cannot encode".
Proof.
  assert (Hwords : text_status w enc text x y maxWidth fontSize = Ok tt →
                   words_drawn (text_ops w enc text x y maxWidth fontSize)
                   = words_of_text text).
  { unfold text_status, text_ops, words_of_text, drawTextWithWrapping.
    cbv zeta. cbn [fst snd]. intros Hok.
    rewrite fold_wrap_paragraph_words; [reflexivity |].
    destruct (thrown _); [discriminate Hok | reflexivity]. }
  split; [exact Hwords |]. split; [| reflexivity].
  intros Hfont.
  pose proof (text_status_accepted w enc text x y maxWidth fontSize Hfont) as Hok.
  split; [exact Hok | exact (Hwords Hok)].
Qed.

Lemma X16_wrapping_keeps_every_word_witness :
  text_status sample_width sample_encode
    (String.concat (String "010" "") ["aa bb "; ""; " cc"]) 0 100 12 10 = Ok tt ∧
  words_drawn (text_ops sample_width sample_encode
                 (String.concat (String "010" "") ["aa bb "; ""; " cc"]) 0 100 12 10)
  = ["aa"; "bb"; "cc"].
Proof.
  apply (proj1 (proj2 (X16_wrapping_keeps_every_word sample_width sample_encode
                         0 100 12 10
                         (String.concat (String "010" "") ["aa bb "; ""; " cc"])))).
  intros s _. split; [eexists; reflexivity | reflexivity].
Defined.

(** ** Extraction pipeline: the whole map *)

Lemma fold_extract_page_items (pdfDoc : list RawPage) (st : ExtractState) :
  (0 <= ex_pageIndex st)%Z →
  allTextItems (fold_left extract_page pdfDoc st)
  = allTextItems st
    ++ concat (imap (λ i page,
                       List.map (toTextItem (ex_pageIndex st + Z.of_nat i))
                                (textContent page)) pdfDoc) ∧
  pageInfo (fold_left extract_page pdfDoc st)
  = pageInfo st ++ List.map viewport pdfDoc.
Proof.
  revert st. induction pdfDoc as [| page rest IH]; intros st Hst.
  - simpl. now rewrite !app_nil_r.
  - cbn [fold_left]. destruct (IH (extract_page st page)) as [Hi Hp];
      [simpl; lia |].
    rewrite Hi, Hp. rewrite imap_cons. simpl. rewrite <- !app_assoc.
    split; [| reflexivity].
    replace (ex_pageIndex st + Z.of_nat 0)%Z with (ex_pageIndex st) by lia.
    do 3 f_equal. apply imap_ext. intros i pg _. simpl. do 2 f_equal. lia.
Qed.

Lemma page_runs_index (pdfDoc : list RawPage) (it : TextItem) :
  In it (page_runs pdfDoc) →
  (0 <= item_pageIndex it < Z.of_nat (length pdfDoc))%Z.
Proof.
  unfold page_runs. intros Hin.
  apply in_concat in Hin. destruct Hin as (l & Hl & Hit).
  apply list_elem_of_In, elem_of_lookup_imap in Hl.
  destruct Hl as (i & page & -> & Hpage).
  apply in_map_iff in Hit. destruct Hit as (raw & <- & _).
  simpl. apply lookup_lt_Some in Hpage. lia.
Qed.

(** X17. On a loaded document [extractTextWithPositions] does not throw;
    the map lists the viewport of every page in order; its blocks are
    unmodified, each carries the index of a page of the document, and
    together they hold every run of every page exactly once. *)
Theorem X17_extractTextWithPositions_map (pdfDoc : list RawPage) :
  ∃ textMap,
    extractTextWithPositions pdfDoc = Ok textMap ∧
    pages textMap = List.map viewport pdfDoc ∧
    Permutation (flat_map items (blocks textMap)) (page_runs pdfDoc) ∧
    Forall (λ b, isModified b = false ∧ originalText b = None ∧
                 (0 <= pageIndex b < Z.of_nat (length pdfDoc))%Z)
           (blocks textMap).
Proof.
  destruct (extractTextWithPositions_spec pdfDoc) as (bs & _ & Hr & Hflat & Hclosed).
  destruct (fold_extract_page_items pdfDoc
              {| ex_pageIndex := 0; allTextItems := []; pageInfo := [] |})
    as [Hitems Hinfo]; [simpl; lia |].
  simpl in Hitems, Hinfo. fold (extract_pages pdfDoc) in Hitems, Hinfo.
  change (allTextItems (extract_pages pdfDoc) = page_runs pdfDoc) in Hitems.
  eexists. split; [exact Hr |]. simpl. split; [exact Hinfo |].
  assert (Hperm : Permutation (flat_map items bs) (page_runs pdfDoc)).
  { rewrite Hflat, <- Hitems. apply sort_by_perm. }
  split; [exact Hperm |].
  rewrite List.Forall_forall in *. intros b Hb.
  destruct (Hclosed b Hb) as (Hne & Hmk & Hpage).
  destruct (items b) as [| f r] eqn:Ef; [contradiction |].
  pose proof Hmk as Hmk'. simpl in Hmk'. injection Hmk' as Hb'.
  split; [now rewrite <- Hb' |]. split; [now rewrite <- Hb' |].
  apply Forall_cons_iff in Hpage. destruct Hpage as [Hf _]. rewrite <- Hf.
  apply page_runs_index. apply (Permutation_in f Hperm).
  apply in_flat_map. exists b. split; [exact Hb |]. rewrite Ef. now left.
Qed.

(** ** Block builder: where the blocks are cut *)

Lemma run_joined_snoc (l : list TextItem) (a item : TextItem) :
  run_joined l → last l = Some a → breaks_after a item = false →
  run_joined (l ++ [item]).
Proof.
  induction l as [| x l IH]; intros Hj Hl Hb; [discriminate |].
  destruct l as [| y l].
  - simpl in Hl. injection Hl as ->. simpl. split; [exact Hb | exact I].
  - destruct Hj as [Hxy Hj]. split; [exact Hxy |].
    apply IH; [exact Hj | exact Hl | exact Hb].
Qed.

Lemma runs_separated_snoc (ls : list (list TextItem)) (l l' : list TextItem) :
  runs_separated (ls ++ [l]) → seam l l' → runs_separated (ls ++ [l; l']).
Proof.
  induction ls as [| x ls IH]; intros Hs Hseam.
  - simpl. split; [exact Hseam | exact I].
  - destruct ls as [| z ls].
    + destruct Hs as [Hxl _]. split; [exact Hxl |]. split; [exact Hseam | exact I].
    + destruct Hs as [Hxz Hs]. split; [exact Hxz |]. now apply IH.
Qed.

Lemma runs_separated_grow_last (ls : list (list TextItem)) (l l' : list TextItem) :
  runs_separated (ls ++ [l]) → head l' = head l → runs_separated (ls ++ [l']).
Proof.
  induction ls as [| x ls IH]; intros Hs Hh.
  - exact I.
  - destruct ls as [| z ls].
    + destruct Hs as [Hxl _]. split; [| exact I].
      intros a b Ha Hb. apply Hxl; [exact Ha | congruence].
    + destruct Hs as [Hxz Hs]. split; [exact Hxz |]. now apply IH.
Qed.

Lemma last_snoc_item (l : list TextItem) (item : TextItem) :
  last (l ++ [item]) = Some item.
Proof. apply last_snoc. Qed.

(** One step of the loop keeps the cuts right. *)
Lemma group_step_cut (st st' : GroupState) (item : TextItem) :
  cut_invariant st → group_step st item = Ok st' → cut_invariant st'.
Proof.
  intros (Hblocks & Hcur & Hlast & Hempty & Hsep) Hstep.
  unfold group_step in Hstep. cbv zeta in Hstep.
  destruct (currentBlock st) as [| i0 rest] eqn:Ecur.
  - simpl in Hstep. injection Hstep as <-.
    rewrite (Hempty eq_refl) in *. unfold cut_invariant, chain. simpl.
    split; [constructor |]. split; [exact I |]. split.
    { intros a [= <-]. repeat split. }
    split; [discriminate | exact I].
  - cbn [length Nat.ltb Nat.leb andb] in Hstep.
    destruct (last (i0 :: rest)) as [a |] eqn:Ela.
    2:{ exfalso. apply last_None in Ela. discriminate Ela. }
    destruct (Hlast a eq_refl) as (Hp & Hy & Hr).
    rewrite Hp, Hy, Hr in Hstep. fold (breaks_after a item) in Hstep.
    unfold chain in Hsep. rewrite Ecur in Hsep.
    destruct (breaks_after a item) eqn:Eb.
    + destruct (createBlockFromItems_nonempty i0 rest) as (b & Hb & Hitems & _).
      rewrite Hb in Hstep. simpl in Hstep. injection Hstep as <-.
      unfold cut_invariant, chain. simpl. rewrite map_app. simpl. rewrite Hitems.
      split; [apply Forall_app; split; [exact Hblocks | now repeat constructor] |].
      split; [exact I |]. split.
      { intros a' [= <-]. repeat split. }
      split; [discriminate |].
      rewrite <- app_assoc. simpl. apply runs_separated_snoc; [exact Hsep |].
      intros a' b' Ha' [= <-]. rewrite Ela in Ha'. injection Ha' as <-. exact Eb.
    + simpl in Hstep. injection Hstep as <-.
      unfold cut_invariant, chain. simpl.
      split; [exact Hblocks |]. split.
      { change (run_joined ((i0 :: rest) ++ [item])).
        eapply run_joined_snoc; [exact Hcur | exact Ela | exact Eb]. }
      split.
      { intros a'. change (i0 :: rest ++ [item]) with ((i0 :: rest) ++ [item]).
        rewrite last_snoc. intros [= <-]. repeat split. }
      split; [discriminate |].
      apply (runs_separated_grow_last _ (i0 :: rest)); [exact Hsep | reflexivity].
Qed.

Lemma group_loop_cut (l : list TextItem) (st st' : GroupState) :
  cut_invariant st → group_loop st l = Ok st' → cut_invariant st'.
Proof.
  revert st. induction l as [| item l IH]; intros st Hinv Hl.
  - simpl in Hl. injection Hl as <-. exact Hinv.
  - cbn [group_loop] in Hl.
    destruct (group_step st item) as [st1 | msg] eqn:Es; [| discriminate Hl].
    simpl in Hl. apply (IH st1); [| exact Hl].
    now apply (group_step_cut st _ item).
Qed.

(** Where the loop cuts the sequence it is handed. *)
Lemma group_sorted_cut (sortedItems : list TextItem) (bs : list TextBlock) :
  group_sorted sortedItems = Ok bs →
  Forall (λ b, run_joined (items b)) bs ∧ runs_separated (List.map items bs).
Proof.
  intros Hr. unfold group_sorted in Hr.
  destruct (group_loop _ sortedItems) as [st | msg] eqn:El; [| discriminate Hr].
  assert (H0 : cut_invariant {| gs_blocks := []; currentBlock := [];
                                currentPageIndex := -1; lastY := -1;
                                lastRight := -1 |}).
  { unfold cut_invariant, chain. simpl.
    split; [constructor |]. split; [exact I |]. split; [discriminate |].
    split; [reflexivity | exact I]. }
  pose proof (group_loop_cut _ _ _ H0 El) as (Hblocks & Hcur & _ & _ & Hsep).
  simpl in Hr. unfold chain in Hsep.
  destruct (currentBlock st) as [| i0 rest] eqn:Ecur; simpl in Hr.
  - injection Hr as <-. rewrite app_nil_r in Hsep.
    split; [| exact Hsep]. rewrite List.Forall_map in Hblocks. exact Hblocks.
  - injection Hr as <-. rewrite map_app. simpl. split; [| exact Hsep].
    apply Forall_app. split; [rewrite List.Forall_map in Hblocks; exact Hblocks |].
    constructor; [exact Hcur | constructor].
Qed.

(** X18. The loop of [groupTextIntoBlocks] cuts the sequence it is handed,
    whatever order the sort left it in, into its maximal runs between which
    no trigger fires: the blocks, none of them empty, hold that sequence in
    its order; inside a block, every run is on the page of the run before
    it, within half its own height of that run's baseline, and starts no
    further than half its own width after that run's right edge; and
    between the last run of a block and the first run of the next block one
    of these three fails. The blocks [groupTextIntoBlocks] returns are cut
    in this way from a rearrangement of its input. *)
Theorem X18_groupTextIntoBlocks_cuts_at_triggers (textItems : list TextItem) :
  (∀ sortedItems : list TextItem,
     ∃ bs, group_sorted sortedItems = Ok bs ∧
           flat_map items bs = sortedItems ∧
           Forall (λ b, items b ≠ []) bs ∧
           Forall (λ b, run_joined (items b)) bs ∧
           runs_separated (List.map items bs)) ∧
  ∃ bs, groupTextIntoBlocks textItems = Ok bs ∧
        Permutation (flat_map items bs) textItems ∧
        Forall (λ b, items b ≠ []) bs ∧
        Forall (λ b, run_joined (items b)) bs ∧
        runs_separated (List.map items bs).
Proof.
  assert (Hloop : ∀ sortedItems : list TextItem,
     ∃ bs, group_sorted sortedItems = Ok bs ∧
           flat_map items bs = sortedItems ∧
           Forall (λ b, items b ≠ []) bs ∧
           Forall (λ b, run_joined (items b)) bs ∧
           runs_separated (List.map items bs)).
  { intros sortedItems.
    destruct (group_sorted_spec sortedItems) as (bs & Hr & Hflat & Hclosed).
    destruct (group_sorted_cut sortedItems bs Hr) as [Hj Hs].
    exists bs. split; [exact Hr |]. split; [exact Hflat |]. split; [| now split].
    eapply List.Forall_impl; [| exact Hclosed]. intros b Hb. apply Hb. }
  split; [exact Hloop |].
  destruct (Hloop (sort_by compareItems textItems)) as (bs & Hr & Hflat & Hrest).
  exists bs. split; [exact Hr |]. split; [| exact Hrest].
  rewrite Hflat. apply sort_by_perm.
Qed.

(** ** Locating, replacing and regenerating *)

Lemma replace_value_found (m : PdfTextMap) (b : TextBlock) (newText : string) :
  In b (blocks m) →
  ∃ (i : nat) (old : TextBlock),
    blocks m !! i = Some old ∧
    replace_value m b newText
    = {| blocks := <[i := updatedBlock b newText]> (blocks m); pages := pages m |}.
Proof.
  intros Hin.
  assert (Hself : same_key b b = true).
  { unfold same_key. now rewrite Z.eqb_refl, !Qeq_bool_refl. }
  destruct (findIndex_from_found (same_key b) 0 (blocks m)
              (ex_intro _ b (conj Hin Hself)))
    as (i & old & Hi & Hold & _ & _).
  exists i, old. split; [exact Hold |].
  unfold replace_value, findIndex. cbv zeta. rewrite Hi.
  replace (0 + Z.of_nat i =? -1)%Z with false by (symmetry; apply Z.eqb_neq; lia).
  replace (Z.to_nat (0 + Z.of_nat i)) with i by lia. reflexivity.
Qed.

Lemma filter_insert_only {A : Type} (p : A → bool) (l : list A) (i : nat) (v : A) :
  Forall (λ c, p c = false) l → (i < length l)%nat →
  List.filter p (<[i := v]> l) = if p v then [v] else [].
Proof.
  intros Hl. revert i. induction Hl as [| c l Hc Hl IH]; intros i Hi; simpl in Hi;
    [lia |].
  destruct i as [| i]; simpl.
  - replace (List.filter p l) with (@nil A); [reflexivity |].
    symmetry. clear IH Hi. induction Hl as [| d l Hd _ IH]; simpl; [reflexivity |].
    now rewrite Hd.
  - rewrite Hc. apply IH. lia.
Qed.

(** X19. The first edit of a map without modified blocks, carried through:
    when the locator returns a block, [replaceTextInBlock] with that block
    yields a map with which [regeneratePdfWithModifiedText] returns
    whenever the font measures and encodes what the new text is written
    with. What it then returns has, on the page of the block, one white
    rectangle over the block's box followed by the redraw of the new text
    in that box, lines that hold the words of the new text in their order,
    and nothing on any other page. When the font throws on the new text,
    the renderer throws. *)
Theorem X19_first_edit_draws_one_block
  (load : ArrayBuffer → ArrayBuffer * result (list PageSize))
  (w : string → Q → result Q) (enc : string → result unit)
  (st : gmap nat ArrayBuffer) (a : nat)
  (data : list Byte.byte) (b' : ArrayBuffer) (sizes : list PageSize)
  (h : Heap) (textMap : MapObject) (m : PdfTextMap)
  (wanted : string) (region : Box) (page : Z) (b : TextBlock) (newText : string) :
  read_map h textMap = Some m →
  Forall (λ c, isModified c = false) (blocks m) →
  findTextBlockToReplace m wanted region page = Some b →
  st !! a = Some (Bytes data) →
  load (Bytes data) = (b', Ok sizes) →
  ∃ (h' : Heap) (updatedMap : MapObject) (m' : PdfTextMap),
    replaceTextInBlock h textMap b newText = Ok (h', updatedMap) ∧
    read_map h' updatedMap = Some m' ∧
    (font_accepts w enc 10 newText →
     ∃ pages', snd (regeneratePdfWithModifiedText load w enc st a m') = Ok pages') ∧
    (∀ pages' : list PDFPage,
       snd (regeneratePdfWithModifiedText load w enc st a m') = Ok pages' →
       ∀ (i : nat) (size : PageSize), sizes !! i = Some size →
         ∃ pg, pages' !! i = Some pg ∧ getSize pg = size ∧
           drawn pg
           = (if (page =? Z.of_nat i)%Z
              then DrawRectangle (box_x (position b))
                     (page_height size - box_y (position b)
                      - box_height (position b))%Q
                     (box_width (position b)) (box_height (position b))
                     (1%Q, 1%Q, 1%Q) 1.0%Q
                   :: text_ops w enc newText (box_x (position b))
                        (page_height size - box_y (position b)
                         - box_height (position b))%Q
                        (box_width (position b)) 10
              else []) ∧
           (page = Z.of_nat i →
            words_drawn (text_ops w enc newText (box_x (position b))
                           (page_height size - box_y (position b)
                            - box_height (position b))%Q
                           (box_width (position b)) 10)
            = words_of_text newText ∧
            Forall (wrapped_line w (box_x (position b)) (box_width (position b)) 10)
                   (text_ops w enc newText (box_x (position b))
                      (page_height size - box_y (position b)
                       - box_height (position b))%Q
                      (box_width (position b)) 10))) ∧
    (∀ (i : nat) (size : PageSize) (e : string),
       sizes !! i = Some size → page = Z.of_nat i →
       text_status w enc newText (box_x (position b))
         (page_height size - box_y (position b) - box_height (position b))%Q
         (box_width (position b)) 10
       = Throw e →
       ∃ e', snd (regeneratePdfWithModifiedText load w enc st a m') = Throw e').
Proof.
  intros Hm Hfresh Hloc Hst Hload.
  destruct (located_is_candidate _ _ _ _ _ Hloc) as [Hin Hcand].
  destruct (replaceTextInBlock_run h textMap b newText m Hm)
    as (h' & um & Hr & Hread & _).
  destruct (replace_value_found m b newText Hin) as (i0 & old & Hold & Hval).
  rewrite Hval in Hread.
  exists h', um, {| blocks := <[i0 := updatedBlock b newText]> (blocks m);
                    pages := pages m |}.
  split; [exact Hr |]. split; [exact Hread |].
  assert (Hmod : ∀ i : nat,
            modified_on_page {| blocks := <[i0 := updatedBlock b newText]> (blocks m);
                                pages := pages m |} i
            = if (page =? Z.of_nat i)%Z then [updatedBlock b newText] else []).
  { intros i. unfold modified_on_page. cbn [blocks].
    rewrite filter_insert_only.
    - cbn [pageIndex isModified updatedBlock]. rewrite andb_true_r.
      apply candidate_overlapping in Hcand. destruct Hcand as [Hp _].
      now rewrite Hp.
    - eapply List.Forall_impl; [| exact Hfresh]. simpl. intros c Hc.
      now rewrite Hc, andb_false_r.
    - eapply lookup_lt_Some. exact Hold. }
  destruct (regenerate_result load w enc st a data b' sizes
              {| blocks := <[i0 := updatedBlock b newText]> (blocks m);
                 pages := pages m |} Hst Hload) as [Hiff Hwhat].
  split; [| split].
  - intros Hfont. apply Hiff. intros i size block Hi Hblock.
    rewrite Hmod in Hblock.
    destruct (page =? Z.of_nat i)%Z; [| destruct Hblock].
    destruct Hblock as [<- | []]. unfold block_status.
    apply text_status_accepted. exact Hfont.
  - intros pages' Hpages i size Hi.
    destruct (proj2 (Hwhat pages' Hpages) i size Hi) as (pg & Hl & Hg & Hd).
    exists pg. split; [exact Hl |]. split; [exact Hg |].
    rewrite Hmod in Hd. split.
    + rewrite Hd. destruct (page =? Z.of_nat i)%Z; [| reflexivity].
      simpl. now rewrite app_nil_r.
    + intros Hp. split.
      * apply text_ops_words.
        apply (proj1 Hiff (ex_intro _ pages' Hpages) i size
                 (updatedBlock b newText) Hi).
        rewrite Hmod. rewrite (proj2 (Z.eqb_eq _ _) Hp). now left.
      * apply text_ops_wrapped.
  - intros i size e Hi Hp He.
    destruct (snd (regeneratePdfWithModifiedText load w enc st a _))
      as [pages' | e'] eqn:Er; [| now exists e'].
    assert (Hok : block_status w enc (page_height size) (updatedBlock b newText)
                  = Ok tt).
    { apply (proj1 Hiff (ex_intro _ pages' eq_refl) i size (updatedBlock b newText) Hi).
      rewrite Hmod. rewrite (proj2 (Z.eqb_eq _ _) Hp). now left. }
    unfold block_status in Hok. cbn [text position updatedBlock] in Hok.
    rewrite He in Hok. discriminate Hok.
Qed.

Lemma X19_first_edit_draws_one_block_witness :
  ∃ (h' : Heap) (updatedMap : MapObject) (m' : PdfTextMap) (pages' : list PDFPage),
    replaceTextInBlock sample_heap sample_object sample_b2 "Staff Engineer"
    = Ok (h', updatedMap) ∧
    read_map h' updatedMap = Some m' ∧
    snd (regeneratePdfWithModifiedText plain_load sample_width sample_encode
           sample_buffers 0 m')
    = Ok pages' ∧
    (drawn <$> pages' !! 1%nat) = Some [] ∧
    (length <$> (drawn <$> pages' !! 0%nat)) = Some 2%nat.
Proof.
  destruct (X19_first_edit_draws_one_block plain_load sample_width sample_encode
              sample_buffers 0
              [Byte.x25; Byte.x50; Byte.x44; Byte.x46]
              (Bytes [Byte.x25; Byte.x50; Byte.x44; Byte.x46])
              [{| page_width := 612; page_height := 792 |};
               {| page_width := 612; page_height := 792 |}]
              sample_heap sample_object sample_map "senior engineer" sample_region 0
              sample_b2 "Staff Engineer")
    as (h' & um & m' & Hr & Hread & Hreturns & Hwhat & _).
  - reflexivity.
  - repeat constructor.
  - vm_compute. reflexivity.
  - reflexivity.
  - reflexivity.
  - destruct Hreturns as [pages' Hpages].
    { intros s _. split; [eexists; reflexivity | reflexivity]. }
    exists h', um, m', pages'. split; [exact Hr |]. split; [exact Hread |].
    split; [exact Hpages |]. split.
    + destruct (Hwhat pages' Hpages 1%nat
                  {| page_width := 612; page_height := 792 |} eq_refl)
        as (pg & Hl & _ & Hd & _).
      rewrite Hl. simpl. now rewrite Hd.
    + destruct (Hwhat pages' Hpages 0%nat
                  {| page_width := 612; page_height := 792 |} eq_refl)
        as (pg & Hl & _ & Hd & _).
      rewrite Hl. simpl. now rewrite Hd.
Defined.

(** ** Block builder: reading order on a line *)

Lemma one_line_compare (l : list TextItem) (a b : TextItem) :
  one_line l → In a l → In b l →
  compareItems a b = (ip_x (item_position a) - ip_x (item_position b))%Q.
Proof.
  intros Hl Ha Hb. destruct (Hl a b Ha Hb) as [Hp Hy].
  apply Qabs_Qle_condition in Hy. destruct Hy as [Hy1 Hy2].
  now apply compareItems_same_line.
Qed.

Lemma insert_sorted_starts (l : list TextItem) (a : TextItem) (t : list TextItem) :
  one_line l → In a l → (∀ b, In b t → In b l) →
  StronglySorted starts_before t →
  StronglySorted starts_before (insert_sorted compareItems a t).
Proof.
  intros Hl Ha. induction t as [| b t IH]; intros Ht Hs; simpl.
  - repeat constructor.
  - apply StronglySorted_inv in Hs. destruct Hs as [Hst Hb].
    rewrite (one_line_compare l a b Hl Ha (Ht b (or_introl eq_refl))).
    destruct (Qle_bool _ 0) eqn:E.
    + apply Qle_bool_iff in E.
      constructor; [constructor; assumption |].
      constructor; [unfold starts_before; lra |].
      eapply List.Forall_impl; [| exact Hb]. unfold starts_before. simpl.
      intros c Hc. lra.
    + assert (Hlt : (0 < ip_x (item_position a) - ip_x (item_position b))%Q).
      { apply Qlt_bool_iff. unfold Qlt_bool. now rewrite E. }
      constructor.
      * apply IH; [intros c Hc; apply Ht; now right | exact Hst].
      * apply (Permutation_Forall
                 (Permutation_sym (insert_sorted_perm compareItems a t))).
        constructor; [unfold starts_before; lra | exact Hb].
Qed.

Lemma sort_by_starts (l t : list TextItem) :
  one_line l → (∀ b, In b t → In b l) →
  StronglySorted starts_before (sort_by compareItems t).
Proof.
  intros Hl. induction t as [| a t IH]; intros Ht; simpl; [constructor |].
  apply (insert_sorted_starts l).
  - exact Hl.
  - apply Ht. now left.
  - intros b Hb. apply Ht. right.
    apply (Permutation_in b (sort_by_perm compareItems t) Hb).
  - apply IH. intros b Hb. apply Ht. now right.
Qed.

(** X20. Runs of one line come out left to right: when the runs handed in
    are all of one page and pairwise within the tolerance band, the runs of
    the blocks, read block after block, are in ascending [x], whatever the
    order they were handed in. *)
Theorem X20_groupTextIntoBlocks_line_left_to_right (textItems : list TextItem) :
  one_line textItems →
  ∃ bs, groupTextIntoBlocks textItems = Ok bs ∧
        StronglySorted starts_before (flat_map items bs).
Proof.
  intros Hl. destruct (groupTextIntoBlocks_spec textItems) as (bs & Hr & Hflat & _).
  exists bs. split; [exact Hr |]. rewrite Hflat.
  apply (sort_by_starts textItems); [exact Hl | auto].
Qed.

Lemma X20_groupTextIntoBlocks_line_left_to_right_witness :
  ∃ bs, groupTextIntoBlocks line_runs = Ok bs ∧
        StronglySorted starts_before (flat_map items bs) ∧
        List.map text bs = ["Senior"; "Software"; "Engineer"].
Proof.
  destruct (X20_groupTextIntoBlocks_line_left_to_right line_runs) as (bs & Hr & Hs).
  - intros a b Ha Hb. simpl in Ha, Hb.
    destruct Ha as [<- | [<- | [<- | []]]]; destruct Hb as [<- | [<- | [<- | []]]];
      (split; [reflexivity | vm_compute; discriminate]).
  - exists bs. split; [exact Hr |]. split; [exact Hs |].
    vm_compute in Hr. injection Hr as <-. reflexivity.
Defined.

(** ** Ordering of the suggestions *)

Section StableSort.

Context {A : Type}.
Variable cmp : A → A → Q.
Variable le : A → A → Prop.
Hypothesis cmp_le : ∀ a b, (cmp a b <= 0)%Q ↔ le a b.
Hypothesis le_total : ∀ a b, le a b ∨ le b a.
Hypothesis le_trans : ∀ a b c, le a b → le b c → le a c.

Lemma insert_by_perm (a : A) (l : list A) : Permutation (insert_by cmp a l) (a :: l).
Proof.
  induction l as [| b t IH]; simpl; [reflexivity |].
  destruct (Qle_bool (cmp a b) 0); [reflexivity |].
  rewrite IH. apply perm_swap.
Qed.

Lemma js_sort_perm (l : list A) : Permutation (js_sort cmp l) l.
Proof.
  induction l as [| a t IH]; simpl; [reflexivity |].
  rewrite insert_by_perm. now constructor.
Qed.

Lemma insert_by_sorted (a : A) (l : list A) :
  StronglySorted le l → StronglySorted le (insert_by cmp a l).
Proof.
  induction l as [| b t IH]; intros Hs; simpl.
  - repeat constructor.
  - apply StronglySorted_inv in Hs. destruct Hs as [Hst Hb].
    destruct (Qle_bool (cmp a b) 0) eqn:E.
    + apply Qle_bool_iff, cmp_le in E.
      constructor; [constructor; assumption |].
      constructor; [exact E |].
      eapply List.Forall_impl; [| exact Hb]. simpl. intros c Hc.
      now apply (le_trans a b c).
    + assert (Hba : le b a).
      { destruct (le_total a b) as [H | H]; [| exact H].
        apply cmp_le, Qle_bool_iff in H. congruence. }
      constructor; [now apply IH |].
      apply (Permutation_Forall (Permutation_sym (insert_by_perm a t))).
      constructor; assumption.
Qed.

Lemma js_sort_sorted (l : list A) : StronglySorted le (js_sort cmp l).
Proof.
  induction l as [| a t IH]; simpl; [constructor |].
  now apply insert_by_sorted.
Qed.

(** Elements that are to come no later than one another keep the order in
    which they were handed in. *)
Lemma insert_by_class (c : A → bool) (a : A) (l : list A) :
  (∀ x y, c x = true → c y = true → le x y) →
  List.filter c (insert_by cmp a l) = List.filter c (a :: l).
Proof.
  intros Hc. induction l as [| b t IH]; simpl; [reflexivity |].
  destruct (Qle_bool (cmp a b) 0) eqn:E; [reflexivity |].
  simpl. rewrite IH. simpl.
  destruct (c a) eqn:Ea; destruct (c b) eqn:Eb; try reflexivity.
  exfalso. pose proof (Hc a b Ea Eb) as H.
  apply cmp_le, Qle_bool_iff in H. congruence.
Qed.

Lemma js_sort_class (c : A → bool) (l : list A) :
  (∀ x y, c x = true → c y = true → le x y) →
  List.filter c (js_sort cmp l) = List.filter c l.
Proof.
  intros Hc. induction l as [| a t IH]; simpl; [reflexivity |].
  rewrite (insert_by_class c a _ Hc). simpl. now rewrite IH.
Qed.

End StableSort.

Lemma byPriority_shown_before (a b : Suggestion) :
  (byPriority a b <= 0)%Q ↔ shown_before a b.
Proof.
  unfold byPriority, shown_before, effective_priority. cbv zeta. split; intros; lra.
Qed.

(** X21. The suggestions of the analysis results view are shown by
    descending priority, a suggestion without priority (or with priority
    0) counting as priority 3: the sorted list is a rearrangement of the
    suggestions, each is followed only by suggestions of at most its
    priority, and suggestions of equal priority keep their order. *)
Theorem X21_sortedSuggestions_descending (suggestions : list Suggestion) :
  Permutation (sortedSuggestions suggestions) suggestions ∧
  StronglySorted shown_before (sortedSuggestions suggestions) ∧
  ∀ p : Q,
    List.filter (λ s, Qeq_bool (effective_priority (sg_priority s)) p)
                (sortedSuggestions suggestions)
    = List.filter (λ s, Qeq_bool (effective_priority (sg_priority s)) p)
                  suggestions.
Proof.
  unfold sortedSuggestions. split; [apply js_sort_perm |]. split.
  - apply js_sort_sorted.
    + exact byPriority_shown_before.
    + intros a b. unfold shown_before.
      destruct (Qlt_le_dec (effective_priority (sg_priority a))
                           (effective_priority (sg_priority b))); [right | left]; lra.
    + unfold shown_before. intros a b c H1 H2. lra.
  - intros p. apply (js_sort_class byPriority shown_before byPriority_shown_before).
    intros x y Hx Hy. apply Qeq_bool_iff in Hx, Hy. unfold shown_before. lra.
Qed.
